(** * A shallow embedding of the pubsub engine of [src/index.js]

    The engine is a closure over four stores (the subscription registry and
    three reverse indexes).  JavaScript [Map]s and [Set]s iterate in
    insertion order, so they are embedded as association lists and lists;
    functions are compared by identity, which the embedding renders as an
    identifier drawn from a counter.  Strings are sequences of 8-bit code
    units ([string]). *)

From Stdlib Require Import List String Ascii Bool Arith Lia.
Import ListNotations.
Local Open Scope string_scope.
Local Open Scope list_scope.

(* ================================================================== *)
(** ** Regular expressions: the fragment the engine itself produces *)

(** [new RegExp(source)] is modelled for sources made of literal
    characters, identity escapes, [.], the anchors [^] and [$] and the
    postfix quantifiers [*], [+] and [?].  Groups, classes, braces,
    alternation and alphanumeric escapes are outside the fragment
    ([None]). *)

Inductive atom : Type :=
| Lit (c : ascii)
| Dot.

Inductive quantifier : Type := One | Star | Plus | Opt.

Inductive term : Type :=
| Atom (a : atom) (q : quantifier)
| Bol
| Eol.

Definition between (lo hi : nat) (c : ascii) : bool :=
  ((lo <=? nat_of_ascii c) && (nat_of_ascii c <=? hi))%nat.

Definition is_alnum (c : ascii) : bool :=
  between 48 57 c || between 65 90 c || between 97 122 c.

(** LF and CR, the line terminators among 8-bit code units. *)
Definition is_line_terminator (c : ascii) : bool :=
  ((nat_of_ascii c =? 10) || (nat_of_ascii c =? 13))%nat.

Definition flush (pending : option atom) (k : option (list term)) : option (list term) :=
  match pending with
  | Some a => option_map (cons (Atom a One)) k
  | None => k
  end.

Definition quantify (pending : option atom) (q : quantifier) (k : option (list term))
  : option (list term) :=
  match pending with
  | Some a => option_map (cons (Atom a q)) k
  | None => None
  end.

(** The parser reads one character at a time; [pending] is the atom just
    read, which the next character may quantify. *)
Fixpoint parse (pending : option atom) (src : string) : option (list term) :=
  match src with
  | EmptyString => flush pending (Some [])
  | String c rest =>
      if Ascii.eqb c "*" then quantify pending Star (parse None rest)
      else if Ascii.eqb c "+" then quantify pending Plus (parse None rest)
      else if Ascii.eqb c "?" then quantify pending Opt (parse None rest)
      else if Ascii.eqb c "\" then
        match rest with
        | EmptyString => None
        | String c2 rest2 =>
            if is_alnum c2 then None
            else flush pending (parse (Some (Lit c2)) rest2)
        end
      else if Ascii.eqb c "." then flush pending (parse (Some Dot) rest)
      else if Ascii.eqb c "^" then flush pending (option_map (cons Bol) (parse None rest))
      else if Ascii.eqb c "$" then flush pending (option_map (cons Eol) (parse None rest))
      else if Ascii.eqb c "(" || Ascii.eqb c ")" || Ascii.eqb c "[" || Ascii.eqb c "]"
              || Ascii.eqb c "{" || Ascii.eqb c "}" || Ascii.eqb c "|" then None
      else flush pending (parse (Some (Lit c)) rest)
  end.

Definition atom_matches (a : atom) (c : ascii) : bool :=
  match a with
  | Lit d => Ascii.eqb c d
  | Dot => negb (is_line_terminator c)
  end.

(** Backtracking matcher: does [ts] match a prefix of [text]?  [at_start]
    tells whether [text] begins at index 0 of the subject (no [m] flag). *)
Fixpoint match_here (ts : list term) (at_start : bool) (text : string) : bool :=
  match ts with
  | [] => true
  | Bol :: ts' => at_start && match_here ts' at_start text
  | Eol :: ts' =>
      match text with
      | EmptyString => match_here ts' at_start text
      | String _ _ => false
      end
  | Atom a One :: ts' =>
      match text with
      | EmptyString => false
      | String c t => atom_matches a c && match_here ts' false t
      end
  | Atom a Opt :: ts' =>
      match text with
      | EmptyString => false
      | String c t => atom_matches a c && match_here ts' false t
      end || match_here ts' at_start text
  | Atom a Star :: ts' =>
      (fix star (b : bool) (text : string) {struct text} : bool :=
         match_here ts' b text ||
         match text with
         | EmptyString => false
         | String c t => atom_matches a c && star false t
         end) at_start text
  | Atom a Plus :: ts' =>
      match text with
      | EmptyString => false
      | String c t =>
          atom_matches a c &&
          (fix star (b : bool) (text : string) {struct text} : bool :=
             match_here ts' b text ||
             match text with
             | EmptyString => false
             | String c t => atom_matches a c && star false t
             end) false t
      end
  end.

(** [subject.match(re)] is non-null iff the pattern matches at some index. *)
Fixpoint search (ts : list term) (at_start : bool) (text : string) : bool :=
  match_here ts at_start text ||
  match text with
  | EmptyString => false
  | String _ t => search ts false t
  end.

(** A RegExp object.  [RegExpNew] is the result of [new RegExp(source)]
    for a source of the fragment, with its compiled terms: it has no flags,
    so its [lastIndex] is neither read nor written.  [RegExpObject] is any
    other RegExp handed in by the caller: its source, its flags, the
    current value of its mutable [lastIndex], and its matcher, which tells
    for a subject and an index whether the pattern matches starting exactly
    there and, if so, where the match ends. *)
Inductive RegExp : Type :=
| RegExpNew (source : string) (program : list term)
| RegExpObject (source flags : string) (lastIndex : nat)
    (matchAt : string -> nat -> option nat).

(** [r.toString()]: the source between slashes, then the flags. *)
Definition re_toString (r : RegExp) : string :=
  match r with
  | RegExpNew source _ => String "/" (source ++ "/")
  | RegExpObject source flags _ _ => String "/" (source ++ String "/" flags)
  end.

Definition has_flag (c : ascii) (flags : string) : bool :=
  existsb (Ascii.eqb c) (list_ascii_of_string flags).

Definition is_some {A : Type} (o : option A) : bool :=
  match o with Some _ => true | None => false end.

(** Without the sticky flag a match is looked for at every index from 0 to
    the length of the subject. *)
Definition match_anywhere (matchAt : string -> nat -> option nat) (subject : string) : bool :=
  existsb (fun i => is_some (matchAt subject i)) (seq 0 (S (String.length subject))).

(** [eventName.match(r)] is non-null.  With the [g] flag the search starts
    from index 0 whatever [lastIndex] is; with the [y] flag alone the match
    is tried at [lastIndex] only; without either flag [lastIndex] is
    ignored. *)
Definition re_test (r : RegExp) (eventName : string) : bool :=
  match r with
  | RegExpNew _ program => search program true eventName
  | RegExpObject _ flags lastIndex matchAt =>
      if has_flag "g" flags then
        if has_flag "y" flags then is_some (matchAt eventName 0)
        else match_anywhere matchAt eventName
      else if has_flag "y" flags then
        (lastIndex <=? String.length eventName)%nat && is_some (matchAt eventName lastIndex)
      else match_anywhere matchAt eventName
  end.

(** The RegExp object after [eventName.match(r)]: with the [g] flag
    [lastIndex] ends at 0; with the [y] flag alone it is the end of the
    match, or 0 when the match fails; otherwise it is untouched. *)
Definition re_advance (r : RegExp) (eventName : string) : RegExp :=
  match r with
  | RegExpNew _ _ => r
  | RegExpObject source flags lastIndex matchAt =>
      if has_flag "g" flags then RegExpObject source flags 0 matchAt
      else if has_flag "y" flags then
        RegExpObject source flags
          (if (lastIndex <=? String.length eventName)%nat
           then match matchAt eventName lastIndex with Some e => e | None => 0 end
           else 0)
          matchAt
      else r
  end.

(** [r.lastIndex = n], done by a caller that kept the object. *)
Definition re_set_lastIndex (n : nat) (r : RegExp) : RegExp :=
  match r with
  | RegExpNew _ _ => r
  | RegExpObject source flags _ matchAt => RegExpObject source flags n matchAt
  end.

(** The matcher of a RegExp whose source is the plain text [lit]: at index
    [i] it matches when [lit] is read there, and ends after it. *)
Definition match_literal (lit subject : string) (i : nat) : option nat :=
  if String.eqb (substring i (String.length lit) subject) lit
  then Some (i + String.length lit)%nat
  else None.

(** A RegExp whose match depends on its [lastIndex]: sticky and not global. *)
Definition sticky (r : RegExp) : bool :=
  match r with
  | RegExpNew _ _ => false
  | RegExpObject _ flags _ _ => has_flag "y" flags && negb (has_flag "g" flags)
  end.

(** [new RegExp(source)], without flags. *)
Definition RegExp_new (source : string) : option RegExp :=
  match parse None source with
  | Some program => Some (RegExpNew source program)
  | None => None
  end.

(* ================================================================== *)
(** ** Values *)

(** Scope identity: [undefined] for the root API, a fresh [Symbol] for each
    [isolate()] facade. *)
Inductive scope : Type :=
| ScopeUndefined
| ScopeSymbol (n : nat).

(** Function values.  [UserFn] is a caller-supplied function, which returns
    or throws; [TokenFn] is the closure built by [createSubscriptionToken]
    with its captured variables; [OnceFn] is the wrapper closure built by
    [subscribeOnce] around [callback]. *)
Inductive fn : Type :=
| UserFn (id : nat) (throws : bool)
| TokenFn (id : nat) (sc : scope) (subscriptionKey : string) (callback : fn)
| OnceFn (id : nat) (callback : fn).

(** Values.  [VStringObject] is a String wrapper object ([new String(s)]):
    not a string for [typeof], but with the methods of one; [VObject] is any
    other object, without a [replace] method. *)
Inductive value : Type :=
| VUndefined
| VNull
| VBoolean (b : bool)
| VNumber (n : nat)
| VString (s : string)
| VRegExp (r : RegExp)
| VFunction (f : fn)
| VStringObject (s : string)
| VObject (id : nat).

Definition isString (v : value) : bool :=
  match v with VString _ => true | _ => false end.

Definition isFunction (v : value) : bool :=
  match v with VFunction _ => true | _ => false end.

Definition isRegExp (v : value) : bool :=
  match v with VRegExp _ => true | _ => false end.

(** JavaScript truthiness, as used by [!eventName] and [scope ? .. : ..]. *)
Definition truthy (v : value) : bool :=
  match v with
  | VUndefined | VNull => false
  | VBoolean b => b
  | VNumber n => negb (n =? 0)%nat
  | VString s => negb (String.eqb s EmptyString)
  | VRegExp _ | VFunction _ | VStringObject _ | VObject _ => true
  end.

Definition scope_truthy (sc : scope) : bool :=
  match sc with ScopeUndefined => false | ScopeSymbol _ => true end.

(* ================================================================== *)
(** ** Topic matcher *)

(** The character class of [escapeRegexpCharacters]:
    [- \ / ^ $ + ? . ( ) | [ ] { } *]. *)
Definition escaped_characters : list ascii :=
  ["-"; "\"; "/"; "\"; "^"; "$"; "+"; "?"; "."; "("; ")"; "|"; "["; "]"; "{"; "}"; "\"; "*"]%char.

Definition needs_escape (c : ascii) : bool :=
  existsb (Ascii.eqb c) escaped_characters.

(** [eventName.replace(/[...]/g, '\\$&')]. *)
Fixpoint escapeRegexpCharacters (eventName : string) : string :=
  match eventName with
  | EmptyString => EmptyString
  | String c rest =>
      if needs_escape c then String "\" (String c (escapeRegexpCharacters rest))
      else String c (escapeRegexpCharacters rest)
  end.

(** [None] is the [TypeError] of calling [.replace] on a value that has no
    such method; a String object has the method of strings. *)
Definition createSubscriptionKey (eventName : value) : option string :=
  match eventName with
  | VRegExp r => Some (re_toString r)
  | VString s | VStringObject s => Some (escapeRegexpCharacters s)
  | _ => None
  end.

(** [None] is an exception raised by [escapeRegexpCharacters] or by
    [new RegExp]. *)
Definition createSubscriptionPattern (eventName : value) : option RegExp :=
  match eventName with
  | VRegExp r => Some r
  | VString s | VStringObject s =>
      RegExp_new ("^" ++ escapeRegexpCharacters s ++ "$")%string
  | _ => None
  end.

Definition isValidEventName (eventName : value) : bool :=
  isString eventName || isRegExp eventName.

(** The terms a literal topic compiles to: one literal atom per character. *)
Definition literal_terms (s : string) : list term :=
  map (fun c => Atom (Lit c) One) (list_ascii_of_string s).

(** The pattern [subscribe] builds for the literal topic [s]. *)
Definition literal_pattern (s : string) : RegExp :=
  RegExpNew ("^" ++ escapeRegexpCharacters s ++ "$")%string
    (Bol :: literal_terms s ++ [Eol]).

(* ================================================================== *)
(** ** Identity of functions and tokens *)

Definition scope_eq_dec (a b : scope) : {a = b} + {a <> b}.
Proof. decide equality. apply Nat.eq_dec. Defined.

Fixpoint fn_eq_dec (a b : fn) : {a = b} + {a <> b}.
Proof.
  decide equality; auto using Nat.eq_dec, bool_dec, string_dec, scope_eq_dec.
Defined.

(** A subscription token: the closure of [createSubscriptionToken], with
    the variables it captures. *)
Record token : Type := {
  tok_id : nat;
  tok_scope : scope;
  tok_key : string;
  tok_callback : fn
}.

Definition fn_of_token (t : token) : fn :=
  TokenFn (tok_id t) (tok_scope t) (tok_key t) (tok_callback t).

Definition token_of_fn (f : fn) : option token :=
  match f with
  | TokenFn id sc key cb =>
      Some {| tok_id := id; tok_scope := sc; tok_key := key; tok_callback := cb |}
  | _ => None
  end.

Definition token_eq_dec (a b : token) : {a = b} + {a <> b}.
Proof.
  decide equality; auto using Nat.eq_dec, string_dec, scope_eq_dec, fn_eq_dec.
Defined.

(** Keys handed to the scope store: a scope, or (by [store.delete(tokens)])
    a Set of tokens. *)
Inductive storeKey : Type :=
| KScope (sc : scope)
| KTokens (tokens : list token).

Definition storeKey_eq_dec (a b : storeKey) : {a = b} + {a <> b}.
Proof.
  decide equality; [apply scope_eq_dec | apply (list_eq_dec token_eq_dec)].
Defined.

(* ================================================================== *)
(** ** JavaScript Map and Set, in insertion order *)

Section JsMap.
Context {K V : Type} (eq_dec : forall a b : K, {a = b} + {a <> b}).

Fixpoint map_get (k : K) (m : list (K * V)) : option V :=
  match m with
  | [] => None
  | (k', v) :: rest => if eq_dec k k' then Some v else map_get k rest
  end.

Definition map_has (k : K) (m : list (K * V)) : bool :=
  match map_get k m with Some _ => true | None => false end.

(** [map.set]: an existing key keeps its position, a new one goes last. *)
Fixpoint map_set (k : K) (v : V) (m : list (K * V)) : list (K * V) :=
  match m with
  | [] => [(k, v)]
  | (k', v') :: rest =>
      if eq_dec k k' then (k, v) :: rest else (k', v') :: map_set k v rest
  end.

Definition map_delete (k : K) (m : list (K * V)) : list (K * V) :=
  filter (fun kv => if eq_dec k (fst kv) then false else true) m.

Definition getOrCreateMapElement (m : list (K * V)) (key : K) (factory : V)
  : V * list (K * V) :=
  match map_get key m with
  | Some elem => (elem, m)
  | None => (factory, map_set key factory m)
  end.
End JsMap.

Section JsSet.
Context {A : Type} (eq_dec : forall a b : A, {a = b} + {a <> b}).

Definition set_has (x : A) (s : list A) : bool :=
  if in_dec eq_dec x s then true else false.

Definition set_add (x : A) (s : list A) : list A :=
  if in_dec eq_dec x s then s else s ++ [x].

Definition set_delete (x : A) (s : list A) : list A :=
  filter (fun y => if eq_dec x y then false else true) s.
End JsSet.

Definition size {A : Type} (l : list A) : nat := List.length l.

(* ================================================================== *)
(** ** The four stores of [pubsubFactory] *)

Record SubscriptionObject : Type := {
  subscriptionPattern : RegExp;
  callbacks : list (token * fn)
}.

Record engine : Type := {
  subscriptions : list (string * SubscriptionObject);
  subscriptionTokens : list token;
  callbackSubscriptionTokens : list (fn * list (string * list token));
  scopeSubscriptionTokens : list (storeKey * list token)
}.

Definition empty_engine : engine :=
  {| subscriptions := [];
     subscriptionTokens := [];
     callbackSubscriptionTokens := [];
     scopeSubscriptionTokens := [] |}.

(** [subscriptions.add]: the entry is fetched or created, then its
    [callbacks] map is updated in place. *)
Definition subscriptions_add (subscriptionKey : string) (pattern : RegExp)
    (subscriptionToken : token) (callback : fn)
    (store : list (string * SubscriptionObject)) : list (string * SubscriptionObject) :=
  let (subscription, store1) :=
    getOrCreateMapElement string_dec store subscriptionKey
      {| subscriptionPattern := pattern; callbacks := [] |} in
  map_set string_dec subscriptionKey
    {| subscriptionPattern := subscriptionPattern subscription;
       callbacks := map_set token_eq_dec subscriptionToken callback (callbacks subscription) |}
    store1.

Definition subscriptions_delete (subscriptionKey : string) (subscriptionToken : token)
    (store : list (string * SubscriptionObject)) : list (string * SubscriptionObject) :=
  match map_get string_dec subscriptionKey store with
  | Some subscription =>
      let callbacks1 := map_delete token_eq_dec subscriptionToken (callbacks subscription) in
      if Nat.eqb (size callbacks1) 0 then map_delete string_dec subscriptionKey store
      else map_set string_dec subscriptionKey
             {| subscriptionPattern := subscriptionPattern subscription;
                callbacks := callbacks1 |} store
  | None => store
  end.

(** [callbackSubscriptionTokens.add] *)
Definition callbackTokens_add (callback : fn) (subscriptionKey : string)
    (subscriptionToken : token) (store : list (fn * list (string * list token)))
  : list (fn * list (string * list token)) :=
  let (callbackSubscriptions, store1) :=
    getOrCreateMapElement fn_eq_dec store callback [] in
  let (callbackTokens, callbackSubscriptions1) :=
    getOrCreateMapElement string_dec callbackSubscriptions subscriptionKey [] in
  map_set fn_eq_dec callback
    (map_set string_dec subscriptionKey
       (set_add token_eq_dec subscriptionToken callbackTokens) callbackSubscriptions1)
    store1.

(** [callbackSubscriptionTokens.delete] *)
Definition callbackTokens_delete (callback : fn) (subscriptionKey : string)
    (subscriptionToken : token) (store : list (fn * list (string * list token)))
  : list (fn * list (string * list token)) :=
  match map_get fn_eq_dec callback store with
  | Some callbackSubscriptions =>
      let callbackSubscriptions1 :=
        match map_get string_dec subscriptionKey callbackSubscriptions with
        | Some callbackTokens =>
            let callbackTokens1 := set_delete token_eq_dec subscriptionToken callbackTokens in
            if Nat.eqb (size callbackTokens1) 0
            then map_delete string_dec subscriptionKey callbackSubscriptions
            else map_set string_dec subscriptionKey callbackTokens1 callbackSubscriptions
        | None => callbackSubscriptions
        end in
      if Nat.eqb (size callbackSubscriptions1) 0 then map_delete fn_eq_dec callback store
      else map_set fn_eq_dec callback callbackSubscriptions1 store
  | None => store
  end.

(** [scopeSubscriptionTokens.add] *)
Definition scopeTokens_add (sc : scope) (subscriptionToken : token)
    (store : list (storeKey * list token)) : list (storeKey * list token) :=
  let (tokens, store1) := getOrCreateMapElement storeKey_eq_dec store (KScope sc) [] in
  map_set storeKey_eq_dec (KScope sc) (set_add token_eq_dec subscriptionToken tokens) store1.

(** [scopeSubscriptionTokens.delete]: when the scope's set becomes empty
    the source calls [store.delete(tokens)], with the Set as the key. *)
Definition scopeTokens_delete (sc : scope) (subscriptionToken : token)
    (store : list (storeKey * list token)) : list (storeKey * list token) :=
  match map_get storeKey_eq_dec (KScope sc) store with
  | Some tokens =>
      let tokens1 := set_delete token_eq_dec subscriptionToken tokens in
      let store1 := map_set storeKey_eq_dec (KScope sc) tokens1 store in
      if Nat.eqb (size tokens1) 0 then map_delete storeKey_eq_dec (KTokens tokens1) store1
      else store1
  | None => store
  end.

(* ================================================================== *)
(** ** Tokens and unsubscription *)

Definition createSubscriptionToken (id : nat) (sc : scope) (subscriptionKey : string)
    (callback : fn) : token :=
  {| tok_id := id; tok_scope := sc; tok_key := subscriptionKey; tok_callback := callback |}.

(** The body of a token: [token()]. *)
Definition invoke_token (tok : token) (e : engine) : engine * bool :=
  if negb (map_has string_dec (tok_key tok) (subscriptions e)) then (e, false)
  else
    ({| subscriptions := subscriptions_delete (tok_key tok) tok (subscriptions e);
        subscriptionTokens := set_delete token_eq_dec tok (subscriptionTokens e);
        callbackSubscriptionTokens :=
          callbackTokens_delete (tok_callback tok) (tok_key tok) tok
            (callbackSubscriptionTokens e);
        scopeSubscriptionTokens :=
          scopeTokens_delete (tok_scope tok) tok (scopeSubscriptionTokens e) |},
     true).

(** [currentTokens.reduce((result, token) => token() || result, false)] *)
Definition invoke_all (currentTokens : list token) (e : engine) : engine * bool :=
  fold_left
    (fun acc tok => let (e1, r) := invoke_token tok (fst acc) in (e1, r || snd acc))
    currentTokens (e, false).

Definition getCallbacksForEventName (eventName : string) (e : engine) : list fn :=
  flat_map
    (fun entry =>
       if re_test (subscriptionPattern (snd entry)) eventName
       then map snd (callbacks (snd entry))
       else [])
    (subscriptions e).

(** The stores after the [forEach] of [getCallbacksForEventName]: every
    entry's pattern has been matched against [eventName] once. *)
Definition match_pass (eventName : string) (store : list (string * SubscriptionObject))
  : list (string * SubscriptionObject) :=
  map (fun entry =>
         (fst entry,
          {| subscriptionPattern := re_advance (subscriptionPattern (snd entry)) eventName;
             callbacks := callbacks (snd entry) |}))
      store.

Definition with_subscriptions (store : list (string * SubscriptionObject)) (e : engine)
  : engine :=
  {| subscriptions := store;
     subscriptionTokens := subscriptionTokens e;
     callbackSubscriptionTokens := callbackSubscriptionTokens e;
     scopeSubscriptionTokens := scopeSubscriptionTokens e |}.

Definition matched (eventName : string) (e : engine) : engine :=
  with_subscriptions (match_pass eventName (subscriptions e)) e.

(** A caller assigns [lastIndex] on the RegExp object it subscribed with,
    which is the object stored under [key]. *)
Definition set_lastIndex (key : string) (n : nat) (e : engine) : engine :=
  match map_get string_dec key (subscriptions e) with
  | Some subscription =>
      with_subscriptions
        (map_set string_dec key
           {| subscriptionPattern := re_set_lastIndex n (subscriptionPattern subscription);
              callbacks := callbacks subscription |}
           (subscriptions e)) e
  | None => e
  end.

(** The value [hasSubscribers] returns; with an argument it leaves the
    stores as [matched] does. *)
Definition hasSubscribers (eventName : option string) (e : engine) : bool :=
  match eventName with
  | Some name => negb (Nat.eqb (List.length (getCallbacksForEventName name e)) 0)
  | None => negb (Nat.eqb (size (subscriptions e)) 0)
  end.

Definition known_callback (callback : value) (e : engine)
  : option (list (string * list token)) :=
  match callback with
  | VFunction f => map_get fn_eq_dec f (callbackSubscriptionTokens e)
  | _ => None
  end.

Definition is_live_token (f : fn) (e : engine) : bool :=
  match token_of_fn f with
  | Some t => set_has token_eq_dec t (subscriptionTokens e)
  | None => false
  end.

(** The tokens [unsubscribe] collects, by its three addressing modes. *)
Definition unsubscribe_tokens (eventName callback : value) (e : engine) : list token :=
  match eventName with
  | VFunction f =>
      if is_live_token f e then
        match token_of_fn f with Some t => [t] | None => [] end
      else
        match known_callback eventName e with
        | Some callbackSubscriptions => flat_map snd callbackSubscriptions
        | None => []
        end
  | _ =>
      if isValidEventName eventName then
        match known_callback callback e, createSubscriptionKey eventName with
        | Some callbackSubscriptions, Some subscriptionKey =>
            match map_get string_dec subscriptionKey callbackSubscriptions with
            | Some callbackTokens => callbackTokens
            | None => []
            end
        | _, _ => []
        end
      else []
  end.

Definition unsubscribe (eventName callback : value) (e : engine) : engine * bool :=
  invoke_all (unsubscribe_tokens eventName callback e) e.

Inductive completion : Type :=
| Return (v : value)
| ThrowTypeError
| ThrowSyntaxError
| ThrowReferenceError.

Definition returning (r : engine * bool) : engine * completion :=
  (fst r, Return (VBoolean (snd r))).

Definition unsubscribeAll (sc : scope) (eventName : value) (e : engine)
  : engine * completion :=
  if negb (truthy eventName) then
    if scope_truthy sc then
      match map_get storeKey_eq_dec (KScope sc) (scopeSubscriptionTokens e) with
      | Some tokens => returning (invoke_all tokens e)
      | None => (e, ThrowTypeError)
      end
    else returning (invoke_all (subscriptionTokens e) e)
  else
    match createSubscriptionKey eventName with
    | None => (e, ThrowTypeError)
    | Some subscriptionKey =>
        match map_get string_dec subscriptionKey (subscriptions e) with
        | Some subscription =>
            let currentTokens := map fst (callbacks subscription) in
            let currentTokens :=
              if scope_truthy sc then
                match map_get storeKey_eq_dec (KScope sc) (scopeSubscriptionTokens e) with
                | Some scopeTokens =>
                    filter (fun tok => set_has token_eq_dec tok scopeTokens) currentTokens
                | None => []
                end
              else currentTokens in
            returning (invoke_all currentTokens e)
        | None => returning (invoke_all [] e)
        end
    end.

(** The body of [subscribe] once its arguments are accepted; [id] is the
    identity of the token closure being created. *)
Definition register (id : nat) (sc : scope) (subscriptionKey : string) (pattern : RegExp)
    (callback : fn) (e : engine) : engine * token :=
  let subscriptionToken := createSubscriptionToken id sc subscriptionKey callback in
  ({| subscriptions :=
        subscriptions_add subscriptionKey pattern subscriptionToken callback (subscriptions e);
      subscriptionTokens := set_add token_eq_dec subscriptionToken (subscriptionTokens e);
      callbackSubscriptionTokens :=
        callbackTokens_add callback subscriptionKey subscriptionToken
          (callbackSubscriptionTokens e);
      scopeSubscriptionTokens :=
        scopeTokens_add sc subscriptionToken (scopeSubscriptionTokens e) |},
   subscriptionToken).

(* ================================================================== *)
(** ** The engine in its host: identities, timers and observed calls *)

(** One invocation [callback(eventName, data)]. *)
Definition call_record : Type := (fn * string * value)%type.

(** A delivery function: the callbacks captured at publish time. *)
Definition delivery : Type := (list fn * string * value)%type.

(** [eng] holds the stores of the closure; [nextId] supplies identities for
    the closures and Symbols the engine allocates; [onceTokens] holds, per
    [subscribeOnce] activation, the [subscriptionToken] variable its wrapper
    closes over; [timers] is the queue of [setTimeout(f, 0)] callbacks, run
    first-in first-out; [calls] records every callback invocation. *)
Record world : Type := {
  eng : engine;
  nextId : nat;
  onceTokens : list (nat * value);
  timers : list delivery;
  calls : list call_record
}.

Definition pubsubFactory : world :=
  {| eng := empty_engine; nextId := 0; onceTokens := []; timers := []; calls := [] |}.

Definition with_eng (e : engine) (w : world) : world :=
  {| eng := e; nextId := nextId w; onceTokens := onceTokens w;
     timers := timers w; calls := calls w |}.

Definition fresh (w : world) : world :=
  {| eng := eng w; nextId := S (nextId w); onceTokens := onceTokens w;
     timers := timers w; calls := calls w |}.

Definition bind_once (id : nat) (v : value) (w : world) : world :=
  {| eng := eng w; nextId := nextId w;
     onceTokens := map_set Nat.eq_dec id v (onceTokens w);
     timers := timers w; calls := calls w |}.

Definition with_timers (q : list delivery) (w : world) : world :=
  {| eng := eng w; nextId := nextId w; onceTokens := onceTokens w;
     timers := q; calls := calls w |}.

Definition record_call (c : call_record) (w : world) : world :=
  {| eng := eng w; nextId := nextId w; onceTokens := onceTokens w;
     timers := timers w; calls := calls w ++ [c] |}.

(** [f(eventName, data)]; the boolean tells whether the call threw.  A token
    ignores its arguments; the wrapper of [subscribeOnce] runs
    [unsubscribe(subscriptionToken)] and then [callback(...args)]. *)
Fixpoint call (f : fn) (eventName : string) (data : value) (w : world) : world * bool :=
  let w0 := record_call (f, eventName, data) w in
  match f with
  | UserFn _ throws => (w0, throws)
  | TokenFn id sc key cb =>
      (with_eng (fst (invoke_token (createSubscriptionToken id sc key cb) (eng w0))) w0, false)
  | OnceFn id cb =>
      match map_get Nat.eq_dec id (onceTokens w0) with
      | Some subscriptionToken =>
          call cb eventName data
            (with_eng (fst (unsubscribe subscriptionToken VUndefined (eng w0))) w0)
      | None => (w0, true)
      end
  end.

(** [createDeliveryFunction(callbacks, eventName, data)()]: each call sits
    in its own [try/catch], so the thrown flag is dropped. *)
Definition deliver (d : delivery) (w : world) : world :=
  let '(callbacks, eventName, data) := d in
  fold_left (fun w1 callback => fst (call callback eventName data w1)) callbacks w.

Definition setTimeout (d : delivery) (w : world) : world :=
  with_timers (timers w ++ [d]) w.

(** The host runs the oldest pending timer. *)
Definition runTimer (w : world) : world :=
  match timers w with
  | [] => w
  | d :: rest => deliver d (with_timers rest w)
  end.

Definition publish (eventName : string) (data : value) (sync : bool) (w : world)
  : world * bool :=
  let callbacks := getCallbacksForEventName eventName (eng w) in
  let w1 := with_eng (matched eventName (eng w)) w in
  if Nat.eqb (List.length callbacks) 0 then (w1, false)
  else if sync then (deliver (callbacks, eventName, data) w1, true)
  else (setTimeout (callbacks, eventName, data) w1, true).

Definition subscribe (sc : scope) (eventName callback : value) (w : world)
  : world * completion :=
  if negb (isFunction callback) || negb (isValidEventName eventName) then (w, Return VNull)
  else
    match callback with
    | VFunction cb =>
        match createSubscriptionKey eventName with
        | None => (w, ThrowTypeError)
        | Some subscriptionKey =>
            match createSubscriptionPattern eventName with
            | None => (w, ThrowSyntaxError)
            | Some pattern =>
                let (e1, subscriptionToken) :=
                  register (nextId w) sc subscriptionKey pattern cb (eng w) in
                (fresh (with_eng e1 w), Return (VFunction (fn_of_token subscriptionToken)))
            end
        end
    | _ => (w, Return VNull)
    end.

Definition subscribeOnce (sc : scope) (eventName callback : value) (w : world)
  : world * completion :=
  if negb (isFunction callback) then (w, Return VNull)
  else
    match callback with
    | VFunction cb =>
        let wrapper := OnceFn (nextId w) cb in
        let (w1, r) := subscribe sc eventName (VFunction wrapper) (fresh w) in
        match r with
        | Return subscriptionToken => (bind_once (nextId w) subscriptionToken w1, r)
        | _ => (w1, r)
        end
    | _ => (w, Return VNull)
    end.

(** [isolate()]: the facade is the API partially applied to a fresh Symbol. *)
Definition isolate (w : world) : world * scope :=
  (fresh w, ScopeSymbol (nextId w)).

(** The stores, as compared by the claims about unchanged state. *)
Definition stores (w : world) : engine := eng w.

(* ================================================================== *)
(** ** Reachable states *)

Inductive op : Type :=
| Isolate
| Subscribe (sc : scope) (eventName callback : value)
| SubscribeOnce (sc : scope) (eventName callback : value)
| Publish (eventName : string) (data : value) (sync : bool)
| Unsubscribe (eventName callback : value)
| UnsubscribeAll (sc : scope) (eventName : value)
| InvokeToken (tok : token)
| RunTimer
| HasSubscribers (eventName : option string)
| SetLastIndex (key : string) (n : nat).

Definition exec (o : op) (w : world) : world :=
  match o with
  | Isolate => fst (isolate w)
  | Subscribe sc eventName callback => fst (subscribe sc eventName callback w)
  | SubscribeOnce sc eventName callback => fst (subscribeOnce sc eventName callback w)
  | Publish eventName data sync => fst (publish eventName data sync w)
  | Unsubscribe eventName callback => with_eng (fst (unsubscribe eventName callback (eng w))) w
  | UnsubscribeAll sc eventName => with_eng (fst (unsubscribeAll sc eventName (eng w))) w
  | InvokeToken tok => with_eng (fst (invoke_token tok (eng w))) w
  | RunTimer => runTimer w
  | HasSubscribers (Some eventName) => with_eng (matched eventName (eng w)) w
  | HasSubscribers None => w
  | SetLastIndex key n => with_eng (set_lastIndex key n (eng w)) w
  end.

Definition run (ops : list op) (w : world) : world :=
  fold_left (fun w1 o => exec o w1) ops w.

Inductive reachable : world -> Prop :=
| reachable_init : reachable pubsubFactory
| reachable_step (o : op) (w : world) : reachable w -> reachable (exec o w).

(* ================================================================== *)
(** ** Observations *)

(** How many recorded invocations are calls of [f]. *)
Definition invocations_of (f : fn) (log : list call_record) : nat :=
  List.length (filter (fun c => if fn_eq_dec (fst (fst c)) f then true else false) log).

(** The invocations one call [f(eventName, data)] gives rise to: the call
    itself and, for the wrapper of [subscribeOnce], the call of the wrapped
    callback. *)
Fixpoint invocations (bindings : list (nat * value)) (f : fn) (eventName : string)
    (data : value) : list call_record :=
  (f, eventName, data) ::
  match f with
  | OnceFn id cb =>
      match map_get Nat.eq_dec id bindings with
      | Some _ => invocations bindings cb eventName data
      | None => []
      end
  | _ => []
  end.

(** [tok] is stored under [key] with callback [cb] in the registry. *)
Definition registered_in (store : list (string * SubscriptionObject))
    (key : string) (tok : token) (cb : fn) : Prop :=
  exists sub,
    map_get string_dec key store = Some sub /\
    map_get token_eq_dec tok (callbacks sub) = Some cb.

(** [tok] is recorded under [(cb, key)] in the callback index. *)
Definition indexed_in (store : list (fn * list (string * list token)))
    (cb : fn) (key : string) (tok : token) : Prop :=
  exists inner toks,
    map_get fn_eq_dec cb store = Some inner /\
    map_get string_dec key inner = Some toks /\
    In tok toks.

(** [tok] is recorded under [sc] in the scope index. *)
Definition scoped_in (store : list (storeKey * list token)) (sc : scope) (tok : token) : Prop :=
  exists toks,
    map_get storeKey_eq_dec (KScope sc) store = Some toks /\ In tok toks.

Definition registered (e : engine) := registered_in (subscriptions e).
Definition indexed (e : engine) := indexed_in (callbackSubscriptionTokens e).
Definition scoped (e : engine) := scoped_in (scopeSubscriptionTokens e).

(** [pattern] is fit to be stored under [key]: if [key] is the key of a
    literal topic, [pattern] is the pattern built for that topic. *)
Definition literal_pattern_ok (key : string) (pattern : RegExp) : Prop :=
  forall s, key = escapeRegexpCharacters s -> pattern = literal_pattern s.

(** The consistency of the four stores: Maps have unique keys, no registry
    entry and no callback-index entry is empty, every token sits under the
    key, callback and scope it was created with, the registry and the three
    indexes hold the same tokens, and the entry of a literal topic holds the
    pattern built for it. *)
Record consistent (e : engine) : Prop := {
  keys_unique : NoDup (map fst (subscriptions e));
  tokens_unique :
    forall key sub, In (key, sub) (subscriptions e) -> NoDup (map fst (callbacks sub));
  entries_nonempty :
    forall key sub, In (key, sub) (subscriptions e) -> callbacks sub <> [];
  registered_env :
    forall key tok cb, registered e key tok cb -> tok_key tok = key /\ tok_callback tok = cb;
  registered_live :
    forall key tok cb, registered e key tok cb -> In tok (subscriptionTokens e);
  live_registered :
    forall tok, In tok (subscriptionTokens e) ->
                registered e (tok_key tok) tok (tok_callback tok);
  registered_indexed :
    forall key tok cb, registered e key tok cb -> indexed e cb key tok;
  indexed_registered :
    forall cb key tok, indexed e cb key tok -> registered e key tok cb;
  index_keys_unique :
    forall cb inner, map_get fn_eq_dec cb (callbackSubscriptionTokens e) = Some inner ->
                     NoDup (map fst inner);
  index_nonempty :
    forall cb inner, map_get fn_eq_dec cb (callbackSubscriptionTokens e) = Some inner ->
                     inner <> [] /\ forall key toks, In (key, toks) inner -> toks <> [];
  registered_scoped :
    forall key tok cb, registered e key tok cb -> scoped e (tok_scope tok) tok;
  scoped_registered :
    forall sc tok, scoped e sc tok ->
                   tok_scope tok = sc /\ registered e (tok_key tok) tok (tok_callback tok);
  literal_entries :
    forall key sub, map_get string_dec key (subscriptions e) = Some sub ->
                    literal_pattern_ok key (subscriptionPattern sub)
}.

(** Tokens are invoked one after the other; the engine after the last. *)
Definition invoke_each (tokens : list token) (e : engine) : engine :=
  fold_left (fun e1 tok => fst (invoke_token tok e1)) tokens e.

(** The inner map of one callback after a token is forgotten. *)
Definition forget_in (key : string) (tok : token) (inner : list (string * list token))
  : list (string * list token) :=
  match map_get string_dec key inner with
  | Some callbackTokens =>
      if Nat.eqb (size (set_delete token_eq_dec tok callbackTokens)) 0
      then map_delete string_dec key inner
      else map_set string_dec key (set_delete token_eq_dec tok callbackTokens) inner
  | None => inner
  end.

(** What a store holds under a key, with the default of
    [getOrCreateMapElement] when the key is absent. *)
Definition entry_callbacks (key : string) (store : list (string * SubscriptionObject))
  : list (token * fn) :=
  match map_get string_dec key store with
  | Some sub => callbacks sub
  | None => []
  end.

Definition entry_pattern (key : string) (pattern : RegExp)
    (store : list (string * SubscriptionObject)) : RegExp :=
  match map_get string_dec key store with
  | Some sub => subscriptionPattern sub
  | None => pattern
  end.

Definition index_tokens (cb : fn) (key : string)
    (store : list (fn * list (string * list token))) : list token :=
  match map_get fn_eq_dec cb store with
  | Some inner =>
      match map_get string_dec key inner with Some toks => toks | None => [] end
  | None => []
  end.

Definition index_inner (cb : fn) (store : list (fn * list (string * list token)))
  : list (string * list token) :=
  match map_get fn_eq_dec cb store with Some inner => inner | None => [] end.

Definition scope_tokens (sc : scope) (store : list (storeKey * list token)) : list token :=
  match map_get storeKey_eq_dec (KScope sc) store with Some toks => toks | None => [] end.

(** [e'] differs from [e] only by the removal of tokens among [ts]. *)
Record removes_only (ts : list token) (e e' : engine) : Prop := {
  ro_registered_old :
    forall key tok cb, registered e' key tok cb -> registered e key tok cb;
  ro_registered_kept :
    forall key tok cb, ~ In tok ts -> registered e key tok cb -> registered e' key tok cb;
  ro_live_old :
    forall tok, In tok (subscriptionTokens e') -> In tok (subscriptionTokens e);
  ro_live_kept :
    forall tok, ~ In tok ts -> In tok (subscriptionTokens e) ->
                In tok (subscriptionTokens e');
  ro_index_kept :
    forall g, (forall t, In t ts -> tok_callback t <> g) ->
              map_get fn_eq_dec g (callbackSubscriptionTokens e') =
              map_get fn_eq_dec g (callbackSubscriptionTokens e);
  ro_scoped_old :
    forall sc tok, scoped e' sc tok -> scoped e sc tok;
  ro_scoped_kept :
    forall sc tok, ~ In tok ts -> scoped e sc tok -> scoped e' sc tok
}.

(* ================================================================== *)
(** ** Further observations *)

(** Every live token was created before the next identity to be drawn. *)
Definition ids_below (w : world) : Prop :=
  forall tok, In tok (subscriptionTokens (eng w)) -> tok_id tok < nextId w.

(** The scope store is keyed by scopes only. *)
Definition scope_keys_ok (e : engine) : Prop :=
  forall k toks, In (k, toks) (scopeSubscriptionTokens e) -> exists sc, k = KScope sc.

(** The operations that only remove subscriptions. *)
Definition removal_op (o : op) : bool :=
  match o with
  | Unsubscribe _ _ | UnsubscribeAll _ _ | InvokeToken _ => true
  | _ => false
  end.

Definition raises (c : completion) : bool :=
  match c with Return _ => false | _ => true end.

(** The tokens [unsubscribeAll] collects when it is given a topic whose key
    is [key]. *)
Definition topic_tokens (sc : scope) (key : string) (e : engine) : list token :=
  match map_get string_dec key (subscriptions e) with
  | Some subscription =>
      if scope_truthy sc then
        match map_get storeKey_eq_dec (KScope sc) (scopeSubscriptionTokens e) with
        | Some scopeTokens =>
            filter (fun tok => set_has token_eq_dec tok scopeTokens)
              (map fst (callbacks subscription))
        | None => []
        end
      else map fst (callbacks subscription)
  | None => []
  end.

(* ================================================================== *)
(** ** Properties of the topic matcher *)

Lemma needs_escape_not_alnum c : needs_escape c = true -> is_alnum c = false.
Proof.
  unfold needs_escape, escaped_characters. simpl.
  rewrite !orb_true_iff. rewrite !Ascii.eqb_eq.
  intros H. repeat (destruct H as [H | H]; [subst c; reflexivity |]). discriminate.
Qed.

Lemma flush_Some p l :
  flush p (Some l) = Some (match p with Some a => Atom a One :: l | None => l end).
Proof. destruct p; reflexivity. Qed.

Lemma parse_literal c p rest :
  needs_escape c = false ->
  parse p (String c rest) = flush p (parse (Some (Lit c)) rest).
Proof.
  unfold needs_escape, escaped_characters. simpl.
  rewrite !orb_false_iff. intros H.
  repeat match goal with H : _ /\ _ |- _ => destruct H end.
  repeat match goal with H : Ascii.eqb _ _ = false |- _ => rewrite H; clear H end.
  reflexivity.
Qed.

Lemma parse_escaped c p rest :
  needs_escape c = true ->
  parse p (String "\" (String c rest)) = flush p (parse (Some (Lit c)) rest).
Proof.
  intros H. cbn [parse]. rewrite (needs_escape_not_alnum c H). reflexivity.
Qed.

Lemma parse_escapeRegexpCharacters s : forall p,
  parse p (escapeRegexpCharacters s ++ "$")%string =
  Some (match p with Some a => [Atom a One] | None => [] end ++ literal_terms s ++ [Eol]).
Proof.
  induction s as [| c s IH]; intros p.
  - destruct p; reflexivity.
  - cbn [escapeRegexpCharacters]. destruct (needs_escape c) eqn:E.
    + cbn [append]. rewrite (parse_escaped c p _ E), IH, flush_Some.
      destruct p; reflexivity.
    + cbn [append]. rewrite (parse_literal c p _ E), IH, flush_Some.
      destruct p; reflexivity.
Qed.

Lemma match_literal_terms s : forall b t,
  match_here (literal_terms s ++ [Eol]) b t = true <-> t = s.
Proof.
  induction s as [| c s IH]; intros b t.
  - destruct t; simpl; split; congruence.
  - unfold literal_terms. cbn [list_ascii_of_string map app match_here].
    destruct t as [| d t].
    + split; congruence.
    + fold (literal_terms s). cbn [atom_matches]. rewrite andb_true_iff, Ascii.eqb_eq, IH.
      split; [intros [-> ->]; reflexivity | intros [= -> ->]; auto].
Qed.

Lemma search_Bol_inside ts t : search (Bol :: ts) false t = false.
Proof. induction t as [| c t IH]; cbn [search match_here andb orb]; auto. Qed.

Lemma search_anchored ts t : search (Bol :: ts) true t = match_here ts true t.
Proof.
  destruct t as [| c t]; cbn [search match_here andb].
  - apply orb_false_r.
  - rewrite search_Bol_inside. apply orb_false_r.
Qed.

Lemma createSubscriptionPattern_string s :
  createSubscriptionPattern (VString s) =
  Some (RegExpNew ("^" ++ escapeRegexpCharacters s ++ "$")%string
          (Bol :: literal_terms s ++ [Eol])).
Proof.
  unfold createSubscriptionPattern, RegExp_new.
  change ("^" ++ escapeRegexpCharacters s ++ "$")%string
    with (String "^" (escapeRegexpCharacters s ++ "$")%string).
  change (parse None (String "^" (escapeRegexpCharacters s ++ "$")%string))
    with (option_map (cons Bol) (parse None (escapeRegexpCharacters s ++ "$")%string)).
  rewrite parse_escapeRegexpCharacters. reflexivity.
Qed.

Lemma literal_pattern_test s t :
  re_test (RegExpNew ("^" ++ escapeRegexpCharacters s ++ "$")%string
             (Bol :: literal_terms s ++ [Eol])) t = true <-> t = s.
Proof. unfold re_test. rewrite search_anchored. apply match_literal_terms. Qed.

Lemma literal_pattern_matches s t : re_test (literal_pattern s) t = true <-> t = s.
Proof. apply literal_pattern_test. Qed.

(* ================================================================== *)
(** ** Facts about Maps and Sets *)

Section JsMapFacts.
Context {K V : Type} (eq_dec : forall a b : K, {a = b} + {a <> b}).
Implicit Types (k : K) (v : V) (m : list (K * V)).

Lemma map_get_In k v m : map_get eq_dec k m = Some v -> In (k, v) m.
Proof.
  induction m as [| [k' v'] m IH]; simpl; [discriminate |].
  destruct (eq_dec k k') as [-> | _]; [intros [= ->]; auto | auto].
Qed.

Lemma map_get_set_same k v m : map_get eq_dec k (map_set eq_dec k v m) = Some v.
Proof.
  induction m as [| [k' v'] m IH]; simpl.
  - destruct (eq_dec k k); congruence.
  - destruct (eq_dec k k') as [E | N]; simpl.
    + destruct (eq_dec k k); congruence.
    + destruct (eq_dec k k'); congruence.
Qed.

Lemma map_get_set_other k k' v m :
  k' <> k -> map_get eq_dec k' (map_set eq_dec k v m) = map_get eq_dec k' m.
Proof.
  intros N. induction m as [| [k0 v0] m IH]; simpl.
  - destruct (eq_dec k' k); congruence.
  - destruct (eq_dec k k0) as [-> | N0]; simpl.
    + destruct (eq_dec k' k0); congruence.
    + destruct (eq_dec k' k0); congruence.
Qed.

Lemma map_get_delete_same k m : map_get eq_dec k (map_delete eq_dec k m) = None.
Proof.
  induction m as [| [k' v'] m IH]; simpl; auto.
  destruct (eq_dec k k') as [E | N]; simpl; auto.
  destruct (eq_dec k k'); congruence.
Qed.

Lemma map_get_delete_other k k' m :
  k' <> k -> map_get eq_dec k' (map_delete eq_dec k m) = map_get eq_dec k' m.
Proof.
  intros N. induction m as [| [k0 v0] m IH]; simpl; auto.
  destruct (eq_dec k k0) as [<- | N0]; simpl.
  - destruct (eq_dec k' k); congruence.
  - destruct (eq_dec k' k0); congruence.
Qed.

Lemma map_set_id k v m : map_get eq_dec k m = Some v -> map_set eq_dec k v m = m.
Proof.
  induction m as [| [k' v'] m IH]; simpl; [discriminate |].
  destruct (eq_dec k k') as [-> | N]; [intros [= ->]; reflexivity |].
  intros H. rewrite IH; auto.
Qed.

Lemma map_delete_id k m : map_get eq_dec k m = None -> map_delete eq_dec k m = m.
Proof.
  induction m as [| [k' v'] m IH]; simpl; auto.
  destruct (eq_dec k k') as [-> | N]; [discriminate |].
  intros H. rewrite IH; auto.
Qed.

Lemma map_delete_idem k m :
  map_delete eq_dec k (map_delete eq_dec k m) = map_delete eq_dec k m.
Proof. apply map_delete_id, map_get_delete_same. Qed.

Lemma map_set_set k v v' m :
  map_set eq_dec k v (map_set eq_dec k v' m) = map_set eq_dec k v m.
Proof.
  induction m as [| [k0 v0] m IH]; simpl.
  - destruct (eq_dec k k); congruence.
  - destruct (eq_dec k k0) as [E | N]; simpl.
    + destruct (eq_dec k k); congruence.
    + destruct (eq_dec k k0); congruence.
Qed.

Lemma map_has_get k m :
  map_has eq_dec k m = true <-> exists v, map_get eq_dec k m = Some v.
Proof.
  unfold map_has. destruct (map_get eq_dec k m) as [v |].
  - split; eauto.
  - split; [discriminate | intros [v H]; discriminate].
Qed.

Lemma map_has_false k m : map_has eq_dec k m = false <-> map_get eq_dec k m = None.
Proof. unfold map_has. destruct (map_get eq_dec k m); split; congruence. Qed.

Lemma In_map_set k v k' v' m :
  In (k', v') (map_set eq_dec k v m) -> (k' = k /\ v' = v) \/ In (k', v') m.
Proof.
  induction m as [| [k0 v0] m IH]; simpl.
  - intros [[= <- <-] | []]; auto.
  - destruct (eq_dec k k0) as [-> | N]; simpl.
    + intros [[= <- <-] | H]; auto.
    + intros [H | H]; auto. destruct (IH H); auto.
Qed.

Lemma In_map_delete k k' v' m :
  In (k', v') (map_delete eq_dec k m) <-> k' <> k /\ In (k', v') m.
Proof.
  unfold map_delete. rewrite filter_In. simpl.
  destruct (eq_dec k k') as [-> | N]; split.
  - intros [_ H]; discriminate.
  - intros [H _]; congruence.
  - intros [H _]; split; auto.
  - intros [_ H]; auto.
Qed.

Lemma keys_map_delete k m :
  map fst (map_delete eq_dec k m) =
  filter (fun x => if eq_dec k x then false else true) (map fst m).
Proof.
  induction m as [| [k0 v0] m IH]; simpl; auto.
  destruct (eq_dec k k0); simpl; congruence.
Qed.

Lemma NoDup_keys_delete k m :
  NoDup (map fst m) -> NoDup (map fst (map_delete eq_dec k m)).
Proof. intros H. rewrite keys_map_delete. apply NoDup_filter, H. Qed.

Lemma In_keys_get k m : In k (map fst m) <-> exists v, map_get eq_dec k m = Some v.
Proof.
  induction m as [| [k0 v0] m IH]; simpl.
  - split; [tauto | intros [v H]; discriminate].
  - destruct (eq_dec k k0) as [-> | N].
    + split; eauto.
    + rewrite <- IH. split; [intros [E | H]; [congruence | auto] | auto].
Qed.

Lemma keys_map_set_present k v m :
  In k (map fst m) -> map fst (map_set eq_dec k v m) = map fst m.
Proof.
  induction m as [| [k0 v0] m IH]; simpl; [tauto |].
  destruct (eq_dec k k0) as [-> | N]; simpl; auto.
  intros [E | H]; [congruence | rewrite IH; auto].
Qed.

Lemma keys_map_set_absent k v m :
  ~ In k (map fst m) -> map fst (map_set eq_dec k v m) = map fst m ++ [k].
Proof.
  induction m as [| [k0 v0] m IH]; simpl; auto.
  destruct (eq_dec k k0) as [-> | N]; simpl; [tauto |].
  intros H. rewrite IH; auto.
Qed.

Lemma NoDup_keys_set k v m :
  NoDup (map fst m) -> NoDup (map fst (map_set eq_dec k v m)).
Proof.
  intros H. destruct (in_dec eq_dec k (map fst m)) as [I | I].
  - rewrite keys_map_set_present; auto.
  - rewrite keys_map_set_absent; auto.
    apply NoDup_app; [auto | repeat constructor; simpl; tauto |].
    intros x Hx [<- | []]. contradiction.
Qed.

Lemma In_get_NoDup k v m : NoDup (map fst m) -> In (k, v) m -> map_get eq_dec k m = Some v.
Proof.
  induction m as [| [k0 v0] m IH]; simpl; [tauto |].
  intros ND [[= -> ->] | H].
  - destruct (eq_dec k k); congruence.
  - inversion ND as [| ? ? Hn ND']; subst.
    destruct (eq_dec k k0) as [-> | N]; auto.
    exfalso. apply Hn. apply (in_map fst) in H. exact H.
Qed.

Lemma map_set_nonempty k v m : map_set eq_dec k v m <> [].
Proof. destruct m as [| [k0 v0] m]; simpl; [| destruct (eq_dec k k0)]; discriminate. Qed.
End JsMapFacts.

Section JsSetFacts.
Context {A : Type} (eq_dec : forall a b : A, {a = b} + {a <> b}).
Implicit Types (x y : A) (s : list A).

Lemma set_has_In x s : set_has eq_dec x s = true <-> In x s.
Proof. unfold set_has. destruct (in_dec eq_dec x s); split; auto; discriminate. Qed.

Lemma In_set_add x y s : In x (set_add eq_dec y s) <-> x = y \/ In x s.
Proof.
  unfold set_add. destruct (in_dec eq_dec y s) as [I | I].
  - split; [auto | intros [-> | H]; auto].
  - rewrite in_app_iff. simpl. split; [intros [H | [H | []]]; auto | intros [H | H]; auto].
Qed.

Lemma In_set_delete x y s : In x (set_delete eq_dec y s) <-> x <> y /\ In x s.
Proof.
  unfold set_delete. rewrite filter_In.
  destruct (eq_dec y x) as [-> | N]; split.
  - intros [_ H]; discriminate.
  - intros [H _]; congruence.
  - intros [H _]; split; auto.
  - intros [_ H]; auto.
Qed.

Lemma set_delete_idem x s :
  set_delete eq_dec x (set_delete eq_dec x s) = set_delete eq_dec x s.
Proof.
  unfold set_delete. induction s as [| y s IH]; simpl; auto.
  destruct (eq_dec x y) eqn:E; simpl; auto. rewrite E, IH. reflexivity.
Qed.

Lemma set_add_nonempty x s : set_add eq_dec x s <> [].
Proof.
  unfold set_add. destruct (in_dec eq_dec x s) as [I | I].
  - destruct s; [destruct I | discriminate].
  - destruct s; discriminate.
Qed.
End JsSetFacts.

Lemma size_zero {A : Type} (l : list A) : Nat.eqb (size l) 0 = true <-> l = [].
Proof. destruct l; simpl; split; congruence. Qed.

(* ================================================================== *)
(** ** What removing a token does to each store *)

Lemma subscriptions_delete_get_other key tok k store :
  k <> key ->
  map_get string_dec k (subscriptions_delete key tok store) = map_get string_dec k store.
Proof.
  intros N. unfold subscriptions_delete.
  destruct (map_get string_dec key store) as [sub |]; auto.
  destruct (Nat.eqb _ 0).
  - apply map_get_delete_other, N.
  - apply map_get_set_other, N.
Qed.

Lemma subscriptions_delete_get_same key tok store sub :
  map_get string_dec key store = Some sub ->
  map_get string_dec key (subscriptions_delete key tok store) =
  if Nat.eqb (size (map_delete token_eq_dec tok (callbacks sub))) 0 then None
  else Some {| subscriptionPattern := subscriptionPattern sub;
               callbacks := map_delete token_eq_dec tok (callbacks sub) |}.
Proof.
  intros G. unfold subscriptions_delete. rewrite G.
  destruct (Nat.eqb _ 0).
  - apply map_get_delete_same.
  - apply map_get_set_same.
Qed.

Lemma get_nonempty {K V : Type} (eq_dec : forall a b : K, {a = b} + {a <> b})
    (k : K) (v : V) (m : list (K * V)) :
  map_get eq_dec k m = Some v -> Nat.eqb (size m) 0 = false.
Proof. destruct m; simpl; [discriminate | reflexivity]. Qed.

Lemma In_nonempty {A : Type} (x : A) (l : list A) : In x l -> Nat.eqb (size l) 0 = false.
Proof. destruct l; simpl; [tauto | reflexivity]. Qed.

Lemma registered_in_delete t store key tok cb :
  registered_in (subscriptions_delete (tok_key t) t store) key tok cb <->
  registered_in store key tok cb /\ ~ (tok = t /\ key = tok_key t).
Proof.
  unfold registered_in.
  destruct (string_dec key (tok_key t)) as [-> | N].
  - destruct (map_get string_dec (tok_key t) store) as [sub0 |] eqn:G.
    + rewrite (subscriptions_delete_get_same _ _ _ _ G).
      destruct (token_eq_dec tok t) as [-> | Nt].
      * split.
        -- destruct (Nat.eqb _ 0); intros (sub & E & Gt); [discriminate |].
           injection E as <-. cbn in Gt. rewrite map_get_delete_same in Gt. discriminate.
        -- intros (_ & C). exfalso. apply C. split; reflexivity.
      * split.
        -- destruct (Nat.eqb _ 0); intros (sub & E & Gt); [discriminate |].
           injection E as <-. cbn in Gt. rewrite map_get_delete_other in Gt by exact Nt.
           split; [exists sub0; auto | intros [E _]; contradiction].
        -- intros ((sub & E & Gt) & _). injection E as <-.
           assert (Gt' : map_get token_eq_dec tok (map_delete token_eq_dec t (callbacks sub0))
                         = Some cb) by (rewrite map_get_delete_other; auto).
           rewrite (get_nonempty _ _ _ _ Gt'). eexists. split; [reflexivity | exact Gt'].
    + unfold subscriptions_delete. rewrite G. rewrite G.
      split; [intros (sub & E & _); discriminate | intros ((sub & E & _) & _); discriminate].
  - rewrite subscriptions_delete_get_other by exact N.
    split; [intros H; split; [exact H | intros [_ E]; contradiction] | tauto].
Qed.

Lemma callbackTokens_delete_get_other cb key tok g store :
  g <> cb ->
  map_get fn_eq_dec g (callbackTokens_delete cb key tok store) = map_get fn_eq_dec g store.
Proof.
  intros N. unfold callbackTokens_delete.
  destruct (map_get fn_eq_dec cb store) as [inner |]; auto.
  destruct (Nat.eqb _ 0).
  - apply map_get_delete_other, N.
  - apply map_get_set_other, N.
Qed.

Lemma callbackTokens_delete_get_same cb key tok store inner :
  map_get fn_eq_dec cb store = Some inner ->
  map_get fn_eq_dec cb (callbackTokens_delete cb key tok store) =
  if Nat.eqb (size (forget_in key tok inner)) 0 then None
  else Some (forget_in key tok inner).
Proof.
  intros G. unfold callbackTokens_delete. rewrite G. fold (forget_in key tok inner).
  destruct (Nat.eqb _ 0).
  - apply map_get_delete_same.
  - apply map_get_set_same.
Qed.

Lemma forget_in_spec key t inner k tok :
  (exists toks, map_get string_dec k (forget_in key t inner) = Some toks /\ In tok toks) <->
  (exists toks, map_get string_dec k inner = Some toks /\ In tok toks) /\
  ~ (tok = t /\ k = key).
Proof.
  unfold forget_in.
  destruct (string_dec k key) as [-> | N].
  - destruct (map_get string_dec key inner) as [toks0 |] eqn:G.
    + destruct (Nat.eqb (size (set_delete token_eq_dec t toks0)) 0) eqn:Z.
      * rewrite map_get_delete_same. split.
        -- intros (toks & E & _); discriminate.
        -- intros ((toks & E & I) & C). injection E as <-.
           assert (I' : In tok (set_delete token_eq_dec t toks0)).
           { apply In_set_delete. split; [intros ->; apply C; auto | exact I]. }
           rewrite (In_nonempty _ _ I') in Z. discriminate.
      * rewrite map_get_set_same. split.
        -- intros (toks & E & I). injection E as <-. apply In_set_delete in I as [Nt I].
           split; [eauto | intros [E _]; contradiction].
        -- intros ((toks & E & I) & C). injection E as <-.
           eexists. split; [reflexivity |].
           apply In_set_delete. split; [intros ->; apply C; auto | exact I].
    + rewrite G. split; [intros (toks & E & _); discriminate
                        | intros ((toks & E & _) & _); discriminate].
  - assert (E : map_get string_dec k
                  match map_get string_dec key inner with
                  | Some callbackTokens =>
                      if Nat.eqb (size (set_delete token_eq_dec t callbackTokens)) 0
                      then map_delete string_dec key inner
                      else map_set string_dec key
                             (set_delete token_eq_dec t callbackTokens) inner
                  | None => inner
                  end = map_get string_dec k inner).
    { destruct (map_get string_dec key inner) as [toks0 |]; auto.
      destruct (Nat.eqb _ 0).
      - apply map_get_delete_other, N.
      - apply map_get_set_other, N. }
    rewrite E. split; [intros H; split; [exact H | intros [_ E']; contradiction] | tauto].
Qed.

Lemma indexed_in_delete t store cb key tok :
  indexed_in (callbackTokens_delete (tok_callback t) (tok_key t) t store) cb key tok <->
  indexed_in store cb key tok /\ ~ (tok = t /\ cb = tok_callback t /\ key = tok_key t).
Proof.
  unfold indexed_in.
  destruct (fn_eq_dec cb (tok_callback t)) as [-> | N].
  - destruct (map_get fn_eq_dec (tok_callback t) store) as [inner0 |] eqn:G.
    + rewrite (callbackTokens_delete_get_same _ _ _ _ _ G).
      pose proof (forget_in_spec (tok_key t) t inner0 key tok) as F.
      split.
      * destruct (Nat.eqb _ 0); intros (inner & toks & E & Gk & I); [discriminate |].
        injection E as <-.
        destruct F as [F _]. destruct (F (ex_intro _ toks (conj Gk I))) as ((toks' & Gk' & I') & C).
        split; [exists inner0, toks'; auto | intros (E1 & _ & E3); apply C; auto].
      * intros ((inner & toks & E & Gk & I) & C). injection E as <-.
        destruct F as [_ F].
        destruct F as (toks' & Gk' & I').
        { split; [eauto | intros [E1 E3]; apply C; auto]. }
        rewrite (get_nonempty _ _ _ _ Gk'). exists (forget_in (tok_key t) t inner0), toks'. auto.
    + unfold callbackTokens_delete. rewrite G, G.
      split; [intros (inner & toks & E & _); discriminate
             | intros ((inner & toks & E & _) & _); discriminate].
  - rewrite callbackTokens_delete_get_other by exact N.
    split; [intros H; split; [exact H | intros (_ & E & _); contradiction] | tauto].
Qed.

Lemma scopeTokens_delete_get sc tok store k :
  map_get storeKey_eq_dec (KScope k) (scopeTokens_delete sc tok store) =
  if scope_eq_dec k sc
  then option_map (set_delete token_eq_dec tok)
         (map_get storeKey_eq_dec (KScope sc) store)
  else map_get storeKey_eq_dec (KScope k) store.
Proof.
  unfold scopeTokens_delete.
  destruct (map_get storeKey_eq_dec (KScope sc) store) as [toks |] eqn:G.
  - assert (E : map_get storeKey_eq_dec (KScope k)
                  (map_set storeKey_eq_dec (KScope sc)
                     (set_delete token_eq_dec tok toks) store) =
                if scope_eq_dec k sc then Some (set_delete token_eq_dec tok toks)
                else map_get storeKey_eq_dec (KScope k) store).
    { destruct (scope_eq_dec k sc) as [-> | N].
      - apply map_get_set_same.
      - apply map_get_set_other. congruence. }
    destruct (Nat.eqb _ 0); [rewrite map_get_delete_other by discriminate |];
      rewrite E; destruct (scope_eq_dec k sc); reflexivity.
  - destruct (scope_eq_dec k sc) as [-> | N]; [rewrite G |]; reflexivity.
Qed.

Lemma scoped_in_delete t store sc tok :
  scoped_in (scopeTokens_delete (tok_scope t) t store) sc tok <->
  scoped_in store sc tok /\ ~ (tok = t /\ sc = tok_scope t).
Proof.
  unfold scoped_in. rewrite scopeTokens_delete_get.
  destruct (scope_eq_dec sc (tok_scope t)) as [-> | N].
  - destruct (map_get storeKey_eq_dec (KScope (tok_scope t)) store) as [toks0 |]; cbn.
    + split.
      * intros (toks & E & I). injection E as <-. apply In_set_delete in I as [Nt I].
        split; [eauto | intros [E _]; contradiction].
      * intros ((toks & E & I) & C). injection E as <-.
        eexists. split; [reflexivity |].
        apply In_set_delete. split; [intros ->; apply C; auto | exact I].
    + split; [intros (toks & E & _); discriminate
             | intros ((toks & E & _) & _); discriminate].
  - split; [intros H; split; [exact H | intros [_ E]; contradiction] | tauto].
Qed.

(* ================================================================== *)
(** ** What registering a token does to each store *)

Lemma subscriptions_add_eq key pat tok cb store :
  subscriptions_add key pat tok cb store =
  map_set string_dec key
    {| subscriptionPattern := entry_pattern key pat store;
       callbacks := map_set token_eq_dec tok cb (entry_callbacks key store) |} store.
Proof.
  unfold subscriptions_add, getOrCreateMapElement, entry_pattern, entry_callbacks.
  destruct (map_get string_dec key store); [reflexivity | apply map_set_set].
Qed.

Lemma registered_in_add key pat tok cb store k tok' cb' :
  registered_in (subscriptions_add key pat tok cb store) k tok' cb' <->
  (k = key /\ tok' = tok /\ cb' = cb) \/
  (registered_in store k tok' cb' /\ ~ (k = key /\ tok' = tok)).
Proof.
  rewrite subscriptions_add_eq. unfold registered_in.
  destruct (string_dec k key) as [-> | N].
  - rewrite map_get_set_same. destruct (token_eq_dec tok' tok) as [-> | Nt].
    + split.
      * intros (sub & E & G). injection E as <-. cbn in G.
        rewrite map_get_set_same in G. injection G as <-. auto.
      * intros [(_ & _ & ->) | (_ & C)]; [| exfalso; apply C; auto].
        eexists. split; [reflexivity |]. cbn. apply map_get_set_same.
    + split.
      * intros (sub & E & G). injection E as <-. cbn in G.
        rewrite map_get_set_other in G by exact Nt. right.
        unfold entry_callbacks in G.
        destruct (map_get string_dec key store) as [sub0 |]; [| discriminate].
        split; [eauto | intros [_ E]; contradiction].
      * intros [(_ & E & _) | ((sub & E & G) & _)]; [contradiction |].
        eexists. split; [reflexivity |]. cbn. rewrite map_get_set_other by exact Nt.
        unfold entry_callbacks. rewrite E. exact G.
  - rewrite map_get_set_other by exact N. split.
    + intros H. right. split; [exact H | intros [E _]; contradiction].
    + intros [(E & _) | (H & _)]; [contradiction | exact H].
Qed.

Lemma callbackTokens_add_eq cb key tok store :
  callbackTokens_add cb key tok store =
  map_set fn_eq_dec cb
    (map_set string_dec key (set_add token_eq_dec tok (index_tokens cb key store))
       (index_inner cb store)) store.
Proof.
  unfold callbackTokens_add, getOrCreateMapElement, index_tokens, index_inner.
  destruct (map_get fn_eq_dec cb store) as [inner |].
  - destruct (map_get string_dec key inner); [reflexivity |].
    rewrite map_set_set. reflexivity.
  - cbn -[map_set]. rewrite !map_set_set. reflexivity.
Qed.

Lemma indexed_in_add cb key tok store cb' k tok' :
  indexed_in (callbackTokens_add cb key tok store) cb' k tok' <->
  (cb' = cb /\ k = key /\ tok' = tok) \/ indexed_in store cb' k tok'.
Proof.
  rewrite callbackTokens_add_eq. unfold indexed_in.
  destruct (fn_eq_dec cb' cb) as [-> | N].
  - rewrite map_get_set_same. destruct (string_dec k key) as [-> | Nk].
    + split.
      * intros (inner & toks & E & G & I). injection E as <-.
        rewrite map_get_set_same in G. injection G as <-.
        apply In_set_add in I as [-> | I]; [auto |]. right.
        unfold index_tokens in I.
        destruct (map_get fn_eq_dec cb store) as [inner0 |]; [| destruct I].
        destruct (map_get string_dec key inner0) as [toks0 |] eqn:G0; [| destruct I].
        exists inner0, toks0. auto.
      * intros H. eexists. eexists. split; [reflexivity |].
        rewrite map_get_set_same. split; [reflexivity |]. apply In_set_add.
        destruct H as [(_ & _ & ->) | (inner & toks & E & G & I)]; [auto |].
        right. unfold index_tokens. rewrite E, G. exact I.
    + split.
      * intros (inner & toks & E & G & I). injection E as <-.
        rewrite map_get_set_other in G by exact Nk. right.
        unfold index_inner in G.
        destruct (map_get fn_eq_dec cb store) as [inner0 |]; [| discriminate].
        exists inner0, toks. auto.
      * intros [(_ & E & _) | (inner & toks & E & G & I)]; [contradiction |].
        eexists. exists toks. split; [reflexivity |].
        rewrite map_get_set_other by exact Nk. unfold index_inner. rewrite E. auto.
  - rewrite map_get_set_other by exact N. split.
    + intros H. right. exact H.
    + intros [(E & _) | H]; [contradiction | exact H].
Qed.

Lemma scopeTokens_add_eq sc tok store :
  scopeTokens_add sc tok store =
  map_set storeKey_eq_dec (KScope sc)
    (set_add token_eq_dec tok (scope_tokens sc store)) store.
Proof.
  unfold scopeTokens_add, getOrCreateMapElement, scope_tokens.
  destruct (map_get storeKey_eq_dec (KScope sc) store); [reflexivity | apply map_set_set].
Qed.

Lemma scoped_in_add sc tok store sc' tok' :
  scoped_in (scopeTokens_add sc tok store) sc' tok' <->
  (sc' = sc /\ tok' = tok) \/ scoped_in store sc' tok'.
Proof.
  rewrite scopeTokens_add_eq. unfold scoped_in.
  destruct (scope_eq_dec sc' sc) as [-> | N].
  - rewrite map_get_set_same. split.
    + intros (toks & E & I). injection E as <-.
      apply In_set_add in I as [-> | I]; [auto |]. right.
      unfold scope_tokens in I.
      destruct (map_get storeKey_eq_dec (KScope sc) store) as [toks0 |]; [| destruct I].
      eauto.
    + intros H. eexists. split; [reflexivity |]. apply In_set_add.
      destruct H as [(_ & ->) | (toks & E & I)]; [auto |].
      right. unfold scope_tokens. rewrite E. exact I.
  - rewrite map_get_set_other by congruence. split.
    + intros H. right. exact H.
    + intros [(E & _) | H]; [contradiction | exact H].
Qed.

(* ================================================================== *)
(** ** Consistency is preserved *)

Lemma In_subscriptions_delete key t store k sub :
  In (k, sub) (subscriptions_delete key t store) ->
  In (k, sub) store \/
  exists sub0,
    map_get string_dec key store = Some sub0 /\
    callbacks sub = map_delete token_eq_dec t (callbacks sub0) /\
    callbacks sub <> [].
Proof.
  unfold subscriptions_delete.
  destruct (map_get string_dec key store) as [sub0 |] eqn:G; [| auto].
  destruct (Nat.eqb _ 0) eqn:Z.
  - intros H. apply In_map_delete in H. tauto.
  - intros H. apply In_map_set in H as [[_ ->] | H]; [| auto].
    right. exists sub0. cbn. repeat split; auto.
    intros E. rewrite E in Z. discriminate.
Qed.

Lemma NoDup_subscriptions_delete key t store :
  NoDup (map fst store) -> NoDup (map fst (subscriptions_delete key t store)).
Proof.
  intros H. unfold subscriptions_delete.
  destruct (map_get string_dec key store); auto.
  destruct (Nat.eqb _ 0); [apply NoDup_keys_delete | apply NoDup_keys_set]; exact H.
Qed.

Lemma get_callbackTokens_delete cb key t store g inner :
  map_get fn_eq_dec g (callbackTokens_delete cb key t store) = Some inner ->
  map_get fn_eq_dec g store = Some inner \/
  exists inner0,
    map_get fn_eq_dec cb store = Some inner0 /\ inner = forget_in key t inner0 /\
    inner <> [].
Proof.
  destruct (fn_eq_dec g cb) as [-> | N].
  - destruct (map_get fn_eq_dec cb store) as [inner0 |] eqn:G.
    + rewrite (callbackTokens_delete_get_same _ _ _ _ _ G).
      destruct (Nat.eqb _ 0) eqn:Z; [discriminate |]. intros [= <-]. right.
      exists inner0. repeat split. intros E. rewrite E in Z. discriminate.
    + intros H. unfold callbackTokens_delete in H. rewrite !G in H. discriminate.
  - rewrite callbackTokens_delete_get_other by exact N. auto.
Qed.

Lemma forget_in_NoDup key t inner :
  NoDup (map fst inner) -> NoDup (map fst (forget_in key t inner)).
Proof.
  intros H. unfold forget_in. destruct (map_get string_dec key inner); auto.
  destruct (Nat.eqb _ 0); [apply NoDup_keys_delete | apply NoDup_keys_set]; exact H.
Qed.

Lemma forget_in_sets_nonempty key t inner :
  (forall k toks, In (k, toks) inner -> toks <> []) ->
  forall k toks, In (k, toks) (forget_in key t inner) -> toks <> [].
Proof.
  intros H k toks. unfold forget_in.
  destruct (map_get string_dec key inner) as [toks0 |]; [| apply H].
  destruct (Nat.eqb _ 0) eqn:Z.
  - intros I. apply In_map_delete in I as [_ I]. eapply H, I.
  - intros I. apply In_map_set in I as [[_ ->] | I]; [| eapply H, I].
    intros E. rewrite E in Z. discriminate.
Qed.

Lemma invoke_token_absent t e :
  map_has string_dec (tok_key t) (subscriptions e) = false -> invoke_token t e = (e, false).
Proof. intros H. unfold invoke_token. rewrite H. reflexivity. Qed.

Lemma invoke_token_present t e :
  map_has string_dec (tok_key t) (subscriptions e) = true ->
  invoke_token t e =
  ({| subscriptions := subscriptions_delete (tok_key t) t (subscriptions e);
      subscriptionTokens := set_delete token_eq_dec t (subscriptionTokens e);
      callbackSubscriptionTokens :=
        callbackTokens_delete (tok_callback t) (tok_key t) t (callbackSubscriptionTokens e);
      scopeSubscriptionTokens :=
        scopeTokens_delete (tok_scope t) t (scopeSubscriptionTokens e) |}, true).
Proof. intros H. unfold invoke_token. rewrite H. reflexivity. Qed.

Lemma get_subscriptions_delete_pattern key t store k sub :
  map_get string_dec k (subscriptions_delete key t store) = Some sub ->
  exists sub0,
    map_get string_dec k store = Some sub0 /\
    subscriptionPattern sub = subscriptionPattern sub0.
Proof.
  destruct (string_dec k key) as [-> | N].
  - destruct (map_get string_dec key store) as [sub0 |] eqn:G.
    + rewrite (subscriptions_delete_get_same _ _ _ _ G).
      destruct (Nat.eqb _ 0); [discriminate |]. intros [= <-]. eauto.
    + intros H. unfold subscriptions_delete in H. rewrite !G in H. discriminate.
  - rewrite subscriptions_delete_get_other by exact N. eauto.
Qed.

Lemma get_subscriptions_add_pattern key pat tok cb store k sub :
  map_get string_dec k (subscriptions_add key pat tok cb store) = Some sub ->
  (exists sub0,
      map_get string_dec k store = Some sub0 /\
      subscriptionPattern sub = subscriptionPattern sub0) \/
  (k = key /\ subscriptionPattern sub = pat).
Proof.
  rewrite subscriptions_add_eq.
  destruct (string_dec k key) as [-> | N].
  - rewrite map_get_set_same. intros [= <-]. cbn. unfold entry_pattern.
    destruct (map_get string_dec key store) as [sub0 |]; eauto.
  - rewrite map_get_set_other by exact N. eauto.
Qed.

Lemma consistent_empty : consistent empty_engine.
Proof.
  constructor; cbn; try (intros; contradiction); try discriminate.
  - constructor.
  - intros key tok cb (sub & E & _). discriminate.
  - intros key tok cb (sub & E & _). discriminate.
  - intros key tok cb (sub & E & _). discriminate.
  - intros cb key tok (inner & toks & E & _). discriminate.
  - intros key tok cb (sub & E & _). discriminate.
  - intros sc tok (toks & E & _). discriminate.
Qed.

Lemma consistent_invoke_token t e : consistent e -> consistent (fst (invoke_token t e)).
Proof.
  intros C. destruct (map_has string_dec (tok_key t) (subscriptions e)) eqn:H.
  2: { rewrite invoke_token_absent by exact H. exact C. }
  rewrite invoke_token_present by exact H. cbn [fst].
  destruct C as [KU TU EN RE RL LR RI IR IU INE RS SR LE].
  constructor; unfold registered, indexed, scoped in *;
    cbn [subscriptions subscriptionTokens callbackSubscriptionTokens scopeSubscriptionTokens].
  - apply NoDup_subscriptions_delete, KU.
  - intros key sub I. apply In_subscriptions_delete in I as [I | (sub0 & G & E & _)].
    + eapply TU, I.
    + rewrite E. apply NoDup_keys_delete. eapply TU, map_get_In, G.
  - intros key sub I. apply In_subscriptions_delete in I as [I | (sub0 & G & _ & N)].
    + eapply EN, I.
    + exact N.
  - intros key tok cb R. apply registered_in_delete in R as [R _]. eapply RE, R.
  - intros key tok cb R. apply registered_in_delete in R as [R N].
    apply In_set_delete. split; [| eapply RL, R].
    intros ->. apply N. split; [reflexivity |]. symmetry. eapply RE, R.
  - intros tok I. apply In_set_delete in I as [N I].
    apply registered_in_delete. split; [apply LR, I | intros [E _]; contradiction].
  - intros key tok cb R. apply registered_in_delete in R as [R N].
    apply indexed_in_delete. split; [apply RI, R | intros (E1 & _ & E3); apply N; auto].
  - intros cb key tok I. apply indexed_in_delete in I as [I N].
    apply registered_in_delete. split; [apply IR, I |].
    intros [-> ->]. apply N. repeat split. symmetry. eapply RE, IR, I.
  - intros cb inner G. apply get_callbackTokens_delete in G as [G | (inner0 & G & -> & _)].
    + eapply IU, G.
    + apply forget_in_NoDup. eapply IU, G.
  - intros cb inner G. apply get_callbackTokens_delete in G as [G | (inner0 & G & -> & NE)].
    + eapply INE, G.
    + split; [exact NE |]. apply forget_in_sets_nonempty. eapply INE, G.
  - intros key tok cb R. apply registered_in_delete in R as [R N].
    apply scoped_in_delete. split; [eapply RS, R |].
    intros [-> _]. apply N. split; [reflexivity |]. symmetry. eapply RE, R.
  - intros sc tok S. apply scoped_in_delete in S as [S N].
    destruct (SR _ _ S) as [E R]. split; [exact E |].
    apply registered_in_delete. split; [exact R |].
    intros [-> _]. apply N. auto.
  - intros key sub G. apply get_subscriptions_delete_pattern in G as (sub0 & G & ->).
    eapply LE, G.
Qed.

Lemma In_subscriptions_add key pat tok cb store k sub :
  In (k, sub) (subscriptions_add key pat tok cb store) ->
  In (k, sub) store \/
  callbacks sub = map_set token_eq_dec tok cb (entry_callbacks key store).
Proof.
  rewrite subscriptions_add_eq. intros H.
  apply In_map_set in H as [[_ ->] | H]; auto.
Qed.

Lemma NoDup_entry_callbacks key store :
  (forall k sub, In (k, sub) store -> NoDup (map fst (callbacks sub))) ->
  NoDup (map fst (entry_callbacks key store)).
Proof.
  intros H. unfold entry_callbacks.
  destruct (map_get string_dec key store) as [sub |] eqn:G; [| constructor].
  eapply H, map_get_In, G.
Qed.

Lemma get_callbackTokens_add cb key tok store g inner :
  map_get fn_eq_dec g (callbackTokens_add cb key tok store) = Some inner ->
  map_get fn_eq_dec g store = Some inner \/
  inner = map_set string_dec key (set_add token_eq_dec tok (index_tokens cb key store))
            (index_inner cb store).
Proof.
  rewrite callbackTokens_add_eq.
  destruct (fn_eq_dec g cb) as [-> | N].
  - rewrite map_get_set_same. intros [= <-]. auto.
  - rewrite map_get_set_other by exact N. auto.
Qed.

Lemma registered_in_add_old key pat tok cb store k tok' cb' :
  registered_in store k tok' cb' ->
  (tok' = tok -> k = key /\ cb' = cb) ->
  registered_in (subscriptions_add key pat tok cb store) k tok' cb'.
Proof.
  intros R H. apply registered_in_add.
  destruct (token_eq_dec tok' tok) as [E | N].
  - left. destruct (H E). auto.
  - right. split; [exact R | intros [_ E]; contradiction].
Qed.

Lemma consistent_register id sc key pat cb e :
  literal_pattern_ok key pat ->
  consistent e -> consistent (fst (register id sc key pat cb e)).
Proof.
  intros OK C. unfold register. cbn [fst].
  set (tok := createSubscriptionToken id sc key cb).
  destruct C as [KU TU EN RE RL LR RI IR IU INE RS SR LE].
  assert (OLD : forall k tok' cb',
             registered_in (subscriptions e) k tok' cb' ->
             registered_in (subscriptions_add key pat tok cb (subscriptions e)) k tok' cb').
  { intros k tok' cb' R. apply registered_in_add_old; [exact R |].
    intros ->. destruct (RE _ _ _ R) as [<- <-]. split; reflexivity. }
  constructor; unfold registered, indexed, scoped in *;
    cbn [subscriptions subscriptionTokens callbackSubscriptionTokens scopeSubscriptionTokens].
  - rewrite subscriptions_add_eq. apply NoDup_keys_set, KU.
  - intros k sub I. apply In_subscriptions_add in I as [I | E].
    + eapply TU, I.
    + rewrite E. apply NoDup_keys_set, NoDup_entry_callbacks, TU.
  - intros k sub I. apply In_subscriptions_add in I as [I | E].
    + eapply EN, I.
    + rewrite E. apply map_set_nonempty.
  - intros k tok' cb' R. apply registered_in_add in R as [(-> & -> & ->) | [R _]].
    + split; reflexivity.
    + eapply RE, R.
  - intros k tok' cb' R. apply In_set_add.
    apply registered_in_add in R as [(_ & -> & _) | [R _]]; [auto |].
    right. eapply RL, R.
  - intros tok' I. apply In_set_add in I as [-> | I].
    + apply registered_in_add. left. repeat split.
    + apply OLD, LR, I.
  - intros k tok' cb' R. apply indexed_in_add.
    apply registered_in_add in R as [(-> & -> & ->) | [R _]]; [auto |].
    right. apply RI, R.
  - intros cb' k tok' I. apply indexed_in_add in I as [(-> & -> & ->) | I].
    + apply registered_in_add. auto.
    + apply OLD, IR, I.
  - intros cb' inner G. apply get_callbackTokens_add in G as [G | ->].
    + eapply IU, G.
    + apply NoDup_keys_set. unfold index_inner.
      destruct (map_get fn_eq_dec cb (callbackSubscriptionTokens e)) as [inner0 |] eqn:G0;
        [eapply IU, G0 | constructor].
  - intros cb' inner G. apply get_callbackTokens_add in G as [G | ->].
    + eapply INE, G.
    + split; [apply map_set_nonempty |].
      intros k toks I. apply In_map_set in I as [[_ ->] | I].
      * apply set_add_nonempty.
      * unfold index_inner in I.
        destruct (map_get fn_eq_dec cb (callbackSubscriptionTokens e)) as [inner0 |] eqn:G0;
          [| destruct I].
        eapply INE; [exact G0 | exact I].
  - intros k tok' cb' R. apply scoped_in_add.
    apply registered_in_add in R as [(_ & -> & _) | [R _]]; [auto |].
    right. eapply RS, R.
  - intros sc' tok' S. apply scoped_in_add in S as [(-> & ->) | S].
    + split; [reflexivity |]. apply registered_in_add. left. repeat split.
    + destruct (SR _ _ S) as [E R]. split; [exact E | apply OLD, R].
  - intros k sub G. apply get_subscriptions_add_pattern in G as [(sub0 & G & ->) | (-> & ->)].
    + eapply LE, G.
    + exact OK.
Qed.

Lemma escapeRegexpCharacters_injective s : forall s',
  escapeRegexpCharacters s = escapeRegexpCharacters s' -> s = s'.
Proof.
  induction s as [| c s IH]; intros [| c' s']; cbn [escapeRegexpCharacters].
  - reflexivity.
  - destruct (needs_escape c'); discriminate.
  - destruct (needs_escape c); discriminate.
  - destruct (needs_escape c) eqn:E, (needs_escape c') eqn:E'.
    + intros [= -> H]. f_equal. apply IH, H.
    + intros [= <- H]. discriminate.
    + intros [= -> H]. discriminate.
    + intros [= -> H]. f_equal. apply IH, H.
Qed.

Lemma escapeRegexpCharacters_not_slash s rest :
  escapeRegexpCharacters s <> String "/" rest.
Proof.
  destruct s as [| c s]; cbn [escapeRegexpCharacters]; [discriminate |].
  destruct (needs_escape c) eqn:E; [discriminate |].
  intros [= -> _]. discriminate.
Qed.

Lemma createSubscription_ok eventName key pat :
  createSubscriptionKey eventName = Some key ->
  createSubscriptionPattern eventName = Some pat ->
  literal_pattern_ok key pat.
Proof.
  destruct eventName as [| | b | n | s0 | r | f | s0 | i]; try discriminate.
  - rewrite createSubscriptionPattern_string. intros [= <-] [= <-] s E.
    apply escapeRegexpCharacters_injective in E as <-. reflexivity.
  - intros [= <-] [= <-] s E. exfalso.
    destruct r; cbn in E; symmetry in E; revert E; apply escapeRegexpCharacters_not_slash.
  - change (createSubscriptionPattern (VStringObject s0))
      with (createSubscriptionPattern (VString s0)).
    rewrite createSubscriptionPattern_string. intros [= <-] [= <-] s E.
    apply escapeRegexpCharacters_injective in E as <-. reflexivity.
Qed.

Lemma map_get_match_pass eventName key store :
  map_get string_dec key (match_pass eventName store) =
  option_map
    (fun sub => {| subscriptionPattern := re_advance (subscriptionPattern sub) eventName;
                   callbacks := callbacks sub |})
    (map_get string_dec key store).
Proof.
  unfold match_pass. induction store as [| [k sub] store IH]; cbn; [reflexivity |].
  destruct (string_dec key k); [reflexivity | exact IH].
Qed.

Lemma keys_match_pass eventName store :
  map fst (match_pass eventName store) = map fst store.
Proof. unfold match_pass. rewrite map_map. reflexivity. Qed.

(** Replacing the patterns of entries changes nothing else. *)
Lemma consistent_repattern e store' :
  consistent e ->
  map fst store' = map fst (subscriptions e) ->
  (forall key sub', In (key, sub') store' ->
     exists sub, In (key, sub) (subscriptions e) /\ callbacks sub' = callbacks sub) ->
  (forall key,
     match map_get string_dec key store', map_get string_dec key (subscriptions e) with
     | Some sub', Some sub =>
         callbacks sub' = callbacks sub /\
         forall s, subscriptionPattern sub = literal_pattern s ->
                   subscriptionPattern sub' = literal_pattern s
     | None, None => True
     | _, _ => False
     end) ->
  consistent (with_subscriptions store' e).
Proof.
  intros [KU TU EN RE RL LR RI IR IU INE RS SR LE] HK HI HG.
  assert (RG : forall key tok cb, registered_in store' key tok cb <->
                                  registered_in (subscriptions e) key tok cb).
  { intros key tok cb. unfold registered_in. specialize (HG key).
    destruct (map_get string_dec key store') as [sub' |],
             (map_get string_dec key (subscriptions e)) as [sub |]; try contradiction.
    - destruct HG as [Ec _]. split; intros (x & [= <-] & G); eexists; split; eauto; congruence.
    - split; intros (x & E & _); discriminate. }
  constructor; unfold registered, indexed, scoped in *;
    cbn [with_subscriptions subscriptions subscriptionTokens callbackSubscriptionTokens
         scopeSubscriptionTokens];
    try assumption.
  - rewrite HK. exact KU.
  - intros key sub' I. destruct (HI key sub' I) as (sub & I0 & ->). eapply TU, I0.
  - intros key sub' I. destruct (HI key sub' I) as (sub & I0 & ->). eapply EN, I0.
  - intros key tok cb R. apply RG in R. eapply RE, R.
  - intros key tok cb R. apply RG in R. eapply RL, R.
  - intros tok I. apply RG, LR, I.
  - intros key tok cb R. apply RG in R. apply RI, R.
  - intros cb key tok I. apply RG, IR, I.
  - intros key tok cb R. apply RG in R. eapply RS, R.
  - intros sc tok S. destruct (SR sc tok S) as [E R]. split; [exact E | apply RG, R].
  - intros key sub' G s E. specialize (HG key). rewrite G in HG.
    destruct (map_get string_dec key (subscriptions e)) as [sub |] eqn:G0; [| contradiction].
    destruct HG as [_ HP]. apply HP. exact (LE key sub G0 s E).
Qed.

Lemma consistent_matched eventName e : consistent e -> consistent (matched eventName e).
Proof.
  intros C. apply consistent_repattern; [exact C | apply keys_match_pass | |].
  - intros key sub' I. unfold match_pass in I. apply in_map_iff in I as ([k sub] & E & I).
    cbn in E. injection E as <- <-. exists sub. split; [exact I | reflexivity].
  - intros key. rewrite map_get_match_pass.
    destruct (map_get string_dec key (subscriptions e)) as [sub |]; cbn; [| exact I].
    split; [reflexivity |]. intros s ->. reflexivity.
Qed.

Lemma consistent_set_lastIndex key n e : consistent e -> consistent (set_lastIndex key n e).
Proof.
  intros C. unfold set_lastIndex.
  destruct (map_get string_dec key (subscriptions e)) as [sub0 |] eqn:G0; [| exact C].
  apply consistent_repattern; [exact C | | |].
  - apply keys_map_set_present. apply In_keys_get with (eq_dec := string_dec). eauto.
  - intros k sub' I. apply In_map_set in I as [[-> ->] | I].
    + exists sub0. split; [apply map_get_In with (eq_dec := string_dec); exact G0 | reflexivity].
    + exists sub'. auto.
  - intros k. destruct (string_dec k key) as [-> | N].
    + rewrite map_get_set_same, G0. cbn. split; [reflexivity |]. intros s ->. reflexivity.
    + rewrite map_get_set_other by exact N.
      destruct (map_get string_dec k (subscriptions e)); auto.
Qed.

(** In a consistent state the entry of a literal topic matches that topic
    only. *)
Lemma literal_entry_test e s sub t :
  consistent e ->
  map_get string_dec (escapeRegexpCharacters s) (subscriptions e) = Some sub ->
  (re_test (subscriptionPattern sub) t = true <-> t = s).
Proof.
  intros C G. rewrite (literal_entries e C _ sub G s eq_refl). apply literal_pattern_matches.
Qed.

(* ================================================================== *)
(** ** Every reachable state is consistent *)

Lemma invoke_all_fst tokens : forall e b,
  fst (fold_left
         (fun acc tok => let (e1, r) := invoke_token tok (fst acc) in (e1, r || snd acc))
         tokens (e, b)) = invoke_each tokens e.
Proof.
  unfold invoke_each.
  induction tokens as [| t tokens IH]; intros e b; cbn [fold_left]; [reflexivity |].
  cbn [fst snd]. destruct (invoke_token t e) as [e1 r]. cbn [fst]. apply IH.
Qed.

Lemma invoke_all_each tokens e : fst (invoke_all tokens e) = invoke_each tokens e.
Proof. apply invoke_all_fst. Qed.

Lemma invoke_each_ind (P : engine -> Prop) :
  (forall t e, P e -> P (fst (invoke_token t e))) ->
  forall tokens e, P e -> P (invoke_each tokens e).
Proof.
  intros H. unfold invoke_each.
  induction tokens as [| t tokens IH]; intros e He; cbn [fold_left]; auto.
Qed.

Lemma consistent_invoke_each tokens e : consistent e -> consistent (invoke_each tokens e).
Proof. apply invoke_each_ind. intros t e1. apply consistent_invoke_token. Qed.

Lemma consistent_unsubscribe eventName callback e :
  consistent e -> consistent (fst (unsubscribe eventName callback e)).
Proof. intros C. unfold unsubscribe. rewrite invoke_all_each. apply consistent_invoke_each, C. Qed.

Lemma consistent_unsubscribeAll sc eventName e :
  consistent e -> consistent (fst (unsubscribeAll sc eventName e)).
Proof.
  intros C. unfold unsubscribeAll, returning.
  repeat match goal with
         | |- context [if ?b then _ else _] => destruct b
         | |- context [match ?x with Some _ => _ | None => _ end] => destruct x
         end; cbn [fst]; try exact C; rewrite invoke_all_each; apply consistent_invoke_each, C.
Qed.

Lemma consistent_call f eventName data : forall w,
  consistent (eng w) -> consistent (eng (fst (call f eventName data w))).
Proof.
  induction f as [id throws | id sc key cb IH | id cb IH]; intros w C; cbn [call].
  - exact C.
  - cbn [fst eng with_eng record_call]. apply consistent_invoke_token, C.
  - cbn [onceTokens record_call].
    destruct (map_get Nat.eq_dec id (onceTokens w)) as [v |]; [| exact C].
    apply IH. cbn [eng with_eng record_call]. apply consistent_unsubscribe, C.
Qed.

Lemma consistent_deliver d : forall w,
  consistent (eng w) -> consistent (eng (deliver d w)).
Proof.
  destruct d as [[callbacks eventName] data]. unfold deliver.
  induction callbacks as [| f callbacks IH]; intros w C; cbn [fold_left]; [exact C |].
  apply IH, consistent_call, C.
Qed.

Lemma consistent_subscribe sc eventName callback w :
  consistent (eng w) -> consistent (eng (fst (subscribe sc eventName callback w))).
Proof.
  intros C. unfold subscribe.
  destruct (negb (isFunction callback) || negb (isValidEventName eventName)); [exact C |].
  destruct callback; try exact C.
  destruct (createSubscriptionKey eventName) as [key |] eqn:EK; [| exact C].
  destruct (createSubscriptionPattern eventName) as [pat |] eqn:EP; [| exact C].
  pose proof (consistent_register (nextId w) sc key pat f (eng w)
                (createSubscription_ok _ _ _ EK EP) C) as R.
  destruct (register (nextId w) sc key pat f (eng w)) as [e1 tok]. exact R.
Qed.

Lemma consistent_exec o w : consistent (eng w) -> consistent (eng (exec o w)).
Proof.
  intros C. destruct o; cbn [exec].
  - exact C.
  - apply consistent_subscribe, C.
  - unfold subscribeOnce. destruct (negb (isFunction callback)); [exact C |].
    destruct callback; try exact C.
    pose proof (consistent_subscribe sc eventName (VFunction (OnceFn (nextId w) f))
                  (fresh w) C) as S.
    destruct (subscribe sc eventName (VFunction (OnceFn (nextId w) f)) (fresh w)) as [w1 r].
    destruct r; exact S.
  - pose proof (consistent_matched eventName (eng w) C) as CM.
    unfold publish. destruct (Nat.eqb _ 0); [exact CM |].
    destruct sync; cbn [fst]; [apply consistent_deliver, CM | exact CM].
  - apply consistent_unsubscribe, C.
  - apply consistent_unsubscribeAll, C.
  - apply consistent_invoke_token, C.
  - unfold runTimer. destruct (timers w) as [| d rest]; [exact C |].
    apply consistent_deliver. exact C.
  - destruct eventName as [name |]; [apply consistent_matched, C | exact C].
  - apply consistent_set_lastIndex, C.
Qed.

Lemma reachable_consistent w : reachable w -> consistent (eng w).
Proof.
  induction 1 as [| o w R IH].
  - apply consistent_empty.
  - apply consistent_exec, IH.
Qed.

(* ================================================================== *)
(** ** Invoking tokens removes them and nothing else *)

Lemma registered_invoke_token t e key tok cb :
  registered (fst (invoke_token t e)) key tok cb <->
  registered e key tok cb /\ ~ (tok = t /\ key = tok_key t).
Proof.
  destruct (map_has string_dec (tok_key t) (subscriptions e)) eqn:H.
  - rewrite invoke_token_present by exact H. apply registered_in_delete.
  - rewrite invoke_token_absent by exact H. cbn [fst].
    apply map_has_false in H. split; [| tauto].
    intros R. split; [exact R |]. intros [_ ->].
    destruct R as (sub & E & _). rewrite H in E. discriminate.
Qed.

Lemma removes_only_refl e : removes_only [] e e.
Proof. constructor; auto. Qed.

Lemma removes_only_invoke_token t e : removes_only [t] e (fst (invoke_token t e)).
Proof.
  destruct (map_has string_dec (tok_key t) (subscriptions e)) eqn:H.
  2: { rewrite invoke_token_absent by exact H. constructor; auto. }
  rewrite invoke_token_present by exact H. cbn [fst].
  constructor; unfold registered, scoped;
    cbn [subscriptions subscriptionTokens callbackSubscriptionTokens scopeSubscriptionTokens].
  - intros key tok cb R. apply registered_in_delete in R. tauto.
  - intros key tok cb N R. apply registered_in_delete. split; [exact R |].
    intros [E _]. apply N. left. auto.
  - intros tok I. apply In_set_delete in I. tauto.
  - intros tok N I. apply In_set_delete. split; [| exact I].
    intros E. apply N. left. auto.
  - intros g N. apply callbackTokens_delete_get_other.
    intros E. apply (N t); [left; reflexivity | auto].
  - intros sc tok S. apply scoped_in_delete in S. tauto.
  - intros sc tok N S. apply scoped_in_delete. split; [exact S |].
    intros [E _]. apply N. left. auto.
Qed.

Lemma removes_only_trans t ts e e1 e2 :
  removes_only [t] e e1 -> removes_only ts e1 e2 -> removes_only (t :: ts) e e2.
Proof.
  intros [A1 A2 A3 A4 A5 A6 A7] [B1 B2 B3 B4 B5 B6 B7].
  assert (NT : forall tok, ~ In tok (t :: ts) -> ~ In tok [t] /\ ~ In tok ts)
    by (intros tok N; split; intros I; apply N; [destruct I as [-> | []]; left | right]; auto).
  constructor.
  - intros key tok cb R. apply A1, B1, R.
  - intros key tok cb N R. destruct (NT _ N). apply B2, A2; auto.
  - intros tok I. apply A3, B3, I.
  - intros tok N I. destruct (NT _ N). apply B4, A4; auto.
  - intros g N. rewrite B5, A5; auto.
    + intros t' [<- | []]. apply N. left. reflexivity.
    + intros t' I. apply N. right. exact I.
  - intros sc tok S. apply A6, B6, S.
  - intros sc tok N S. destruct (NT _ N). apply B7, A7; auto.
Qed.

Lemma removes_only_invoke_each ts : forall e, removes_only ts e (invoke_each ts e).
Proof.
  induction ts as [| t ts IH]; intros e.
  - apply removes_only_refl.
  - apply (removes_only_trans t ts e (fst (invoke_token t e))).
    + apply removes_only_invoke_token.
    + apply IH.
Qed.

Lemma invoke_each_removes ts : forall e,
  consistent e ->
  forall t, In t ts -> forall key cb, ~ registered (invoke_each ts e) key t cb.
Proof.
  induction ts as [| a ts IH]; intros e C t I key cb; [destruct I |].
  change (invoke_each (a :: ts) e) with (invoke_each ts (fst (invoke_token a e))).
  destruct (token_eq_dec a t) as [-> | N].
  - intros R.
    apply (ro_registered_old _ _ _ (removes_only_invoke_each ts _)) in R.
    apply registered_invoke_token in R as [R NR].
    apply NR. split; [reflexivity |]. symmetry. eapply registered_env; eauto.
  - destruct I as [E | I]; [contradiction |].
    apply IH; [apply consistent_invoke_token, C | exact I].
Qed.

Lemma nothing_registered_empty e :
  consistent e ->
  (forall key tok cb, ~ registered e key tok cb) ->
  subscriptions e = [] /\ subscriptionTokens e = [] /\ callbackSubscriptionTokens e = [].
Proof.
  intros C N. repeat split.
  - destruct (subscriptions e) as [| [key sub] rest] eqn:E; [reflexivity |].
    assert (I : In (key, sub) (subscriptions e)) by (rewrite E; left; reflexivity).
    pose proof (entries_nonempty e C key sub I) as NE.
    destruct (callbacks sub) as [| [tok cb] cbs] eqn:Ec; [congruence |].
    exfalso. apply (N key tok cb). exists sub. split.
    + apply In_get_NoDup; [apply (keys_unique e C) | exact I].
    + apply In_get_NoDup; [apply (tokens_unique e C key sub I) | rewrite Ec; left; reflexivity].
  - destruct (subscriptionTokens e) as [| tok rest] eqn:E; [reflexivity |].
    exfalso. apply (N (tok_key tok) tok (tok_callback tok)).
    apply (live_registered e C). rewrite E. left. reflexivity.
  - destruct (callbackSubscriptionTokens e) as [| [cb inner] rest] eqn:E; [reflexivity |].
    assert (G : map_get fn_eq_dec cb (callbackSubscriptionTokens e) = Some inner).
    { rewrite E. cbn. destruct (fn_eq_dec cb cb); congruence. }
    destruct (index_nonempty e C cb inner G) as [NE NS].
    destruct inner as [| [key toks] inner']; [congruence |].
    assert (I : In (key, toks) ((key, toks) :: inner')) by (left; reflexivity).
    pose proof (NS key toks I) as NT.
    destruct toks as [| tok toks']; [congruence |].
    exfalso. apply (N key tok cb). apply (indexed_registered e C).
    exists ((key, tok :: toks') :: inner'), (tok :: toks'). repeat split.
    + exact G.
    + apply In_get_NoDup; [apply (index_keys_unique e C cb _ G) | exact I].
    + left. reflexivity.
Qed.

(* ================================================================== *)
(** ** Dispatch: resolving callbacks, [hasSubscribers], [publish] *)

Lemma map_set_absent {K V : Type} (eq_dec : forall a b : K, {a = b} + {a <> b})
    (k : K) (v : V) (m : list (K * V)) :
  map_get eq_dec k m = None -> map_set eq_dec k v m = m ++ [(k, v)].
Proof.
  induction m as [| [k0 v0] m IH]; cbn; [reflexivity |].
  destruct (eq_dec k k0); [discriminate |]. intros H. rewrite IH; auto.
Qed.

Lemma flat_map_map_set_silent {V A : Type} (g : string * V -> list A)
    (k : string) (v : V) (m : list (string * V)) :
  g (k, v) = [] ->
  (forall v0, map_get string_dec k m = Some v0 -> g (k, v0) = []) ->
  flat_map g (map_set string_dec k v m) = flat_map g m.
Proof.
  intros Hv. induction m as [| [k0 v0] m IH]; cbn; intros H0.
  - rewrite Hv. reflexivity.
  - destruct (string_dec k k0) as [-> | N]; cbn.
    + rewrite Hv, (H0 v0 eq_refl). reflexivity.
    + rewrite IH; auto.
Qed.

Lemma getCallbacks_nonempty eventName e :
  getCallbacksForEventName eventName e <> [] <->
  exists key sub,
    In (key, sub) (subscriptions e) /\
    re_test (subscriptionPattern sub) eventName = true /\
    callbacks sub <> [].
Proof.
  unfold getCallbacksForEventName.
  induction (subscriptions e) as [| [key sub] rest IH]; cbn [flat_map snd].
  - split; [congruence | intros (k & s & [] & _)].
  - split.
    + intros H. destruct (re_test (subscriptionPattern sub) eventName) eqn:T.
      * destruct (callbacks sub) as [| c cs] eqn:Ec.
        -- cbn in H. apply IH in H as (k & s & I & H). exists k, s. split; [right |]; auto.
        -- exists key, sub. rewrite Ec. repeat split; [left; reflexivity | auto | discriminate].
      * cbn in H. apply IH in H as (k & s & I & H). exists k, s. split; [right |]; auto.
    + intros (k & s & [[= -> ->] | I] & T & NE).
      * rewrite T. destruct (callbacks s); [congruence | discriminate].
      * intros E. apply app_eq_nil in E as [_ E]. revert E. apply IH. eauto.
Qed.

Lemma hasSubscribers_callbacks eventName e :
  hasSubscribers (Some eventName) e = true <-> getCallbacksForEventName eventName e <> [].
Proof.
  unfold hasSubscribers.
  destruct (getCallbacksForEventName eventName e); cbn; split; congruence.
Qed.

Lemma publish_result eventName data sync w :
  snd (publish eventName data sync w) = hasSubscribers (Some eventName) (eng w).
Proof.
  unfold publish, hasSubscribers.
  destruct (getCallbacksForEventName eventName (eng w)); cbn; [| destruct sync]; reflexivity.
Qed.

Lemma registered_resolved e key sub tok f t :
  map_get string_dec key (subscriptions e) = Some sub ->
  re_test (subscriptionPattern sub) t = true ->
  map_get token_eq_dec tok (callbacks sub) = Some f ->
  In f (getCallbacksForEventName t e).
Proof.
  intros G T Gt. unfold getCallbacksForEventName. apply in_flat_map.
  exists (key, sub). split.
  - apply map_get_In with (eq_dec := string_dec). exact G.
  - cbn [snd]. rewrite T. apply in_map_iff. exists (tok, f). split; [reflexivity |].
    apply map_get_In with (eq_dec := token_eq_dec). exact Gt.
Qed.

Lemma registered_matched eventName e key tok cb :
  registered (matched eventName e) key tok cb <-> registered e key tok cb.
Proof.
  unfold registered, registered_in, matched. cbn [with_subscriptions subscriptions].
  rewrite map_get_match_pass.
  destruct (map_get string_dec key (subscriptions e)) as [sub |]; cbn.
  - split; intros (x & [= <-] & G); eexists; split; eauto.
  - split; intros (x & E & _); discriminate.
Qed.

(** A match against a RegExp that is not sticky leaves its later matches as
    they were. *)
Lemma re_test_advance r t' t :
  sticky r = false -> re_test (re_advance r t') t = re_test r t.
Proof.
  destruct r as [source program | source flags lastIndex matchAt]; [reflexivity |].
  unfold sticky. cbn [re_advance re_test].
  destruct (has_flag "g" flags) eqn:G.
  - intros _. cbn [re_test]. rewrite G. reflexivity.
  - destruct (has_flag "y" flags) eqn:Y; [discriminate |].
    intros _. cbn [re_test]. rewrite G, Y. reflexivity.
Qed.

Lemma getCallbacks_matched t' t e :
  (forall key sub, In (key, sub) (subscriptions e) -> sticky (subscriptionPattern sub) = false) ->
  getCallbacksForEventName t (matched t' e) = getCallbacksForEventName t e.
Proof.
  unfold getCallbacksForEventName, matched, match_pass.
  cbn [with_subscriptions subscriptions].
  induction (subscriptions e) as [| [key sub] rest IH]; intros H; cbn [map flat_map fst snd];
    [reflexivity |].
  cbn [subscriptionPattern callbacks].
  rewrite (re_test_advance _ t' t (H key sub (or_introl eq_refl))).
  f_equal. apply IH. intros k s I. apply (H k s). right. exact I.
Qed.

(* ================================================================== *)
(** ** Literal topics *)

Lemma subscribe_literal sc s cb w :
  subscribe sc (VString s) (VFunction cb) w =
  (fresh (with_eng (fst (register (nextId w) sc (escapeRegexpCharacters s)
                           (RegExpNew ("^" ++ escapeRegexpCharacters s ++ "$")%string
                              (Bol :: literal_terms s ++ [Eol])) cb (eng w))) w),
   Return (VFunction (fn_of_token
                        (createSubscriptionToken (nextId w) sc
                           (escapeRegexpCharacters s) cb)))).
Proof.
  unfold subscribe.
  cbn [isFunction isValidEventName isString negb orb createSubscriptionKey].
  rewrite createSubscriptionPattern_string. reflexivity.
Qed.

Lemma literal_subscription_entry (w : world) sc (cb : fn) (s : string) :
  reachable w ->
  let e' := eng (fst (subscribe sc (VString s) (VFunction cb) w)) in
  exists sub,
    map_get string_dec (escapeRegexpCharacters s) (subscriptions e') = Some sub /\
    map_get token_eq_dec
      (createSubscriptionToken (nextId w) sc (escapeRegexpCharacters s) cb)
      (callbacks sub) = Some cb /\
    (forall t, re_test (subscriptionPattern sub) t = true <-> t = s).
Proof.
  intros R e'.
  assert (C : consistent e').
  { apply (reachable_consistent _
             (reachable_step (Subscribe sc (VString s) (VFunction cb)) w R)). }
  assert (Rg : registered e' (escapeRegexpCharacters s)
                 (createSubscriptionToken (nextId w) sc (escapeRegexpCharacters s) cb) cb).
  { subst e'. rewrite subscribe_literal. cbn [fst eng fresh with_eng register subscriptions].
    apply registered_in_add. left. repeat split. }
  destruct Rg as (sub & G & Gt). exists sub. split; [exact G |]. split; [exact Gt |].
  intros t. apply (literal_entry_test _ s sub t C G).
Qed.

(** Subscribing to the literal [s] leaves the callbacks resolved for every
    other topic as they were. *)
Lemma subscribe_literal_other_topics (w : world) sc (s t : string) (f : fn) :
  reachable w -> t <> s ->
  getCallbacksForEventName t (eng (fst (subscribe sc (VString s) (VFunction f) w))) =
  getCallbacksForEventName t (eng w).
Proof.
  intros R N. pose proof (reachable_consistent w R) as C.
  rewrite subscribe_literal.
  cbn [fst eng fresh with_eng register subscriptions].
  unfold getCallbacksForEventName. cbn [subscriptions].
  rewrite subscriptions_add_eq. apply flat_map_map_set_silent.
  - cbn [snd subscriptionPattern]. unfold entry_pattern.
    destruct (map_get string_dec (escapeRegexpCharacters s) (subscriptions (eng w)))
      as [sub0 |] eqn:G0.
    + pose proof (literal_entry_test _ s sub0 t C G0) as L.
      destruct (re_test (subscriptionPattern sub0) t); [| reflexivity].
      exfalso. apply N, L. reflexivity.
    + pose proof (literal_pattern_test s t) as L.
      destruct (re_test _ t); [| reflexivity]. exfalso. apply N, L. reflexivity.
  - intros sub0 G0. cbn [snd].
    pose proof (literal_entry_test _ s sub0 t C G0) as L.
    destruct (re_test (subscriptionPattern sub0) t); [| reflexivity].
    exfalso. apply N, L. reflexivity.
Qed.

(* ================================================================== *)
(** ** Literal topics and dispatch *)


(** C6: a literal topic [s] is compiled to a pattern that matches a topic
    [t] iff [t = s], and dispatch uses it so.  In every reachable state,
    after subscribing [cb] to the literal [s]: the new token is stored in
    the registry entry of the escaped [s], whose pattern matches [t] iff
    [t = s]; a publish of [s] resolves [cb], [hasSubscribers] of [s] is
    [true] and [publish] of [s] returns [true]; and for every [t] other than
    [s] the callbacks resolved, the answer of [hasSubscribers] and the
    result of [publish] are what they were before the subscription. *)
Theorem literal_topic_matches_exactly (w : world) sc (cb : fn) (s t : string) :
  reachable w ->
  let r := subscribe sc (VString s) (VFunction cb) w in
  let tok := createSubscriptionToken (nextId w) sc (escapeRegexpCharacters s) cb in
  (exists pattern,
      createSubscriptionPattern (VString s) = Some pattern /\
      (re_test pattern t = true <-> t = s)) /\
  snd r = Return (VFunction (fn_of_token tok)) /\
  (exists sub,
    map_get string_dec (escapeRegexpCharacters s) (subscriptions (eng (fst r))) = Some sub /\
    map_get token_eq_dec tok (callbacks sub) = Some cb /\
    (re_test (subscriptionPattern sub) t = true <-> t = s)) /\
  In cb (getCallbacksForEventName s (eng (fst r))) /\
  hasSubscribers (Some s) (eng (fst r)) = true /\
  (forall data sync, snd (publish s data sync (fst r)) = true) /\
  (t <> s ->
   getCallbacksForEventName t (eng (fst r)) = getCallbacksForEventName t (eng w) /\
   hasSubscribers (Some t) (eng (fst r)) = hasSubscribers (Some t) (eng w) /\
   forall data sync,
     snd (publish t data sync (fst r)) = snd (publish t data sync w)).
Proof.
  intros R r tok.
  destruct (literal_subscription_entry w sc cb s R) as (sub & G & Gt & M).
  fold r in G. fold tok in Gt.
  assert (I : In cb (getCallbacksForEventName s (eng (fst r)))).
  { eapply (registered_resolved _ _ sub _ cb s G); [apply M; reflexivity | exact Gt]. }
  assert (H : hasSubscribers (Some s) (eng (fst r)) = true).
  { apply hasSubscribers_callbacks. intros E. rewrite E in I. exact I. }
  split; [| split; [| split; [| split; [| split; [| split]]]]].
  - eexists. split; [apply createSubscriptionPattern_string | apply literal_pattern_test].
  - subst r. rewrite subscribe_literal. reflexivity.
  - exists sub. split; [exact G |]. split; [exact Gt | apply M].
  - exact I.
  - exact H.
  - intros data sync. rewrite publish_result. exact H.
  - intros N.
    assert (E : getCallbacksForEventName t (eng (fst r)) = getCallbacksForEventName t (eng w))
      by (apply subscribe_literal_other_topics; assumption).
    split; [exact E |]. split.
    + unfold hasSubscribers. rewrite E. reflexivity.
    + intros data sync. rewrite !publish_result. unfold hasSubscribers. rewrite E. reflexivity.
Qed.

Lemma literal_topic_matches_exactly_witness :
  let w := run [Subscribe ScopeUndefined (VRegExp (RegExpObject "part3.*" EmptyString 0
                                                     (match_literal "part3")))
                  (VFunction (UserFn 1 false))] pubsubFactory in
  let r := subscribe ScopeUndefined (VString "^part1.*") (VFunction (UserFn 0 false)) w in
  In (UserFn 0 false) (getCallbacksForEventName "^part1.*" (eng (fst r))) /\
  snd (publish "^part1.*" VUndefined true (fst r)) = true /\
  getCallbacksForEventName "part1.anything" (eng (fst r)) = [] /\
  hasSubscribers (Some "part1.anything") (eng (fst r)) = false /\
  snd (publish "part1.anything" VUndefined true (fst r)) = false.
Proof.
  intros w. cbn zeta.
  assert (R : reachable w) by (apply reachable_step, reachable_init).
  pose proof (literal_topic_matches_exactly w ScopeUndefined (UserFn 0 false)
                "^part1.*" "part1.anything" R) as T.
  cbn zeta in T. destruct T as (_ & _ & _ & I & _ & P & O).
  destruct O as (E & H & Q); [discriminate |].
  split; [exact I |]. split; [apply P |].
  split; [rewrite E; reflexivity |].
  split; [rewrite H; reflexivity | rewrite Q; reflexivity].
Defined.

(** The example of the claim, and what the same text does as a pattern. *)
Example literal_caret_part1 :
  let e := eng (fst (subscribe ScopeUndefined (VString "^part1.*")
                       (VFunction (UserFn 0 false)) pubsubFactory)) in
  hasSubscribers (Some "^part1.*") e = true /\
  hasSubscribers (Some "part1.anything") e = false /\
  option_map (fun r => re_test r "part1.anything") (RegExp_new "^part1.*") = Some true.
Proof. repeat split; reflexivity. Qed.

(* ================================================================== *)
(** ** Invalid arguments *)

(** C7: when the callback is not callable or the topic specifier is neither
    a string nor a RegExp, [subscribe] and [subscribeOnce] return [null]
    without raising, and the registry and the indexes are unchanged. *)
Theorem invalid_arguments_return_null sc (eventName callback : value) (w : world) :
  isFunction callback = false \/ isValidEventName eventName = false ->
  subscribe sc eventName callback w = (w, Return VNull) /\
  snd (subscribeOnce sc eventName callback w) = Return VNull /\
  stores (fst (subscribeOnce sc eventName callback w)) = stores w.
Proof.
  intros H. unfold subscribeOnce, subscribe.
  destruct callback; cbn [isFunction negb orb] in *;
    try (repeat split; reflexivity).
  destruct H as [H | H]; [discriminate |].
  rewrite H. cbn. repeat split; reflexivity.
Qed.

Lemma invalid_arguments_return_null_witness :
  let w := fst (subscribe ScopeUndefined (VString "test") (VFunction (UserFn 0 false))
                  pubsubFactory) in
  subscribe ScopeUndefined (VString "test") VUndefined w = (w, Return VNull) /\
  snd (subscribeOnce ScopeUndefined (VString "test") VUndefined w) = Return VNull /\
  stores (fst (subscribeOnce ScopeUndefined (VString "test") VUndefined w)) = stores w.
Proof.
  apply (invalid_arguments_return_null ScopeUndefined (VString "test") VUndefined).
  left. reflexivity.
Defined.

Example invalid_topic_returns_null :
  snd (subscribe ScopeUndefined VUndefined (VFunction (UserFn 0 false)) pubsubFactory)
    = Return VNull /\
  snd (subscribeOnce ScopeUndefined (VNumber 3) (VFunction (UserFn 0 false)) pubsubFactory)
    = Return VNull.
Proof. split; reflexivity. Qed.

(* ================================================================== *)
(** ** unsubscribeAll on a scope without subscriptions *)

Lemma unsubscribeAll_unknown_scope_throws n e :
  map_get storeKey_eq_dec (KScope (ScopeSymbol n)) (scopeSubscriptionTokens e) = None ->
  unsubscribeAll (ScopeSymbol n) VUndefined e = (e, ThrowTypeError).
Proof. intros H. unfold unsubscribeAll. cbn. rewrite H. reflexivity. Qed.

(** C1 (the code departs from it): on the facade of a fresh [isolate()],
    [unsubscribeAll()] without a topic evaluates
    [scopeSubscriptionTokens.get(scope).values()] on [undefined] and raises a
    TypeError; with a topic, and on the root API, it returns [false]. *)
Theorem unsubscribeAll_fresh_scope_raises :
  let w := fst (isolate pubsubFactory) in
  let sc := snd (isolate pubsubFactory) in
  unsubscribeAll sc VUndefined (eng w) = (eng w, ThrowTypeError) /\
  unsubscribeAll sc (VString "test") (eng w) = (eng w, Return (VBoolean false)) /\
  unsubscribeAll ScopeUndefined VUndefined (eng w) = (eng w, Return (VBoolean false)).
Proof. repeat split; reflexivity. Qed.

(* ================================================================== *)
(** ** Pruning of the reverse indexes *)

Lemma scopeTokens_delete_keeps_scope sc sc' tok store :
  map_has storeKey_eq_dec (KScope sc) store = true ->
  map_has storeKey_eq_dec (KScope sc) (scopeTokens_delete sc' tok store) = true.
Proof.
  intros H. unfold scopeTokens_delete.
  destruct (map_get storeKey_eq_dec (KScope sc') store) as [tokens |] eqn:G; auto.
  assert (S1 : map_has storeKey_eq_dec (KScope sc)
                 (map_set storeKey_eq_dec (KScope sc')
                    (set_delete token_eq_dec tok tokens) store) = true).
  { unfold map_has. destruct (storeKey_eq_dec (KScope sc) (KScope sc')) as [E | N].
    - rewrite E, map_get_set_same. reflexivity.
    - rewrite map_get_set_other by exact N. exact H. }
  destruct (Nat.eqb (size (set_delete token_eq_dec tok tokens)) 0); auto.
  unfold map_has. rewrite map_get_delete_other by discriminate. exact S1.
Qed.

(** C3 (the code departs from it): after one subscribe and the matching
    unsubscribe the registry, the all-tokens set and the callback index are
    empty, but the scope index keeps an entry with an empty token set:
    [scopeSubscriptionTokens.delete] calls [store.delete(tokens)], not
    [store.delete(scope)]. *)
Theorem scope_index_is_not_pruned :
  let tok := createSubscriptionToken 0 ScopeUndefined "a" (UserFn 0 false) in
  let w := run [Subscribe ScopeUndefined (VString "a") (VFunction (UserFn 0 false));
                InvokeToken tok] pubsubFactory in
  subscriptions (eng w) = [] /\
  subscriptionTokens (eng w) = [] /\
  callbackSubscriptionTokens (eng w) = [] /\
  scopeSubscriptionTokens (eng w) = [(KScope ScopeUndefined, [])].
Proof. repeat split; reflexivity. Qed.

(* ================================================================== *)
(** ** subscribeOnce *)

(** C4 (the code departs from it): two asynchronous publishes issued before
    the timers run both capture the wrapper, so the callback of a
    [subscribeOnce] subscription is invoked twice. *)
Theorem subscribeOnce_two_pending_publishes :
  let f := UserFn 0 false in
  let w := run [SubscribeOnce ScopeUndefined (VString "t") (VFunction f);
                Publish "t" (VNumber 1) false;
                Publish "t" (VNumber 2) false;
                RunTimer; RunTimer] pubsubFactory in
  invocations_of f (calls w) = 2 /\
  subscriptions (eng w) = [].
Proof. split; reflexivity. Qed.

(** Publishing synchronously, one publish after the other, the callback is
    invoked once. *)
Example subscribeOnce_sequential_publishes :
  let f := UserFn 0 false in
  let w := run [SubscribeOnce ScopeUndefined (VString "t") (VFunction f);
                Publish "t" (VNumber 1) true;
                Publish "t" (VNumber 2) true] pubsubFactory in
  invocations_of f (calls w) = 1.
Proof. reflexivity. Qed.

(* ================================================================== *)
(** ** Delivery *)

Lemma call_calls f eventName data : forall w,
  calls (fst (call f eventName data w)) =
    calls w ++ invocations (onceTokens w) f eventName data /\
  onceTokens (fst (call f eventName data w)) = onceTokens w /\
  timers (fst (call f eventName data w)) = timers w.
Proof.
  induction f as [id throws | id sc key cb IH | id cb IH]; intros w.
  - repeat split; reflexivity.
  - repeat split; reflexivity.
  - cbn [call invocations]. cbn [record_call onceTokens].
    destruct (map_get Nat.eq_dec id (onceTokens w)) as [v |] eqn:G.
    + match goal with |- context [call cb eventName data ?w1] =>
        destruct (IH w1) as (C & O & T); rewrite C, O, T end.
      cbn. rewrite <- app_assoc. repeat split; reflexivity.
    + repeat split; reflexivity.
Qed.

Lemma deliver_calls callbacks eventName data : forall w,
  calls (deliver (callbacks, eventName, data) w) =
    calls w ++ flat_map (fun f => invocations (onceTokens w) f eventName data) callbacks /\
  onceTokens (deliver (callbacks, eventName, data) w) = onceTokens w.
Proof.
  unfold deliver.
  induction callbacks as [| f callbacks IH]; intros w; cbn [fold_left flat_map].
  - rewrite app_nil_r. split; reflexivity.
  - destruct (IH (fst (call f eventName data w))) as (C & O).
    destruct (call_calls f eventName data w) as (C1 & O1 & _).
    rewrite C, O, C1, O1, <- app_assoc. split; reflexivity.
Qed.

(** C8: a synchronous publish to the matching callbacks invokes each of
    them once with [(eventName, data)], in order, whichever of them throw,
    and returns [true]; the same invocations happen when the delivery is
    deferred and the timer runs. *)
Theorem delivery_survives_throwing_callbacks (w : world) (eventName : string) (data : value) :
  let callbacks := getCallbacksForEventName eventName (eng w) in
  callbacks <> [] ->
  snd (publish eventName data true w) = true /\
  calls (fst (publish eventName data true w)) =
    calls w ++ flat_map (fun f => invocations (onceTokens w) f eventName data) callbacks /\
  (timers w = [] ->
   snd (publish eventName data false w) = true /\
   calls (fst (publish eventName data false w)) = calls w /\
   calls (runTimer (fst (publish eventName data false w))) =
     calls w ++ flat_map (fun f => invocations (onceTokens w) f eventName data) callbacks).
Proof.
  intros callbacks H. unfold publish. fold callbacks.
  destruct callbacks as [| f rest] eqn:E; [congruence |].
  cbn [List.length Nat.eqb fst snd].
  split; [reflexivity |]. split.
  - apply (deliver_calls (f :: rest) eventName data (with_eng (matched eventName (eng w)) w)).
  - intros T. split; [reflexivity |]. split; [reflexivity |].
    unfold runTimer, setTimeout. cbn [timers with_timers with_eng]. rewrite T. cbn [app].
    apply (deliver_calls (f :: rest) eventName data
             (with_timers [] (with_eng (matched eventName (eng w)) w))).
Qed.

Lemma delivery_survives_throwing_callbacks_witness :
  let c1 := UserFn 1 false in
  let c2 := UserFn 2 true in
  let c3 := UserFn 3 false in
  let w := run [Subscribe ScopeUndefined (VString "test") (VFunction c1);
                Subscribe ScopeUndefined (VString "test") (VFunction c2);
                Subscribe ScopeUndefined (VString "test") (VFunction c3)] pubsubFactory in
  snd (publish "test" (VNumber 7) true w) = true /\
  calls (fst (publish "test" (VNumber 7) true w)) =
    [(c1, "test", VNumber 7); (c2, "test", VNumber 7); (c3, "test", VNumber 7)].
Proof.
  intros c1 c2 c3 w.
  assert (H : getCallbacksForEventName "test" (eng w) <> []) by (vm_compute; discriminate).
  destruct (delivery_survives_throwing_callbacks w "test" (VNumber 7) H) as (R & C & _).
  split; [exact R | rewrite C; reflexivity].
Defined.

(* ================================================================== *)
(** ** Invoking a token again *)

Lemma subscriptions_delete_idem key tok store :
  subscriptions_delete key tok (subscriptions_delete key tok store) =
  subscriptions_delete key tok store.
Proof.
  unfold subscriptions_delete at 2 3.
  destruct (map_get string_dec key store) as [sub |] eqn:G.
  - destruct (Nat.eqb (size (map_delete token_eq_dec tok (callbacks sub))) 0) eqn:Z.
    + unfold subscriptions_delete. rewrite map_get_delete_same. reflexivity.
    + unfold subscriptions_delete. rewrite map_get_set_same.
      cbn [callbacks subscriptionPattern]. rewrite map_delete_idem, Z.
      apply map_set_id, map_get_set_same.
  - unfold subscriptions_delete. rewrite G. reflexivity.
Qed.

Lemma callbackTokens_delete_idem cb key tok store :
  callbackTokens_delete cb key tok (callbackTokens_delete cb key tok store) =
  callbackTokens_delete cb key tok store.
Proof.
  unfold callbackTokens_delete at 2 3.
  destruct (map_get fn_eq_dec cb store) as [inner |] eqn:G.
  - set (inner1 := match map_get string_dec key inner with
                   | Some callbackTokens => _ | None => inner end).
    assert (I : match map_get string_dec key inner1 with
                | Some callbackTokens =>
                    if Nat.eqb (size (set_delete token_eq_dec tok callbackTokens)) 0
                    then map_delete string_dec key inner1
                    else map_set string_dec key
                           (set_delete token_eq_dec tok callbackTokens) inner1
                | None => inner1
                end = inner1).
    { subst inner1. destruct (map_get string_dec key inner) as [toks |] eqn:G2.
      - destruct (Nat.eqb (size (set_delete token_eq_dec tok toks)) 0) eqn:Z.
        + rewrite map_get_delete_same. reflexivity.
        + rewrite map_get_set_same, set_delete_idem, Z.
          apply map_set_id, map_get_set_same.
      - rewrite G2. reflexivity. }
    destruct (Nat.eqb (size inner1) 0) eqn:Z1.
    + unfold callbackTokens_delete. rewrite map_get_delete_same. reflexivity.
    + unfold callbackTokens_delete. rewrite map_get_set_same, I, Z1.
      apply map_set_id, map_get_set_same.
  - unfold callbackTokens_delete. rewrite G. reflexivity.
Qed.

Lemma scopeTokens_delete_idem sc tok store :
  scopeTokens_delete sc tok (scopeTokens_delete sc tok store) =
  scopeTokens_delete sc tok store.
Proof.
  unfold scopeTokens_delete at 2 3.
  destruct (map_get storeKey_eq_dec (KScope sc) store) as [toks |] eqn:G.
  - assert (D : set_delete token_eq_dec tok (set_delete token_eq_dec tok toks) =
                set_delete token_eq_dec tok toks) by apply set_delete_idem.
    remember (set_delete token_eq_dec tok toks) as toks1 eqn:Et.
    remember (map_set storeKey_eq_dec (KScope sc) toks1 store) as store1 eqn:Es.
    assert (G1 : map_get storeKey_eq_dec (KScope sc) store1 = Some toks1)
      by (subst store1; apply map_get_set_same).
    destruct (Nat.eqb (size toks1) 0) eqn:Z.
    + unfold scopeTokens_delete.
      rewrite map_get_delete_other by discriminate. rewrite G1, D, Z.
      rewrite (map_set_id storeKey_eq_dec (KScope sc) toks1
                 (map_delete storeKey_eq_dec (KTokens toks1) store1))
        by (rewrite map_get_delete_other by discriminate; exact G1).
      apply map_delete_idem.
    + unfold scopeTokens_delete. rewrite G1, D, Z.
      apply map_set_id, G1.
  - unfold scopeTokens_delete. rewrite G. reflexivity.
Qed.

(** Invoking a token again leaves the registry and every index as the
    first invocation left them, and returns whether the registry still has
    an entry for the token's key. *)
Lemma token_invoked_again (tok : token) (e : engine) :
  let e1 := fst (invoke_token tok e) in
  invoke_token tok e1 = (e1, map_has string_dec (tok_key tok) (subscriptions e1)).
Proof.
  cbn zeta.
  destruct (map_has string_dec (tok_key tok) (subscriptions e)) eqn:H.
  - assert (E1 : fst (invoke_token tok e) =
                 {| subscriptions := subscriptions_delete (tok_key tok) tok (subscriptions e);
                    subscriptionTokens := set_delete token_eq_dec tok (subscriptionTokens e);
                    callbackSubscriptionTokens :=
                      callbackTokens_delete (tok_callback tok) (tok_key tok) tok
                        (callbackSubscriptionTokens e);
                    scopeSubscriptionTokens :=
                      scopeTokens_delete (tok_scope tok) tok (scopeSubscriptionTokens e) |})
      by (unfold invoke_token; rewrite H; reflexivity).
    rewrite E1. unfold invoke_token.
    cbn [subscriptions subscriptionTokens callbackSubscriptionTokens scopeSubscriptionTokens].
    destruct (map_has string_dec (tok_key tok)
                (subscriptions_delete (tok_key tok) tok (subscriptions e))) eqn:H1;
      cbn [negb]; [| reflexivity].
    rewrite subscriptions_delete_idem, set_delete_idem, callbackTokens_delete_idem,
      scopeTokens_delete_idem. reflexivity.
  - assert (E1 : fst (invoke_token tok e) = e)
      by (unfold invoke_token; rewrite H; reflexivity).
    rewrite E1. unfold invoke_token. rewrite H. reflexivity.
Qed.

(** C2 (the code departs from it): with another live subscription under
    the same key, the second invocation of a token changes nothing but
    returns [true]: the token tests [subscriptions.has(subscriptionKey)],
    not its own registration.  Passing the token to [unsubscribe] a second
    time does return [false]. *)
Theorem token_second_invocation_shared_key :
  let f := UserFn 1 false in
  let g := UserFn 2 false in
  let tok := createSubscriptionToken 0 ScopeUndefined "a" f in
  let e := eng (run [Subscribe ScopeUndefined (VString "a") (VFunction f);
                     Subscribe ScopeUndefined (VString "a") (VFunction g)] pubsubFactory) in
  let e1 := fst (invoke_token tok e) in
  In tok (subscriptionTokens e) /\
  snd (invoke_token tok e) = true /\
  invoke_token tok e1 = (e1, true) /\
  unsubscribe (VFunction (fn_of_token tok)) VUndefined e1 = (e1, false).
Proof.
  cbn zeta. split; [left; reflexivity |]. split; [reflexivity |].
  split; [rewrite token_invoked_again |]; reflexivity.
Qed.

(* ================================================================== *)
(** ** hasSubscribers and publish *)



(** C5 as stated fails for a sticky RegExp: [/a/y] matches at its
    [lastIndex], which every match attempt moves.  With one subscription to
    it, [hasSubscribers] of [a] is [true], the [publish] of [a] that follows
    returns [false] and delivers nothing, and the next [publish] of [a]
    returns [true], the subscriptions being the same throughout. *)
Lemma hasSubscribers_then_publish_sticky :
  let f := UserFn 0 false in
  let w := run [Subscribe ScopeUndefined
                  (VRegExp (RegExpObject "a" "y" 0 (match_literal "a"))) (VFunction f)]
             pubsubFactory in
  let w1 := exec (HasSubscribers (Some "a")) w in
  let w2 := fst (publish "a" VUndefined true w1) in
  let entries (x : world) :=
    map (fun entry => (fst entry, callbacks (snd entry))) (subscriptions (eng x)) in
  hasSubscribers (Some "a") (eng w) = true /\
  snd (publish "a" VUndefined true w1) = false /\
  calls w2 = [] /\
  entries w1 = entries w /\ entries w2 = entries w /\
  subscriptionTokens (eng w2) = subscriptionTokens (eng w) /\
  snd (publish "a" VUndefined true w2) = true.
Proof. repeat split; reflexivity. Qed.

(** C5, as the code has it.  In every reachable state [hasSubscribers(t)]
    is [true] iff some registry entry's pattern matches [t] in that state,
    and it is the value [publish] returns for [t] from that state; when it
    is [false], [publish] returns [false], invokes no callback, schedules no
    timer and keeps every subscription: only the [lastIndex] of the
    patterns may have moved.  When no registered pattern is sticky, a match
    attempt for any topic [t'] changes no answer: [hasSubscribers(t)] and
    the result of [publish] for [t] are the same before and after it. *)
Theorem hasSubscribers_iff_publish (w : world) (t : string) :
  reachable w ->
  (hasSubscribers (Some t) (eng w) = true <->
   exists key sub,
     In (key, sub) (subscriptions (eng w)) /\
     re_test (subscriptionPattern sub) t = true) /\
  (forall data sync, snd (publish t data sync w) = hasSubscribers (Some t) (eng w)) /\
  (hasSubscribers (Some t) (eng w) = false ->
   forall data sync,
     publish t data sync w = (with_eng (matched t (eng w)) w, false) /\
     calls (fst (publish t data sync w)) = calls w /\
     timers (fst (publish t data sync w)) = timers w /\
     forall key tok cb,
       registered (eng (fst (publish t data sync w))) key tok cb <->
       registered (eng w) key tok cb) /\
  ((forall key sub, In (key, sub) (subscriptions (eng w)) ->
                    sticky (subscriptionPattern sub) = false) ->
   forall t',
     hasSubscribers (Some t) (eng (exec (HasSubscribers (Some t')) w)) =
     hasSubscribers (Some t) (eng w) /\
     forall data sync,
       snd (publish t data sync (exec (HasSubscribers (Some t')) w)) =
       hasSubscribers (Some t) (eng w)).
Proof.
  intros R. pose proof (reachable_consistent w R) as C.
  split; [| split; [| split]].
  - split.
    + intros H. apply hasSubscribers_callbacks, getCallbacks_nonempty in H
        as (key & sub & I & T & _). eauto.
    + intros (key & sub & I & T). apply hasSubscribers_callbacks, getCallbacks_nonempty.
      exists key, sub. repeat split; auto. eapply entries_nonempty; eauto.
  - intros data sync. apply publish_result.
  - intros H data sync.
    assert (E : publish t data sync w = (with_eng (matched t (eng w)) w, false)).
    { unfold publish. unfold hasSubscribers in H.
      destruct (getCallbacksForEventName t (eng w)); [reflexivity | discriminate]. }
    rewrite E. cbn [fst eng with_eng calls timers].
    split; [reflexivity |]. split; [reflexivity |]. split; [reflexivity |].
    intros key tok cb. apply registered_matched.
  - intros NS t'.
    assert (E : hasSubscribers (Some t) (eng (exec (HasSubscribers (Some t')) w)) =
                hasSubscribers (Some t) (eng w)).
    { cbn [exec eng with_eng]. unfold hasSubscribers.
      rewrite (getCallbacks_matched t' t (eng w) NS). reflexivity. }
    split; [exact E |]. intros data sync. rewrite publish_result. exact E.
Qed.

Lemma hasSubscribers_iff_publish_witness :
  let w := run [Subscribe ScopeUndefined (VString "test") (VFunction (UserFn 0 false));
                Subscribe ScopeUndefined
                  (VRegExp (RegExpObject "part" "g" 0 (match_literal "part")))
                  (VFunction (UserFn 1 false))]
             pubsubFactory in
  hasSubscribers (Some "test") (eng w) = true /\
  snd (publish "test" VUndefined false w) = true /\
  snd (publish "dummy-event" VUndefined true w) = false /\
  calls (fst (publish "dummy-event" VUndefined true w)) = [] /\
  snd (publish "a.part" VUndefined true (exec (HasSubscribers (Some "a.part")) w)) = true.
Proof.
  intros w.
  assert (R : reachable w) by (repeat apply reachable_step; apply reachable_init).
  destruct (hasSubscribers_iff_publish w "test" R) as (_ & P & _).
  destruct (hasSubscribers_iff_publish w "dummy-event" R) as (_ & _ & Q & _).
  destruct (hasSubscribers_iff_publish w "a.part" R) as (_ & _ & _ & S).
  split; [reflexivity |]. split; [rewrite P; reflexivity |].
  destruct (Q eq_refl VUndefined true) as (Q1 & Q2 & _).
  split; [rewrite Q1; reflexivity |]. split; [rewrite Q2; reflexivity |].
  assert (NS : forall key sub, In (key, sub) (subscriptions (eng w)) ->
                               sticky (subscriptionPattern sub) = false).
  { intros key sub [E | [E | []]]; injection E as _ <-; reflexivity. }
  destruct (S NS "a.part") as (_ & T). rewrite (T VUndefined true). reflexivity.
Defined.

(* ================================================================== *)
(** ** unsubscribeAll with the empty string *)

Lemma unsubscribeAll_empty_string sc e :
  unsubscribeAll sc (VString EmptyString) e = unsubscribeAll sc VUndefined e.
Proof. reflexivity. Qed.

Lemma unsubscribeAll_root e :
  fst (unsubscribeAll ScopeUndefined VUndefined e) = invoke_each (subscriptionTokens e) e.
Proof. unfold unsubscribeAll, returning. cbn. apply invoke_all_each. Qed.

Lemma unsubscribeAll_scope n e :
  fst (unsubscribeAll (ScopeSymbol n) VUndefined e) =
  invoke_each (scope_tokens (ScopeSymbol n) (scopeSubscriptionTokens e)) e.
Proof.
  unfold unsubscribeAll, returning, scope_tokens. cbn.
  destruct (map_get storeKey_eq_dec (KScope (ScopeSymbol n)) (scopeSubscriptionTokens e)).
  - cbn. apply invoke_all_each.
  - reflexivity.
Qed.

(** C10: [unsubscribeAll] with the empty string is [unsubscribeAll()].  In every reachable
    state, on the root API it leaves the registry, the all-tokens set and
    the callback index empty; on an isolated scope it leaves no subscription
    of that scope registered, under any key, and keeps every subscription of
    the other scopes. *)
Theorem unsubscribeAll_empty_string_is_no_specifier (w : world) (sc : scope) :
  reachable w ->
  let e := eng w in
  let e' := fst (unsubscribeAll sc (VString EmptyString) e) in
  unsubscribeAll sc (VString EmptyString) e = unsubscribeAll sc VUndefined e /\
  (sc = ScopeUndefined ->
   subscriptions e' = [] /\ subscriptionTokens e' = [] /\
   callbackSubscriptionTokens e' = []) /\
  (forall key tok cb, registered e' key tok cb -> tok_scope tok <> sc) /\
  (sc <> ScopeUndefined ->
   forall key tok cb, tok_scope tok <> sc ->
                      (registered e' key tok cb <-> registered e key tok cb)).
Proof.
  intros R e e'. pose proof (reachable_consistent w R) as C. fold e in C.
  split; [reflexivity |].
  assert (ROOT : sc = ScopeUndefined -> forall key tok cb, ~ registered e' key tok cb).
  { intros -> key tok cb Rg. subst e'. rewrite unsubscribeAll_empty_string in Rg.
    rewrite unsubscribeAll_root in Rg.
    assert (I : In tok (subscriptionTokens e)).
    { eapply registered_live; [exact C |].
      eapply (ro_registered_old _ _ _ (removes_only_invoke_each _ e)), Rg. }
    exact (invoke_each_removes _ e C tok I key cb Rg). }
  split; [| split].
  - intros E. apply nothing_registered_empty; [| apply ROOT, E].
    subst e'. apply consistent_unsubscribeAll, C.
  - intros key tok cb Rg Es. destruct sc as [| n].
    + exact (ROOT eq_refl key tok cb Rg).
    + subst e'. rewrite unsubscribeAll_empty_string, unsubscribeAll_scope in Rg.
      pose proof (ro_registered_old _ _ _ (removes_only_invoke_each _ e) _ _ _ Rg) as R0.
      pose proof (registered_scoped e C _ _ _ R0) as (toks & G & I).
      rewrite Es in G.
      refine (invoke_each_removes _ e C tok _ key cb Rg).
      unfold scope_tokens. rewrite G. exact I.
  - intros N key tok cb Ns. destruct sc as [| n]; [congruence |].
    subst e'. rewrite unsubscribeAll_empty_string, unsubscribeAll_scope.
    split.
    + apply (ro_registered_old _ _ _ (removes_only_invoke_each _ e)).
    + apply (ro_registered_kept _ _ _ (removes_only_invoke_each _ e)).
      unfold scope_tokens.
      destruct (map_get storeKey_eq_dec (KScope (ScopeSymbol n)) (scopeSubscriptionTokens e))
        as [toks |] eqn:G; [| intros []].
      intros I. apply Ns. eapply scoped_registered; [exact C |]. exists toks. eauto.
Qed.

Lemma unsubscribeAll_empty_string_is_no_specifier_witness :
  let w := run [Subscribe ScopeUndefined (VString EmptyString) (VFunction (UserFn 0 false));
                Subscribe ScopeUndefined (VString "a") (VFunction (UserFn 1 false));
                Subscribe (ScopeSymbol 7) (VString "b") (VFunction (UserFn 2 false))]
             pubsubFactory in
  subscriptions (eng w) <> [] /\
  subscriptions (fst (unsubscribeAll ScopeUndefined (VString EmptyString) (eng w))) = [].
Proof.
  intros w. split; [vm_compute; discriminate |].
  assert (R : reachable w) by (repeat apply reachable_step; apply reachable_init).
  destruct (unsubscribeAll_empty_string_is_no_specifier w ScopeUndefined R) as (_ & E & _).
  apply E. reflexivity.
Defined.

(* ================================================================== *)
(** ** unsubscribe by callback *)

Lemma unsubscribe_by_callback f e :
  is_live_token f e = false ->
  fst (unsubscribe (VFunction f) VUndefined e) =
  invoke_each (flat_map snd (index_inner f (callbackSubscriptionTokens e))) e.
Proof.
  intros L. unfold unsubscribe, unsubscribe_tokens. rewrite L, invoke_all_each.
  unfold known_callback, index_inner.
  destruct (map_get fn_eq_dec f (callbackSubscriptionTokens e)); reflexivity.
Qed.

Lemma collected_tokens_callback f e tok :
  consistent e ->
  In tok (flat_map snd (index_inner f (callbackSubscriptionTokens e))) <->
  exists key, registered e key tok f.
Proof.
  intros C. unfold index_inner. split.
  - destruct (map_get fn_eq_dec f (callbackSubscriptionTokens e)) as [inner |] eqn:G;
      [| intros []].
    intros I. apply in_flat_map in I as ([key toks] & I & It). cbn in It.
    exists key. apply (indexed_registered e C). exists inner, toks. repeat split; auto.
    apply In_get_NoDup; [apply (index_keys_unique e C f inner G) | exact I].
  - intros (key & Rg). apply (registered_indexed e C) in Rg as (inner & toks & G & Gk & I).
    rewrite G. apply in_flat_map. exists (key, toks). split; [| exact I].
    apply map_get_In with (eq_dec := string_dec). exact Gk.
Qed.

(** C9, as the code has it: for a callback [f] that is not itself a live
    token, [unsubscribe(f)] leaves no subscription of [f] in the registry,
    no entry for [f] in the callback index and no token of [f] in the
    all-tokens set, and every subscription of another callback stays in the
    registry and in the three indexes. *)
Theorem unsubscribe_callback_removes_only_it (w : world) (f : fn) :
  reachable w ->
  is_live_token f (eng w) = false ->
  let e := eng w in
  let e' := fst (unsubscribe (VFunction f) VUndefined e) in
  (forall key tok, ~ registered e' key tok f) /\
  map_get fn_eq_dec f (callbackSubscriptionTokens e') = None /\
  (forall tok, In tok (subscriptionTokens e') -> tok_callback tok <> f) /\
  (forall key tok cb, cb <> f -> (registered e' key tok cb <-> registered e key tok cb)) /\
  (forall tok, tok_callback tok <> f ->
               (In tok (subscriptionTokens e') <-> In tok (subscriptionTokens e))) /\
  (forall g, g <> f ->
             map_get fn_eq_dec g (callbackSubscriptionTokens e') =
             map_get fn_eq_dec g (callbackSubscriptionTokens e)) /\
  (forall sc tok, tok_callback tok <> f -> (scoped e' sc tok <-> scoped e sc tok)).
Proof.
  intros R L e e'. pose proof (reachable_consistent w R) as C. fold e in C, L.
  subst e'. rewrite (unsubscribe_by_callback f e L).
  set (ts := flat_map snd (index_inner f (callbackSubscriptionTokens e))).
  pose proof (removes_only_invoke_each ts e) as RO.
  pose proof (consistent_invoke_each ts e C) as C'.
  assert (TS : forall t, In t ts -> tok_callback t = f).
  { intros t I. apply (collected_tokens_callback f e t C) in I as (key & Rg).
    destruct (registered_env e C _ _ _ Rg) as [_ E]. exact E. }
  assert (GONE : forall key tok, ~ registered (invoke_each ts e) key tok f).
  { intros key tok Rg.
    assert (I : In tok ts).
    { apply (collected_tokens_callback f e tok C). exists key.
      eapply ro_registered_old; eauto. }
    exact (invoke_each_removes ts e C tok I key f Rg). }
  assert (OUT : forall tok, tok_callback tok <> f -> ~ In tok ts)
    by (intros tok N I; apply N, TS, I).
  split; [exact GONE |]. split; [| split; [| split; [| split; [| split]]]].
  - destruct (map_get fn_eq_dec f (callbackSubscriptionTokens (invoke_each ts e)))
      as [inner |] eqn:G; [| reflexivity].
    exfalso. destruct (index_nonempty _ C' f inner G) as [NE NS].
    destruct inner as [| [key toks] inner']; [congruence |].
    assert (I : In (key, toks) ((key, toks) :: inner')) by (left; reflexivity).
    pose proof (NS key toks I) as NT. destruct toks as [| tok toks']; [congruence |].
    apply (GONE key tok). apply (indexed_registered _ C').
    exists ((key, tok :: toks') :: inner'), (tok :: toks'). repeat split.
    + exact G.
    + apply In_get_NoDup; [apply (index_keys_unique _ C' f _ G) | exact I].
    + left. reflexivity.
  - intros tok I E. apply (live_registered _ C') in I. rewrite E in I.
    exact (GONE _ _ I).
  - intros key tok cb N. split.
    + apply (ro_registered_old _ _ _ RO).
    + intros Rg. apply (ro_registered_kept _ _ _ RO); [| exact Rg].
      apply OUT. destruct (registered_env e C _ _ _ Rg) as [_ ->]. exact N.
  - intros tok N. split.
    + apply (ro_live_old _ _ _ RO).
    + apply (ro_live_kept _ _ _ RO), OUT, N.
  - intros g N. apply (ro_index_kept _ _ _ RO).
    intros t I. rewrite (TS t I). auto.
  - intros sc tok N. split.
    + apply (ro_scoped_old _ _ _ RO).
    + apply (ro_scoped_kept _ _ _ RO), OUT, N.
Qed.

Lemma unsubscribe_callback_removes_only_it_witness :
  let f := UserFn 1 false in
  let g := UserFn 2 false in
  let w := run [Subscribe ScopeUndefined (VString "a") (VFunction f);
                Subscribe ScopeUndefined (VString "a") (VFunction g);
                Subscribe ScopeUndefined (VString "b") (VFunction f)] pubsubFactory in
  let e' := fst (unsubscribe (VFunction f) VUndefined (eng w)) in
  is_live_token f (eng w) = false /\
  (forall key tok, ~ registered e' key tok f) /\
  map_get fn_eq_dec f (callbackSubscriptionTokens e') = None.
Proof.
  intros f g w e'.
  assert (R : reachable w) by (repeat apply reachable_step; apply reachable_init).
  assert (L : is_live_token f (eng w) = false) by reflexivity.
  destruct (unsubscribe_callback_removes_only_it w f R L) as (A & B & _).
  split; [exact L |]. split; [exact A | exact B].
Defined.

(** C9 as stated fails: a live token that is also registered as a callback
    is taken for a token; [unsubscribe] removes the token's own subscription
    (of another callback) and keeps the subscription it is the callback of. *)
Lemma unsubscribe_token_used_as_callback :
  let g := UserFn 1 false in
  let t1 := createSubscriptionToken 0 ScopeUndefined "a" g in
  let f := fn_of_token t1 in
  let t2 := createSubscriptionToken 1 ScopeUndefined "b" f in
  let e := eng (run [Subscribe ScopeUndefined (VString "a") (VFunction g);
                     Subscribe ScopeUndefined (VString "b") (VFunction f)] pubsubFactory) in
  let e' := fst (unsubscribe (VFunction f) VUndefined e) in
  registered e "b" t2 f /\ registered e "a" t1 g /\
  registered e' "b" t2 f /\ ~ registered e' "a" t1 g.
Proof.
  cbn zeta. repeat split.
  - eexists. split; reflexivity.
  - eexists. split; reflexivity.
  - eexists. split; reflexivity.
  - intros (sub & E & _). vm_compute in E. discriminate.
Qed.

(* ================================================================== *)
(** ** Calls and deliveries only invoke tokens *)

Lemma invoke_each_app ts1 ts2 e :
  invoke_each (ts1 ++ ts2) e = invoke_each ts2 (invoke_each ts1 e).
Proof. unfold invoke_each. apply fold_left_app. Qed.

Lemma call_engine f eventName data : forall w,
  exists ts,
    eng (fst (call f eventName data w)) = invoke_each ts (eng w) /\
    nextId (fst (call f eventName data w)) = nextId w.
Proof.
  induction f as [id throws | id sc key cb IH | id cb IH]; intros w; cbn [call].
  - exists []. split; reflexivity.
  - exists [createSubscriptionToken id sc key cb]. split; reflexivity.
  - cbn [onceTokens record_call].
    destruct (map_get Nat.eq_dec id (onceTokens w)) as [v |].
    + match goal with |- context [call cb eventName data ?w1] =>
        destruct (IH w1) as (ts & E & N) end.
      exists (unsubscribe_tokens v VUndefined (eng w) ++ ts).
      rewrite E, N, invoke_each_app. cbn [eng nextId with_eng record_call].
      unfold unsubscribe. rewrite invoke_all_each. split; reflexivity.
    + exists []. split; reflexivity.
Qed.

Lemma deliver_engine d : forall w,
  exists ts,
    eng (deliver d w) = invoke_each ts (eng w) /\ nextId (deliver d w) = nextId w.
Proof.
  destruct d as [[callbacks eventName] data]. unfold deliver.
  induction callbacks as [| f callbacks IH]; intros w; cbn [fold_left].
  - exists []. split; reflexivity.
  - destruct (IH (fst (call f eventName data w))) as (ts2 & E2 & N2).
    destruct (call_engine f eventName data w) as (ts1 & E1 & N1).
    exists (ts1 ++ ts2). rewrite E2, N2, E1, N1, invoke_each_app. split; reflexivity.
Qed.

Lemma ids_below_invoke_each ts w e' n :
  ids_below w -> e' = invoke_each ts (eng w) -> nextId w <= n ->
  forall tok, In tok (subscriptionTokens e') -> tok_id tok < n.
Proof.
  intros I -> L tok H.
  apply (ro_live_old _ _ _ (removes_only_invoke_each ts (eng w))) in H.
  apply I in H. lia.
Qed.

Lemma ids_below_subscribe sc eventName callback w :
  ids_below w -> ids_below (fst (subscribe sc eventName callback w)).
Proof.
  intros I. unfold subscribe.
  destruct (negb (isFunction callback) || negb (isValidEventName eventName)); [exact I |].
  destruct callback; try exact I.
  destruct (createSubscriptionKey eventName) as [key |]; [| exact I].
  destruct (createSubscriptionPattern eventName) as [pat |]; [| exact I].
  unfold register, ids_below. cbn [fst eng fresh with_eng nextId subscriptionTokens].
  intros tok H. apply In_set_add in H as [-> | H].
  - cbn. lia.
  - apply I in H. lia.
Qed.

Lemma ids_below_fresh w : ids_below w -> ids_below (fresh w).
Proof. intros I tok H. apply I in H. cbn. lia. Qed.

Lemma ids_below_matched eventName w :
  ids_below w -> ids_below (with_eng (matched eventName (eng w)) w).
Proof. intros I. exact I. Qed.

Lemma subscriptionTokens_set_lastIndex key n e :
  subscriptionTokens (set_lastIndex key n e) = subscriptionTokens e.
Proof.
  unfold set_lastIndex. destruct (map_get string_dec key (subscriptions e)); reflexivity.
Qed.

Lemma scopeSubscriptionTokens_set_lastIndex key n e :
  scopeSubscriptionTokens (set_lastIndex key n e) = scopeSubscriptionTokens e.
Proof.
  unfold set_lastIndex. destruct (map_get string_dec key (subscriptions e)); reflexivity.
Qed.

Lemma ids_below_exec o w : ids_below w -> ids_below (exec o w).
Proof.
  intros I. destruct o; cbn [exec].
  - apply ids_below_fresh, I.
  - apply ids_below_subscribe, I.
  - unfold subscribeOnce. destruct (negb (isFunction callback)); [exact I |].
    destruct callback; try exact I.
    pose proof (ids_below_subscribe sc eventName (VFunction (OnceFn (nextId w) f))
                  (fresh w) (ids_below_fresh w I)) as S.
    destruct (subscribe sc eventName (VFunction (OnceFn (nextId w) f)) (fresh w)) as [w1 r].
    destruct r; exact S.
  - pose proof (ids_below_matched eventName w I) as IM.
    unfold publish. destruct (Nat.eqb _ 0); [exact IM |].
    destruct sync; cbn [fst]; [| exact IM].
    destruct (deliver_engine (getCallbacksForEventName eventName (eng w), eventName, data)
                (with_eng (matched eventName (eng w)) w)) as (ts & E & N).
    intros tok. rewrite N. apply (ids_below_invoke_each ts _ _ _ IM E). lia.
  - intros tok'. cbn [eng nextId with_eng]. unfold unsubscribe. rewrite invoke_all_each.
    apply (ids_below_invoke_each _ w _ _ I eq_refl). lia.
  - intros tok'. cbn [eng nextId with_eng].
    assert (E : exists ts, fst (unsubscribeAll sc eventName (eng w)) = invoke_each ts (eng w)).
    { unfold unsubscribeAll, returning.
      repeat match goal with
             | |- context [if ?b then _ else _] => destruct b
             | |- context [match ?x with Some _ => _ | None => _ end] => destruct x
             end; cbn [fst];
        try (exists []; reflexivity); rewrite invoke_all_each; eexists; reflexivity. }
    destruct E as (ts & ->). apply (ids_below_invoke_each ts w _ _ I eq_refl). lia.
  - intros tok'. cbn [eng nextId with_eng].
    apply (ids_below_invoke_each [tok] w _ _ I eq_refl). lia.
  - unfold runTimer. destruct (timers w) as [| d rest]; [exact I |].
    destruct (deliver_engine d (with_timers rest w)) as (ts & E & N).
    intros tok. rewrite N. cbn [nextId with_timers].
    apply (ids_below_invoke_each ts (with_timers rest w) _ _ I E). cbn. lia.
  - destruct eventName as [name |]; exact I.
  - intros tok'. cbn [eng nextId with_eng]. rewrite subscriptionTokens_set_lastIndex.
    apply I.
Qed.

Lemma reachable_ids_below w : reachable w -> ids_below w.
Proof.
  induction 1 as [| o w R IH].
  - intros tok [].
  - apply ids_below_exec, IH.
Qed.

(** Any property of the stores kept by registering and by invoking a token
    holds in every reachable state. *)
Lemma reachable_engine_ind (P : engine -> Prop) :
  P empty_engine ->
  (forall t e, P e -> P (fst (invoke_token t e))) ->
  (forall id sc key pat cb e, P e -> P (fst (register id sc key pat cb e))) ->
  (forall eventName e, P e -> P (matched eventName e)) ->
  (forall key n e, P e -> P (set_lastIndex key n e)) ->
  forall w, reachable w -> P (eng w).
Proof.
  intros P0 PT PR PM PL.
  assert (PE : forall ts e, P e -> P (invoke_each ts e)) by (apply invoke_each_ind, PT).
  assert (PS : forall sc eventName callback w,
             P (eng w) -> P (eng (fst (subscribe sc eventName callback w)))).
  { intros sc eventName callback w H. unfold subscribe.
    destruct (negb (isFunction callback) || negb (isValidEventName eventName)); [exact H |].
    destruct callback; try exact H.
    destruct (createSubscriptionKey eventName) as [key |]; [| exact H].
    destruct (createSubscriptionPattern eventName) as [pat |]; [| exact H].
    pose proof (PR (nextId w) sc key pat f (eng w) H) as R.
    destruct (register (nextId w) sc key pat f (eng w)) as [e1 tok]. exact R. }
  induction 1 as [| o w R IH]; [exact P0 |].
  destruct o; cbn [exec].
  - exact IH.
  - apply PS, IH.
  - unfold subscribeOnce. destruct (negb (isFunction callback)); [exact IH |].
    destruct callback; try exact IH.
    pose proof (PS sc eventName (VFunction (OnceFn (nextId w) f)) (fresh w) IH) as S.
    destruct (subscribe sc eventName (VFunction (OnceFn (nextId w) f)) (fresh w)) as [w1 r].
    destruct r; exact S.
  - pose proof (PM eventName (eng w) IH) as IM.
    unfold publish. destruct (Nat.eqb _ 0); [exact IM |].
    destruct sync; cbn [fst]; [| exact IM].
    destruct (deliver_engine (getCallbacksForEventName eventName (eng w), eventName, data)
                (with_eng (matched eventName (eng w)) w)) as (ts & -> & _).
    apply PE, IM.
  - cbn [eng with_eng]. unfold unsubscribe. rewrite invoke_all_each. apply PE, IH.
  - cbn [eng with_eng]. unfold unsubscribeAll, returning.
    repeat match goal with
           | |- context [if ?b then _ else _] => destruct b
           | |- context [match ?x with Some _ => _ | None => _ end] => destruct x
           end; cbn [fst]; try exact IH; rewrite invoke_all_each; apply PE, IH.
  - cbn [eng with_eng]. apply PT, IH.
  - unfold runTimer. destruct (timers w) as [| d rest]; [exact IH |].
    destruct (deliver_engine d (with_timers rest w)) as (ts & -> & _). apply PE, IH.
  - destruct eventName as [name |]; [apply PM, IH | exact IH].
  - cbn [eng with_eng]. apply PL, IH.
Qed.

Lemma reachable_scope_keys_ok w : reachable w -> scope_keys_ok (eng w).
Proof.
  apply (reachable_engine_ind scope_keys_ok).
  - intros k toks [].
  - intros t e H. destruct (map_has string_dec (tok_key t) (subscriptions e)) eqn:M.
    + rewrite invoke_token_present by exact M. unfold scope_keys_ok.
      cbn [fst scopeSubscriptionTokens]. unfold scopeTokens_delete.
      destruct (map_get storeKey_eq_dec (KScope (tok_scope t)) (scopeSubscriptionTokens e));
        [| exact H].
      intros k toks I.
      assert (I' : In (k, toks)
                     (map_set storeKey_eq_dec (KScope (tok_scope t))
                        (set_delete token_eq_dec t l) (scopeSubscriptionTokens e))).
      { destruct (Nat.eqb _ 0); [apply In_map_delete in I; tauto | exact I]. }
      apply In_map_set in I' as [[-> _] | I']; [eauto | eapply H, I'].
    + rewrite invoke_token_absent by exact M. exact H.
  - intros id sc key pat cb e H. unfold register, scope_keys_ok.
    cbn [fst scopeSubscriptionTokens]. rewrite scopeTokens_add_eq.
    intros k toks I. apply In_map_set in I as [[-> _] | I]; [eauto | eapply H, I].
  - intros eventName e H. exact H.
  - intros key n e H. unfold scope_keys_ok. rewrite scopeSubscriptionTokens_set_lastIndex.
    exact H.
Qed.


(* ================================================================== *)
(** ** subscribe *)

Lemma subscribe_valid sc eventName f w :
  isValidEventName eventName = true ->
  exists key pat,
    createSubscriptionKey eventName = Some key /\
    createSubscriptionPattern eventName = Some pat /\
    subscribe sc eventName (VFunction f) w =
    (fresh (with_eng (fst (register (nextId w) sc key pat f (eng w))) w),
     Return (VFunction (fn_of_token (createSubscriptionToken (nextId w) sc key f)))).
Proof.
  intros V. unfold subscribe. rewrite V. cbn [isFunction negb orb].
  destruct eventName as [| | b | n | s | r | g | so | i]; try discriminate.
  - cbn [createSubscriptionKey]. rewrite createSubscriptionPattern_string.
    eexists. eexists. repeat split.
  - cbn [createSubscriptionKey createSubscriptionPattern].
    eexists. eexists. repeat split.
Qed.

(** X1: [subscribe] and [subscribeOnce] never raise, whatever they are
    given: the pattern built from a string always compiles. *)
Theorem subscribe_never_raises sc (eventName callback : value) (w : world) :
  raises (snd (subscribe sc eventName callback w)) = false /\
  raises (snd (subscribeOnce sc eventName callback w)) = false.
Proof.
  assert (S : forall sc eventName callback w,
             raises (snd (subscribe sc eventName callback w)) = false).
  { intros sc0 ev cb w0. destruct cb; try reflexivity.
    destruct (isValidEventName ev) eqn:V.
    - destruct (subscribe_valid sc0 ev f w0 V) as (key & pat & _ & _ & ->). reflexivity.
    - unfold subscribe. rewrite V. reflexivity. }
  split; [apply S |].
  unfold subscribeOnce. destruct callback; try reflexivity. cbn [isFunction negb].
  pose proof (S sc eventName (VFunction (OnceFn (nextId w) f)) (fresh w)) as H.
  destruct (subscribe sc eventName (VFunction (OnceFn (nextId w) f)) (fresh w)) as [w1 r].
  destruct r; exact H.
Qed.

(** X2: two valid topic specifiers that get the same lookup key are the same
    literal: distinct literals have distinct keys, and the key of a literal
    is never the key of a RegExp. *)
Theorem literal_key_determines_specifier (s : string) (v : value) :
  isValidEventName v = true ->
  createSubscriptionKey v = createSubscriptionKey (VString s) ->
  v = VString s.
Proof.
  intros V E. destruct v as [| | b | n | s' | r | g | so | i]; try discriminate.
  - cbn in E. injection E as E. apply escapeRegexpCharacters_injective in E. congruence.
  - exfalso. cbn in E. injection E as E.
    destruct r; cbn in E; symmetry in E; revert E; apply escapeRegexpCharacters_not_slash.
Qed.

Lemma literal_key_determines_specifier_witness :
  createSubscriptionKey (VString "a.b") = Some "a\.b" /\ VString "a.b" = VString "a.b".
Proof.
  split; [reflexivity |].
  apply (literal_key_determines_specifier "a.b" (VString "a.b")); reflexivity.
Defined.

(** X3: in every reachable state the registry and the three indexes hold
    the same tokens, each under the key, callback and scope it was created
    with. *)
Theorem reachable_stores_agree (w : world) (tok : token) :
  reachable w ->
  let e := eng w in
  let held := registered e (tok_key tok) tok (tok_callback tok) in
  (In tok (subscriptionTokens e) <-> held) /\
  (indexed e (tok_callback tok) (tok_key tok) tok <-> held) /\
  (scoped e (tok_scope tok) tok <-> held) /\
  (forall key cb, registered e key tok cb -> key = tok_key tok /\ cb = tok_callback tok) /\
  (forall cb key, indexed e cb key tok -> key = tok_key tok /\ cb = tok_callback tok) /\
  (forall sc, scoped e sc tok -> sc = tok_scope tok).
Proof.
  intros R e held. pose proof (reachable_consistent w R) as C. fold e in C.
  assert (ENV : forall key cb, registered e key tok cb ->
                               key = tok_key tok /\ cb = tok_callback tok).
  { intros key cb Rg. destruct (registered_env e C _ _ _ Rg). auto. }
  split; [| split; [| split; [| split; [| split]]]].
  - split; [apply (live_registered e C) | apply (registered_live e C)].
  - split; [apply (indexed_registered e C) | apply (registered_indexed e C)].
  - split; [intros S; apply (scoped_registered e C _ _ S) | apply (registered_scoped e C)].
  - exact ENV.
  - intros cb key I. apply ENV, (indexed_registered e C), I.
  - intros sc S. symmetry. apply (scoped_registered e C _ _ S).
Qed.

Lemma reachable_stores_agree_witness :
  let w := run [Subscribe (ScopeSymbol 3) (VString "a") (VFunction (UserFn 0 false))]
             pubsubFactory in
  let tok := createSubscriptionToken 0 (ScopeSymbol 3) "a" (UserFn 0 false) in
  In tok (subscriptionTokens (eng w)) /\ scoped (eng w) (ScopeSymbol 3) tok.
Proof.
  intros w tok.
  assert (R : reachable w) by (apply reachable_step, reachable_init).
  destruct (reachable_stores_agree w tok R) as (A & _ & B & _).
  assert (L : In tok (subscriptionTokens (eng w))) by (left; reflexivity).
  split; [exact L |]. apply B, A, L.
Defined.

(** X4: with a callable callback and a valid specifier, in every reachable
    state [subscribe] returns a token that was not live before, carrying the
    scope, the key of the specifier and the callback, and registers it. *)
Theorem subscribe_returns_fresh_token (w : world) sc (eventName : value) (f : fn) :
  reachable w ->
  isValidEventName eventName = true ->
  let r := subscribe sc eventName (VFunction f) w in
  exists tok,
    snd r = Return (VFunction (fn_of_token tok)) /\
    tok_scope tok = sc /\ tok_callback tok = f /\
    createSubscriptionKey eventName = Some (tok_key tok) /\
    ~ In tok (subscriptionTokens (eng w)) /\
    In tok (subscriptionTokens (eng (fst r))) /\
    registered (eng (fst r)) (tok_key tok) tok f /\
    nextId (fst r) = S (nextId w).
Proof.
  intros R V r. subst r.
  destruct (subscribe_valid sc eventName f w V) as (key & pat & EK & _ & ->).
  exists (createSubscriptionToken (nextId w) sc key f). cbn [fst snd].
  repeat split; try assumption.
  - intros I. apply (reachable_ids_below w R) in I. cbn in I. lia.
  - cbn [eng fresh with_eng register fst subscriptionTokens]. apply In_set_add. auto.
  - unfold registered. cbn [eng fresh with_eng register fst subscriptions].
    apply registered_in_add. left. repeat split.
Qed.

Lemma subscribe_returns_fresh_token_witness :
  let w := run [Subscribe ScopeUndefined (VString "test") (VFunction (UserFn 0 false))]
             pubsubFactory in
  exists tok,
    snd (subscribe ScopeUndefined (VString "test") (VFunction (UserFn 0 false)) w)
      = Return (VFunction (fn_of_token tok)) /\
    ~ In tok (subscriptionTokens (eng w)).
Proof.
  intros w.
  assert (R : reachable w) by (apply reachable_step, reachable_init).
  destruct (subscribe_returns_fresh_token w ScopeUndefined (VString "test") (UserFn 0 false)
              R eq_refl) as (tok & A & _ & _ & _ & B & _).
  exists tok. split; [exact A | exact B].
Defined.

(* ================================================================== *)
(** ** hasSubscribers and the callbacks a publish resolves *)

(** X5: in every reachable state [hasSubscribers()] without an argument is
    [true] iff some token is live. *)
Theorem hasSubscribers_any_iff_live (w : world) :
  reachable w ->
  (hasSubscribers None (eng w) = true <-> subscriptionTokens (eng w) <> []).
Proof.
  intros R. pose proof (reachable_consistent w R) as C.
  unfold hasSubscribers. split.
  - intros H E.
    destruct (subscriptions (eng w)) as [| [key sub] rest] eqn:Es; [discriminate |].
    assert (I : In (key, sub) (subscriptions (eng w))) by (rewrite Es; left; reflexivity).
    pose proof (entries_nonempty _ C key sub I) as NE.
    destruct (callbacks sub) as [| [tok cb] cbs] eqn:Ec; [congruence |].
    assert (Rg : registered (eng w) key tok cb).
    { exists sub. split.
      - apply In_get_NoDup; [apply (keys_unique _ C) | exact I].
      - apply In_get_NoDup; [apply (tokens_unique _ C key sub I) | rewrite Ec; left; auto]. }
    apply (registered_live _ C) in Rg. rewrite E in Rg. destruct Rg.
  - intros H. destruct (subscriptionTokens (eng w)) as [| tok rest] eqn:Et; [congruence |].
    assert (L : In tok (subscriptionTokens (eng w))) by (rewrite Et; left; reflexivity).
    apply (live_registered _ C) in L as (sub & G & _).
    destruct (subscriptions (eng w)); [discriminate | reflexivity].
Qed.

Lemma hasSubscribers_any_iff_live_witness :
  let tok := createSubscriptionToken 0 ScopeUndefined "test" (UserFn 0 false) in
  let w := run [Subscribe ScopeUndefined (VString "test") (VFunction (UserFn 0 false));
                Unsubscribe (VFunction (fn_of_token tok)) VUndefined] pubsubFactory in
  hasSubscribers None (eng w) = false.
Proof.
  intros tok w.
  assert (R : reachable w) by (repeat apply reachable_step; apply reachable_init).
  destruct (hasSubscribers_any_iff_live w R) as [A _].
  destruct (hasSubscribers None (eng w)); [| reflexivity].
  exfalso. apply (A eq_refl). reflexivity.
Defined.

(* ================================================================== *)
(** ** unsubscribe *)

Lemma token_of_fn_of_token t : token_of_fn (fn_of_token t) = Some t.
Proof. destruct t. reflexivity. Qed.

Lemma invoke_token_live e tok :
  consistent e -> In tok (subscriptionTokens e) ->
  snd (invoke_token tok e) = true.
Proof.
  intros C L. apply (live_registered _ C) in L as (sub & G & _).
  rewrite invoke_token_present; [reflexivity |].
  apply map_has_get. eauto.
Qed.

Lemma invoke_all_snd_true ts : forall e,
  snd (fold_left
         (fun acc tok => let (e1, r) := invoke_token tok (fst acc) in (e1, r || snd acc))
         ts (e, true)) = true.
Proof.
  induction ts as [| t ts IH]; intros e; cbn [fold_left fst snd]; [reflexivity |].
  destruct (invoke_token t e) as [e1 r]. rewrite orb_true_r. apply IH.
Qed.

Lemma invoke_all_first t ts e :
  snd (invoke_token t e) = true -> snd (invoke_all (t :: ts) e) = true.
Proof.
  intros H. unfold invoke_all. cbn [fold_left fst snd].
  destruct (invoke_token t e) as [e1 r]. cbn in H. subst r. apply invoke_all_snd_true.
Qed.

Lemma unsubscribe_tokens_live e a b tok :
  consistent e -> In tok (unsubscribe_tokens a b e) -> In tok (subscriptionTokens e).
Proof.
  intros C. unfold unsubscribe_tokens.
  assert (IDX : forall f key inner toks,
             map_get fn_eq_dec f (callbackSubscriptionTokens e) = Some inner ->
             In (key, toks) inner -> In tok toks -> In tok (subscriptionTokens e)).
  { intros f key inner toks G I It.
    apply (registered_live e C key tok f), (indexed_registered e C).
    exists inner, toks. repeat split; auto.
    apply In_get_NoDup; [apply (index_keys_unique e C f inner G) | exact I]. }
  destruct a as [| | bo | n | s | r | f | so | i].
  1-5, 8-9: cbn [isValidEventName isString isRegExp orb]; try (intros []).
  - destruct b; cbn [known_callback]; try (intros []).
    destruct (map_get fn_eq_dec f (callbackSubscriptionTokens e)) as [inner |] eqn:G;
      [| intros []].
    cbn [createSubscriptionKey].
    destruct (map_get string_dec (escapeRegexpCharacters s) inner) as [toks |] eqn:Gk;
      [| intros []].
    intros It. apply (IDX f (escapeRegexpCharacters s) inner toks G); [| exact It].
    apply map_get_In with (eq_dec := string_dec). exact Gk.
  - destruct b; cbn [known_callback]; try (intros []).
    destruct (map_get fn_eq_dec f (callbackSubscriptionTokens e)) as [inner |] eqn:G;
      [| intros []].
    cbn [createSubscriptionKey].
    destruct (map_get string_dec (re_toString r) inner) as [toks |] eqn:Gk; [| intros []].
    intros It. apply (IDX f (re_toString r) inner toks G); [| exact It].
    apply map_get_In with (eq_dec := string_dec). exact Gk.
  - unfold is_live_token. destruct (token_of_fn f) as [t |] eqn:T.
    + destruct (set_has token_eq_dec t (subscriptionTokens e)) eqn:L.
      * intros [<- | []]. apply set_has_In in L. exact L.
      * cbn [known_callback].
        destruct (map_get fn_eq_dec f (callbackSubscriptionTokens e)) as [inner |] eqn:G;
          [| intros []].
        intros I. apply in_flat_map in I as ([key toks] & I & It).
        apply (IDX f key inner toks G I It).
    + cbn [known_callback].
      destruct (map_get fn_eq_dec f (callbackSubscriptionTokens e)) as [inner |] eqn:G;
        [| intros []].
      intros I. apply in_flat_map in I as ([key toks] & I & It).
      apply (IDX f key inner toks G I It).
Qed.

(** X7: in every reachable state [unsubscribe] collects live tokens only;
    it returns [true] iff it collected one, and when it returns [false] the
    stores are unchanged. *)
Theorem unsubscribe_result (w : world) (a b : value) :
  reachable w ->
  let e := eng w in
  (forall tok, In tok (unsubscribe_tokens a b e) -> In tok (subscriptionTokens e)) /\
  (snd (unsubscribe a b e) = true <-> unsubscribe_tokens a b e <> []) /\
  (snd (unsubscribe a b e) = false -> fst (unsubscribe a b e) = e).
Proof.
  intros R e. pose proof (reachable_consistent w R) as C. fold e in C.
  assert (L : forall tok, In tok (unsubscribe_tokens a b e) -> In tok (subscriptionTokens e))
    by (intros tok; apply unsubscribe_tokens_live, C).
  assert (T : unsubscribe_tokens a b e <> [] -> snd (unsubscribe a b e) = true).
  { unfold unsubscribe. destruct (unsubscribe_tokens a b e) as [| t ts]; [congruence |].
    intros _. apply invoke_all_first, invoke_token_live; [exact C |].
    apply L. left. reflexivity. }
  split; [exact L |]. split; [split; [| exact T] |].
  - unfold unsubscribe. destruct (unsubscribe_tokens a b e); [discriminate | discriminate].
  - intros F. unfold unsubscribe in *.
    destruct (unsubscribe_tokens a b e) as [| t ts]; [reflexivity |].
    rewrite T in F by discriminate. discriminate.
Qed.

Lemma unsubscribe_result_witness :
  let w := run [Subscribe ScopeUndefined (VString "a") (VFunction (UserFn 0 false))]
             pubsubFactory in
  snd (unsubscribe (VFunction (UserFn 0 false)) VUndefined (eng w)) = true /\
  fst (unsubscribe (VFunction (UserFn 9 false)) VUndefined (eng w)) = eng w.
Proof.
  intros w.
  assert (R : reachable w) by (apply reachable_step, reachable_init).
  split.
  - apply (unsubscribe_result w (VFunction (UserFn 0 false)) VUndefined R).
    vm_compute. discriminate.
  - apply (unsubscribe_result w (VFunction (UserFn 9 false)) VUndefined R). reflexivity.
Defined.

(** X8: in every reachable state, passing a live token to [unsubscribe]
    returns [true], whatever the second argument, removes that token from
    the registry and the all-tokens set, and keeps every other token. *)
Theorem unsubscribe_by_token (w : world) (tok : token) (b : value) :
  reachable w ->
  In tok (subscriptionTokens (eng w)) ->
  let e := eng w in
  let r := unsubscribe (VFunction (fn_of_token tok)) b e in
  snd r = true /\
  ~ In tok (subscriptionTokens (fst r)) /\
  (forall key cb, ~ registered (fst r) key tok cb) /\
  (forall tok', tok' <> tok ->
     (In tok' (subscriptionTokens (fst r)) <-> In tok' (subscriptionTokens e)) /\
     (forall key cb, registered (fst r) key tok' cb <-> registered e key tok' cb)).
Proof.
  intros R L e r. pose proof (reachable_consistent w R) as C. fold e in C, L.
  assert (TS : unsubscribe_tokens (VFunction (fn_of_token tok)) b e = [tok]).
  { unfold unsubscribe_tokens, is_live_token. rewrite token_of_fn_of_token.
    apply set_has_In with (eq_dec := token_eq_dec) in L. rewrite L. reflexivity. }
  assert (E : fst r = invoke_each [tok] e).
  { subst r. unfold unsubscribe. rewrite TS. apply invoke_all_each. }
  pose proof (removes_only_invoke_each [tok] e) as RO.
  assert (G : forall key cb, ~ registered (fst r) key tok cb).
  { intros key cb. rewrite E. apply invoke_each_removes; [exact C | left; reflexivity]. }
  split; [| split; [| split]].
  - subst r. unfold unsubscribe. rewrite TS.
    apply invoke_all_first, invoke_token_live; assumption.
  - intros I. apply (G (tok_key tok) (tok_callback tok)).
    apply live_registered; [| exact I]. rewrite E. apply consistent_invoke_each, C.
  - exact G.
  - intros tok' N. rewrite E.
    assert (NI : ~ In tok' [tok]) by (intros [H | []]; congruence).
    split; [| intros key cb]; split.
    + apply (ro_live_old _ _ _ RO).
    + apply (ro_live_kept _ _ _ RO), NI.
    + apply (ro_registered_old _ _ _ RO).
    + apply (ro_registered_kept _ _ _ RO), NI.
Qed.

Lemma unsubscribe_by_token_witness :
  let tok := createSubscriptionToken 0 ScopeUndefined "a" (UserFn 0 false) in
  let w := run [Subscribe ScopeUndefined (VString "a") (VFunction (UserFn 0 false));
                Subscribe ScopeUndefined (VString "a") (VFunction (UserFn 1 false))]
             pubsubFactory in
  snd (unsubscribe (VFunction (fn_of_token tok)) VUndefined (eng w)) = true.
Proof.
  intros tok w.
  assert (R : reachable w) by (repeat apply reachable_step; apply reachable_init).
  apply (unsubscribe_by_token w tok VUndefined R). left. reflexivity.
Defined.

Lemma unsubscribe_tokens_topic eventName key f e :
  isValidEventName eventName = true ->
  createSubscriptionKey eventName = Some key ->
  unsubscribe_tokens eventName (VFunction f) e =
  index_tokens f key (callbackSubscriptionTokens e).
Proof.
  intros V K. unfold unsubscribe_tokens, index_tokens, known_callback.
  destruct eventName as [| | bo | n | s | r | g | so | i]; try discriminate;
    cbn [isFunction isValidEventName isString isRegExp orb]; rewrite K;
    destruct (map_get fn_eq_dec f (callbackSubscriptionTokens e)); reflexivity.
Qed.

(** X9: in every reachable state [unsubscribe(topic, f)], for a string or
    RegExp [topic], removes every subscription of [f] under the key of
    [topic] and keeps every subscription under another key or of another
    callback. *)
Theorem unsubscribe_topic_callback (w : world) (eventName : value) (key : string) (f : fn) :
  reachable w ->
  isValidEventName eventName = true ->
  createSubscriptionKey eventName = Some key ->
  let e := eng w in
  let e' := fst (unsubscribe eventName (VFunction f) e) in
  (forall tok, ~ registered e' key tok f) /\
  (forall k tok cb, k <> key \/ cb <> f ->
                    (registered e' k tok cb <-> registered e k tok cb)).
Proof.
  intros R NF K e e'. pose proof (reachable_consistent w R) as C. fold e in C.
  assert (E : e' = invoke_each (index_tokens f key (callbackSubscriptionTokens e)) e).
  { subst e'. unfold unsubscribe.
    rewrite (unsubscribe_tokens_topic eventName key f e NF K). apply invoke_all_each. }
  set (ts := index_tokens f key (callbackSubscriptionTokens e)) in *.
  pose proof (removes_only_invoke_each ts e) as RO. rewrite <- E in RO.
  assert (TS : forall tok, In tok ts <-> registered e key tok f).
  { intros tok. unfold ts, index_tokens. split.
    - destruct (map_get fn_eq_dec f (callbackSubscriptionTokens e)) as [inner |] eqn:G;
        [| intros []].
      destruct (map_get string_dec key inner) as [toks |] eqn:Gk; [| intros []].
      intros I. apply (indexed_registered e C). exists inner, toks. auto.
    - intros Rg. apply (registered_indexed e C) in Rg as (inner & toks & G & Gk & I).
      rewrite G, Gk. exact I. }
  split.
  - intros tok Rg.
    assert (I : In tok ts) by (apply TS, (ro_registered_old _ _ _ RO), Rg).
    rewrite E in Rg. exact (invoke_each_removes ts e C tok I key f Rg).
  - intros k tok cb D. split; [apply (ro_registered_old _ _ _ RO) |].
    intros Rg. apply (ro_registered_kept _ _ _ RO); [| exact Rg].
    intros I. apply TS in I.
    destruct (registered_env e C _ _ _ Rg) as [K1 F1].
    destruct (registered_env e C _ _ _ I) as [K2 F2].
    destruct D as [D | D]; apply D; congruence.
Qed.

Lemma unsubscribe_topic_callback_witness :
  let f := UserFn 0 false in
  let w := run [Subscribe ScopeUndefined (VString "test1") (VFunction f);
                Subscribe ScopeUndefined (VString "test2") (VFunction f)] pubsubFactory in
  let e' := fst (unsubscribe (VString "test1") (VFunction f) (eng w)) in
  let t1 := createSubscriptionToken 0 ScopeUndefined "test1" f in
  let t2 := createSubscriptionToken 1 ScopeUndefined "test2" f in
  ~ registered e' "test1" t1 f /\ registered e' "test2" t2 f.
Proof.
  intros f w. cbn zeta.
  assert (R : reachable w) by (repeat apply reachable_step; apply reachable_init).
  pose proof (unsubscribe_topic_callback w (VString "test1") "test1" f R eq_refl eq_refl)
    as H.
  cbn zeta in H. destruct H as (A & B).
  split; [apply A |]. apply B; [left; discriminate |].
  eexists. split; reflexivity.
Defined.

(* ================================================================== *)
(** ** unsubscribeAll *)

Lemma unsubscribeAll_topic sc eventName key e :
  truthy eventName = true ->
  createSubscriptionKey eventName = Some key ->
  unsubscribeAll sc eventName e = returning (invoke_all (topic_tokens sc key e) e).
Proof.
  intros T K. unfold unsubscribeAll, topic_tokens. rewrite T, K. cbn [negb].
  destruct (map_get string_dec key (subscriptions e)); reflexivity.
Qed.

(** X10: in every reachable state [unsubscribeAll] with a non-empty string
    or a RegExp does not raise; on the root API it removes every
    subscription under the key of the topic, on an isolated scope only that
    scope's, and it keeps every subscription under another key or, for an
    isolated scope, of another scope. *)
Theorem unsubscribeAll_by_topic (w : world) (sc : scope) (eventName : value) (key : string) :
  reachable w ->
  truthy eventName = true ->
  createSubscriptionKey eventName = Some key ->
  let e := eng w in
  let r := unsubscribeAll sc eventName e in
  raises (snd r) = false /\
  (forall tok cb, registered (fst r) key tok cb ->
                  sc <> ScopeUndefined /\ tok_scope tok <> sc) /\
  (forall k tok cb, k <> key \/ (sc <> ScopeUndefined /\ tok_scope tok <> sc) ->
                    (registered (fst r) k tok cb <-> registered e k tok cb)).
Proof.
  intros R T K e r. pose proof (reachable_consistent w R) as C. fold e in C.
  subst r. rewrite (unsubscribeAll_topic sc eventName key e T K).
  unfold returning. cbn [fst snd]. rewrite invoke_all_each.
  set (ts := topic_tokens sc key e).
  pose proof (removes_only_invoke_each ts e) as RO.
  assert (IN : forall tok cb, registered e key tok cb ->
                              sc = ScopeUndefined \/ tok_scope tok = sc -> In tok ts).
  { intros tok cb Rg D. pose proof Rg as (sub & G & Gt).
    unfold ts, topic_tokens. rewrite G.
    assert (I : In tok (map fst (callbacks sub)))
      by (apply (In_keys_get token_eq_dec); eauto).
    destruct sc as [| n]; cbn [scope_truthy]; [exact I |].
    destruct D as [D | D]; [discriminate |].
    pose proof (registered_scoped e C _ _ _ Rg) as (toks & Gs & Is). rewrite D in Gs.
    rewrite Gs. apply filter_In. split; [exact I |].
    apply set_has_In. exact Is. }
  assert (OUT : forall tok, In tok ts ->
                            (exists cb, registered e key tok cb) /\
                            (sc = ScopeUndefined \/ tok_scope tok = sc)).
  { intros tok. unfold ts, topic_tokens.
    destruct (map_get string_dec key (subscriptions e)) as [sub |] eqn:G; [| intros []].
    assert (RG : In tok (map fst (callbacks sub)) -> exists cb, registered e key tok cb).
    { intros I. apply (In_keys_get token_eq_dec) in I as (cb & Gt).
      exists cb, sub. auto. }
    destruct sc as [| n]; cbn [scope_truthy]; [intros I; split; auto |].
    destruct (map_get storeKey_eq_dec (KScope (ScopeSymbol n)) (scopeSubscriptionTokens e))
      as [toks |] eqn:Gs; [| intros []].
    intros I. apply filter_In in I as [I S]. apply set_has_In in S.
    split; [auto |]. right. apply (scoped_registered e C). exists toks. auto. }
  split; [reflexivity |]. split.
  - intros tok cb Rg.
    pose proof (ro_registered_old _ _ _ RO _ _ _ Rg) as R0.
    destruct (scope_eq_dec sc ScopeUndefined) as [Eu | Nu].
    + exfalso. exact (invoke_each_removes ts e C tok (IN tok cb R0 (or_introl Eu)) key cb Rg).
    + split; [exact Nu |]. intros Es.
      exact (invoke_each_removes ts e C tok (IN tok cb R0 (or_intror Es)) key cb Rg).
  - intros k tok cb D. split; [apply (ro_registered_old _ _ _ RO) |].
    intros Rg. apply (ro_registered_kept _ _ _ RO); [| exact Rg].
    intros I. apply OUT in I as ((cb' & Rg') & S).
    destruct (registered_env e C _ _ _ Rg) as [K1 _].
    destruct (registered_env e C _ _ _ Rg') as [K2 _].
    destruct D as [D | [D1 D2]]; [apply D; congruence |].
    destruct S; contradiction.
Qed.

Lemma unsubscribeAll_by_topic_witness :
  let w := run [Subscribe ScopeUndefined (VString "test") (VFunction (UserFn 0 false));
                Subscribe (ScopeSymbol 5) (VString "test") (VFunction (UserFn 1 false));
                Subscribe (ScopeSymbol 6) (VString "test") (VFunction (UserFn 2 false))]
             pubsubFactory in
  let r := unsubscribeAll (ScopeSymbol 5) (VString "test") (eng w) in
  let other := createSubscriptionToken 2 (ScopeSymbol 6) "test" (UserFn 2 false) in
  raises (snd r) = false /\ registered (fst r) "test" other (UserFn 2 false).
Proof.
  intros w r other.
  assert (R : reachable w) by (repeat apply reachable_step; apply reachable_init).
  destruct (unsubscribeAll_by_topic w (ScopeSymbol 5) (VString "test") "test" R
              eq_refl eq_refl) as (A & _ & B).
  split; [exact A |].
  apply (B "test" other (UserFn 2 false)).
  - right. split; discriminate.
  - eexists. split; reflexivity.
Defined.

(** A String object is truthy and has [replace], so [unsubscribeAll] takes
    it as the topic it wraps, while [subscribe] and [unsubscribe], which
    test [typeof], reject it. *)
Example unsubscribeAll_string_object :
  let f := UserFn 0 false in
  let w := run [Subscribe ScopeUndefined (VString "a") (VFunction f)] pubsubFactory in
  snd (subscribe ScopeUndefined (VStringObject "a") (VFunction f) w) = Return VNull /\
  unsubscribe (VStringObject "a") (VFunction f) (eng w) = (eng w, false) /\
  snd (unsubscribeAll ScopeUndefined (VStringObject "a") (eng w)) = Return (VBoolean true) /\
  subscriptions (fst (unsubscribeAll ScopeUndefined (VStringObject "a") (eng w))) = [] /\
  unsubscribeAll ScopeUndefined (VObject 0) (eng w) = (eng w, ThrowTypeError).
Proof. repeat split; reflexivity. Qed.

(* ================================================================== *)
(** ** subscribe, then publish or unsubscribe *)


Lemma map_delete_set_absent {K V : Type} (eq_dec : forall a b : K, {a = b} + {a <> b})
    (k : K) (v : V) (m : list (K * V)) :
  map_get eq_dec k m = None -> map_delete eq_dec k (map_set eq_dec k v m) = m.
Proof.
  intros H. rewrite (map_set_absent eq_dec k v m H). unfold map_delete.
  rewrite filter_app. cbn. destruct (eq_dec k k); [| congruence].
  rewrite app_nil_r. apply (map_delete_id eq_dec k m H).
Qed.

Lemma set_delete_absent (tok : token) (l : list token) :
  ~ In tok l -> set_delete token_eq_dec tok l = l.
Proof.
  unfold set_delete. induction l as [| x l IH]; cbn; [reflexivity |].
  intros N. destruct (token_eq_dec tok x) as [-> | Nx]; [exfalso; apply N; auto |].
  rewrite IH; [reflexivity |]. intros I. apply N. auto.
Qed.

Lemma set_delete_add_absent (tok : token) (l : list token) :
  ~ In tok l -> set_delete token_eq_dec tok (set_add token_eq_dec tok l) = l.
Proof.
  intros N. unfold set_add.
  destruct (in_dec token_eq_dec tok l); [contradiction |].
  unfold set_delete. rewrite filter_app. cbn.
  destruct (token_eq_dec tok tok); [| congruence].
  rewrite app_nil_r. apply set_delete_absent, N.
Qed.



Lemma fresh_token_unregistered w tok :
  reachable w -> tok_id tok = nextId w ->
  forall key cb, ~ registered (eng w) key tok cb.
Proof.
  intros R E key cb Rg.
  apply (registered_live _ (reachable_consistent w R)) in Rg.
  apply (reachable_ids_below w R) in Rg. lia.
Qed.

(** X12: in every reachable state, subscribing to the literal [s] makes [f]
    one of the callbacks resolved for the topic [s] and leaves the callbacks
    resolved for every other topic as they were, in order. *)
Theorem subscribe_literal_affects_only_its_topic (w : world) sc (s : string) (f : fn) :
  reachable w ->
  let e' := eng (fst (subscribe sc (VString s) (VFunction f) w)) in
  In f (getCallbacksForEventName s e') /\
  (forall t, t <> s ->
             getCallbacksForEventName t e' = getCallbacksForEventName t (eng w)).
Proof.
  intros R e'.
  destruct (literal_subscription_entry w sc f s R) as (sub & G & Gt & M).
  split.
  - eapply (registered_resolved e' _ sub _ f s G); [apply M; reflexivity | exact Gt].
  - intros t N. apply subscribe_literal_other_topics; assumption.
Qed.

Lemma subscribe_literal_affects_only_its_topic_witness :
  let w := run [Subscribe ScopeUndefined (VString "part1.part2") (VFunction (UserFn 0 false))]
             pubsubFactory in
  let e' := eng (fst (subscribe ScopeUndefined (VString "part1")
                        (VFunction (UserFn 1 false)) w)) in
  In (UserFn 1 false) (getCallbacksForEventName "part1" e') /\
  getCallbacksForEventName "part1.part2" e' = [UserFn 0 false].
Proof.
  intros w. cbn zeta.
  assert (R : reachable w) by (apply reachable_step, reachable_init).
  pose proof (subscribe_literal_affects_only_its_topic w ScopeUndefined "part1"
                (UserFn 1 false) R) as H.
  cbn zeta in H. destruct H as (A & B).
  split; [exact A |]. rewrite (B "part1.part2"); [reflexivity | discriminate].
Defined.

Lemma fresh_token_absent w key sub tok :
  reachable w -> tok_id tok = nextId w ->
  map_get string_dec key (subscriptions (eng w)) = Some sub ->
  map_get token_eq_dec tok (callbacks sub) = None.
Proof.
  intros R E G. destruct (map_get token_eq_dec tok (callbacks sub)) as [cb |] eqn:Gt;
    [| reflexivity].
  exfalso. apply (fresh_token_unregistered w tok R E key cb). exists sub. auto.
Qed.

(** X13: in every reachable state an accepted [subscribe] puts the new
    token last: in the entry of its key when there is one, whose pattern is
    kept, and otherwise in a new entry after all the others, so that the
    callback comes last among those a publish resolves. *)
Theorem subscribe_appends (w : world) sc (eventName : value) (key : string)
    (pat : RegExp) (f : fn) :
  reachable w ->
  isValidEventName eventName = true ->
  createSubscriptionKey eventName = Some key ->
  createSubscriptionPattern eventName = Some pat ->
  let store := subscriptions (eng w) in
  let e' := eng (fst (subscribe sc eventName (VFunction f) w)) in
  let tok := createSubscriptionToken (nextId w) sc key f in
  match map_get string_dec key store with
  | Some sub =>
      subscriptions e' =
      map_set string_dec key
        {| subscriptionPattern := subscriptionPattern sub;
           callbacks := callbacks sub ++ [(tok, f)] |} store
  | None =>
      subscriptions e' =
      store ++ [(key, {| subscriptionPattern := pat; callbacks := [(tok, f)] |})] /\
      forall t, getCallbacksForEventName t e' =
                getCallbacksForEventName t (eng w) ++ (if re_test pat t then [f] else [])
  end.
Proof.
  intros R V K P store e' tok.
  destruct (subscribe_valid sc eventName f w V) as (key' & pat' & K' & P' & E).
  rewrite K in K'. rewrite P in P'. injection K' as <-. injection P' as <-.
  assert (S : subscriptions e' = subscriptions_add key pat tok f store).
  { subst e'. rewrite E. reflexivity. }
  rewrite subscriptions_add_eq in S. unfold entry_pattern, entry_callbacks in S.
  fold store in S.
  destruct (map_get string_dec key store) as [sub |] eqn:G.
  - rewrite S. f_equal. f_equal.
    apply map_set_absent. apply (fresh_token_absent w key sub tok R eq_refl G).
  - rewrite (map_set_absent string_dec _ _ _ G) in S. split; [exact S |].
    intros t. unfold getCallbacksForEventName. rewrite S, flat_map_app.
    cbn. rewrite app_nil_r. destruct (re_test pat t); reflexivity.
Qed.

Lemma subscribe_appends_witness :
  let w := run [Subscribe ScopeUndefined (VString "a") (VFunction (UserFn 0 false))]
             pubsubFactory in
  getCallbacksForEventName "b"
    (eng (fst (subscribe ScopeUndefined (VString "b") (VFunction (UserFn 1 false)) w)))
  = [UserFn 1 false].
Proof.
  intros w.
  assert (R : reachable w) by (apply reachable_step, reachable_init).
  pose proof (subscribe_appends w ScopeUndefined (VString "b") "b"
                (RegExpNew "^b$" [Bol; Atom (Lit "b") One; Eol]) (UserFn 1 false)
                R eq_refl eq_refl eq_refl) as H.
  cbn zeta in H.
  change (map_get string_dec "b" (subscriptions (eng w))) with (@None SubscriptionObject) in H.
  destruct H as [_ H]. rewrite H. reflexivity.
Defined.

(* ================================================================== *)
(** ** subscribe followed by the token *)

Lemma subscriptions_round_trip key pat tok cb store :
  (forall sub, map_get string_dec key store = Some sub ->
               map_get token_eq_dec tok (callbacks sub) = None /\ callbacks sub <> []) ->
  subscriptions_delete key tok (subscriptions_add key pat tok cb store) = store.
Proof.
  intros H. rewrite subscriptions_add_eq. unfold subscriptions_delete.
  rewrite map_get_set_same. cbn [callbacks subscriptionPattern].
  unfold entry_callbacks, entry_pattern.
  destruct (map_get string_dec key store) as [sub |] eqn:G.
  - destruct (H sub eq_refl) as [A NE].
    rewrite (map_delete_set_absent token_eq_dec _ _ _ A).
    destruct (callbacks sub) as [| c cs] eqn:Ec; [congruence |]. cbn [size List.length Nat.eqb].
    rewrite map_set_set. apply map_set_id. rewrite G. destruct sub. cbn in *. congruence.
  - rewrite (map_delete_set_absent token_eq_dec tok cb [] eq_refl).
    cbn [size List.length Nat.eqb]. apply map_delete_set_absent, G.
Qed.

Lemma callbackTokens_round_trip cb key tok store :
  (forall inner, map_get fn_eq_dec cb store = Some inner ->
     inner <> [] /\
     forall toks, map_get string_dec key inner = Some toks -> toks <> [] /\ ~ In tok toks) ->
  callbackTokens_delete cb key tok (callbackTokens_add cb key tok store) = store.
Proof.
  intros H. rewrite callbackTokens_add_eq. unfold callbackTokens_delete.
  rewrite !map_get_set_same. unfold index_tokens, index_inner, size.
  destruct (map_get fn_eq_dec cb store) as [inner |] eqn:G.
  - destruct (H inner eq_refl) as [NE HT].
    assert (SZ : Nat.eqb (List.length inner) 0 = false)
      by (destruct inner; [congruence | reflexivity]).
    destruct (map_get string_dec key inner) as [toks |] eqn:Gk.
    + destruct (HT toks eq_refl) as [NT NI].
      rewrite (set_delete_add_absent tok toks NI).
      assert (ST : Nat.eqb (List.length toks) 0 = false)
        by (destruct toks; [congruence | reflexivity]).
      rewrite ST, map_set_set, (map_set_id string_dec key toks inner Gk), SZ, map_set_set.
      apply map_set_id, G.
    + rewrite (set_delete_add_absent tok []) by (intros []). cbn [List.length Nat.eqb].
      rewrite (map_delete_set_absent string_dec _ _ _ Gk), SZ, map_set_set.
      apply map_set_id, G.
  - change (map_get string_dec key []) with (@None (list token)). cbn iota.
    rewrite (set_delete_add_absent tok []) by (intros []). cbn [List.length Nat.eqb].
    rewrite (map_delete_set_absent string_dec key _ [] eq_refl).
    cbn [List.length Nat.eqb]. apply map_delete_set_absent, G.
Qed.

Lemma map_delete_KTokens x (store : list (storeKey * list token)) :
  (forall k toks, In (k, toks) store -> exists sc, k = KScope sc) ->
  map_delete storeKey_eq_dec (KTokens x) store = store.
Proof.
  intros H. apply map_delete_id.
  destruct (map_get storeKey_eq_dec (KTokens x) store) as [toks |] eqn:G; [| reflexivity].
  apply map_get_In in G. apply H in G as (sc & E). discriminate.
Qed.

Lemma scopeTokens_round_trip sc tok store :
  (forall k toks, In (k, toks) store -> exists sc0, k = KScope sc0) ->
  (forall toks, map_get storeKey_eq_dec (KScope sc) store = Some toks -> ~ In tok toks) ->
  scopeTokens_delete sc tok (scopeTokens_add sc tok store) =
  match map_get storeKey_eq_dec (KScope sc) store with
  | Some _ => store
  | None => store ++ [(KScope sc, [])]
  end.
Proof.
  intros HK HT. rewrite scopeTokens_add_eq. unfold scopeTokens_delete.
  rewrite map_get_set_same, map_set_set. unfold scope_tokens.
  destruct (map_get storeKey_eq_dec (KScope sc) store) as [toks |] eqn:G.
  - rewrite (set_delete_add_absent tok toks (HT toks eq_refl)).
    rewrite (map_set_id storeKey_eq_dec _ _ _ G).
    destruct (Nat.eqb (size toks) 0); [apply map_delete_KTokens, HK | reflexivity].
  - rewrite (set_delete_add_absent tok []) by (intros []). cbn [size List.length Nat.eqb].
    rewrite (map_set_absent storeKey_eq_dec _ _ _ G). apply map_delete_KTokens.
    intros k toks I. apply in_app_or in I as [I | [[= <- _] | []]]; [eapply HK, I | eauto].
Qed.

(** X14: in every reachable state, an accepted [subscribe] followed by the
    invocation of the token it returned gives [true] and puts the registry,
    the all-tokens set and the callback index back exactly as they were; the
    scope index is back as it was when the scope already had an entry, and
    otherwise has gained an entry with an empty set. *)
Theorem subscribe_then_token_restores (w : world) sc (eventName : value) (key : string)
    (f : fn) :
  reachable w ->
  isValidEventName eventName = true ->
  createSubscriptionKey eventName = Some key ->
  let e := eng w in
  let e1 := eng (fst (subscribe sc eventName (VFunction f) w)) in
  let tok := createSubscriptionToken (nextId w) sc key f in
  snd (subscribe sc eventName (VFunction f) w) = Return (VFunction (fn_of_token tok)) /\
  snd (invoke_token tok e1) = true /\
  subscriptions (fst (invoke_token tok e1)) = subscriptions e /\
  subscriptionTokens (fst (invoke_token tok e1)) = subscriptionTokens e /\
  callbackSubscriptionTokens (fst (invoke_token tok e1)) = callbackSubscriptionTokens e /\
  scopeSubscriptionTokens (fst (invoke_token tok e1)) =
    match map_get storeKey_eq_dec (KScope sc) (scopeSubscriptionTokens e) with
    | Some _ => scopeSubscriptionTokens e
    | None => scopeSubscriptionTokens e ++ [(KScope sc, [])]
    end.
Proof.
  intros R V K e e1 tok. pose proof (reachable_consistent w R) as C. fold e in C.
  destruct (subscribe_valid sc eventName f w V) as (key' & pat & K' & _ & E).
  rewrite K in K'. injection K' as <-.
  assert (E1 : e1 = fst (register (nextId w) sc key pat f e)).
  { subst e1. rewrite E. reflexivity. }
  assert (FR : forall k cb, ~ registered e k tok cb)
    by (apply (fresh_token_unregistered w tok R eq_refl)).
  assert (P : map_has string_dec (tok_key tok) (subscriptions e1) = true).
  { rewrite E1. cbn [register fst subscriptions tok_key tok createSubscriptionToken].
    rewrite subscriptions_add_eq. unfold map_has. rewrite map_get_set_same. reflexivity. }
  rewrite (invoke_token_present tok e1 P). rewrite E1.
  cbn [fst snd register subscriptions subscriptionTokens callbackSubscriptionTokens
       scopeSubscriptionTokens].
  fold tok. cbn [tok_key tok_callback tok_scope tok createSubscriptionToken]. fold tok.
  split; [rewrite E; reflexivity |]. split; [reflexivity |].
  split; [| split; [| split]].
  - apply subscriptions_round_trip. intros sub G. split.
    + destruct (map_get token_eq_dec tok (callbacks sub)) as [cb |] eqn:Gt; [| reflexivity].
      exfalso. apply (FR key cb). exists sub. auto.
    + apply (entries_nonempty e C key sub). apply map_get_In in G. exact G.
  - apply set_delete_add_absent. intros I.
    apply (FR _ _ (live_registered e C tok I)).
  - apply callbackTokens_round_trip. intros inner G.
    destruct (index_nonempty e C f inner G) as [NE NS]. split; [exact NE |].
    intros toks Gk. split.
    + apply (NS key toks). apply map_get_In in Gk. exact Gk.
    + intros I. apply (FR key f), (indexed_registered e C). exists inner, toks. auto.
  - apply scopeTokens_round_trip.
    + apply (reachable_scope_keys_ok w R).
    + intros toks G I.
      destruct (scoped_registered e C sc tok) as [_ Rg]; [exists toks; auto |].
      exact (FR _ _ Rg).
Qed.

Lemma subscribe_then_token_restores_witness :
  let w := run [Subscribe ScopeUndefined (VString "a") (VFunction (UserFn 0 false))]
             pubsubFactory in
  let e1 := eng (fst (subscribe ScopeUndefined (VString "a") (VFunction (UserFn 1 false)) w)) in
  let tok := createSubscriptionToken 1 ScopeUndefined "a" (UserFn 1 false) in
  subscriptions (fst (invoke_token tok e1)) = subscriptions (eng w) /\
  scopeSubscriptionTokens (fst (invoke_token tok e1)) = scopeSubscriptionTokens (eng w).
Proof.
  intros w. cbn zeta.
  assert (R : reachable w) by (apply reachable_step, reachable_init).
  pose proof (subscribe_then_token_restores w ScopeUndefined (VString "a") "a"
                (UserFn 1 false) R eq_refl eq_refl) as H.
  cbn zeta in H. destruct H as (_ & _ & A & _ & _ & B).
  split; [exact A | exact B].
Defined.

(* ================================================================== *)
(** ** Deferred deliveries and subscribeOnce *)

Lemma removal_op_host o w :
  removal_op o = true ->
  timers (exec o w) = timers w /\ calls (exec o w) = calls w /\
  onceTokens (exec o w) = onceTokens w.
Proof. destruct o; try discriminate; intros _; repeat split; reflexivity. Qed.

Lemma run_removal_host ops : forall w,
  forallb removal_op ops = true ->
  timers (run ops w) = timers w /\ calls (run ops w) = calls w /\
  onceTokens (run ops w) = onceTokens w.
Proof.
  unfold run. induction ops as [| o ops IH]; intros w H; cbn [fold_left].
  - repeat split; reflexivity.
  - cbn [forallb] in H. apply andb_true_iff in H as [Ho Hs].
    destruct (IH (exec o w) Hs) as (T & C & O).
    destruct (removal_op_host o w Ho) as (T0 & C0 & O0).
    rewrite T, C, O, T0, C0, O0. repeat split; reflexivity.
Qed.

(** X15: a deferred delivery is a snapshot: whatever is unsubscribed between
    an asynchronous [publish] and the run of its timer, the callbacks
    resolved at publish time are all invoked when the timer runs, and none
    before. *)
Theorem deferred_delivery_is_a_snapshot (w : world) (t : string) (data : value)
    (ops : list op) :
  timers w = [] ->
  forallb removal_op ops = true ->
  getCallbacksForEventName t (eng w) <> [] ->
  let w1 := run ops (fst (publish t data false w)) in
  calls w1 = calls w /\
  calls (runTimer w1) =
    calls w ++ flat_map (fun f => invocations (onceTokens w) f t data)
                 (getCallbacksForEventName t (eng w)).
Proof.
  intros T H NE w1.
  assert (P : fst (publish t data false w) =
              setTimeout (getCallbacksForEventName t (eng w), t, data)
                (with_eng (matched t (eng w)) w)).
  { unfold publish. destruct (getCallbacksForEventName t (eng w)); [congruence | reflexivity]. }
  destruct (run_removal_host ops (fst (publish t data false w)) H) as (Tq & C & O).
  fold w1 in Tq, C, O. rewrite P in Tq, C, O.
  cbn [setTimeout timers calls onceTokens with_timers with_eng] in Tq, C, O. rewrite T in Tq.
  split; [exact C |].
  unfold runTimer. rewrite Tq. cbn [app].
  destruct (deliver_calls (getCallbacksForEventName t (eng w)) t data (with_timers [] w1))
    as (D & _).
  rewrite D. cbn [calls onceTokens with_timers]. rewrite C, O. reflexivity.
Qed.

Lemma deferred_delivery_is_a_snapshot_witness :
  let f := UserFn 0 false in
  let w := run [Subscribe ScopeUndefined (VString "test") (VFunction f)] pubsubFactory in
  let w1 := run [UnsubscribeAll ScopeUndefined VUndefined]
              (fst (publish "test" (VNumber 1) false w)) in
  subscriptions (eng w1) = [] /\
  calls (runTimer w1) = [(f, "test", VNumber 1)].
Proof.
  intros f w w1. split; [reflexivity |].
  assert (NE : getCallbacksForEventName "test" (eng w) <> []) by (vm_compute; discriminate).
  destruct (deferred_delivery_is_a_snapshot w "test" (VNumber 1)
              [UnsubscribeAll ScopeUndefined VUndefined] eq_refl eq_refl NE) as (_ & H).
  exact H.
Defined.

Lemma not_live_after_invoke_each ts e tok :
  consistent e ->
  In tok ts \/ ~ In tok (subscriptionTokens e) ->
  ~ In tok (subscriptionTokens (invoke_each ts e)).
Proof.
  intros C [I | N] L.
  - apply (live_registered _ (consistent_invoke_each ts e C)) in L.
    exact (invoke_each_removes ts e C tok I _ _ L).
  - apply N. apply (ro_live_old _ _ _ (removes_only_invoke_each ts e)). exact L.
Qed.

Lemma call_once_removes n cb tok eventName data w :
  consistent (eng w) ->
  map_get Nat.eq_dec n (onceTokens w) = Some (VFunction (fn_of_token tok)) ->
  ~ In tok (subscriptionTokens (eng (fst (call (OnceFn n cb) eventName data w)))).
Proof.
  intros C B. cbn [call]. cbn [onceTokens record_call]. rewrite B.
  match goal with |- context [call cb eventName data ?w1] =>
    destruct (call_engine cb eventName data w1) as (ts & E & _); rewrite E end.
  cbn [eng with_eng record_call].
  unfold unsubscribe. rewrite invoke_all_each.
  apply not_live_after_invoke_each; [apply consistent_invoke_each, C |]. right.
  apply not_live_after_invoke_each; [exact C |].
  destruct (in_dec token_eq_dec tok (subscriptionTokens (eng w))) as [L | N]; [| auto].
  left. unfold unsubscribe_tokens, is_live_token. rewrite token_of_fn_of_token.
  apply set_has_In with (eq_dec := token_eq_dec) in L. rewrite L. left. reflexivity.
Qed.

Lemma deliver_once_removes n cb tok eventName data callbacks : forall w,
  consistent (eng w) ->
  map_get Nat.eq_dec n (onceTokens w) = Some (VFunction (fn_of_token tok)) ->
  In (OnceFn n cb) callbacks ->
  ~ In tok (subscriptionTokens (eng (deliver (callbacks, eventName, data) w))).
Proof.
  induction callbacks as [| f callbacks IH]; intros w C B I; [destruct I |].
  change (deliver (f :: callbacks, eventName, data) w)
    with (deliver (callbacks, eventName, data) (fst (call f eventName data w))).
  destruct (in_dec fn_eq_dec (OnceFn n cb) callbacks) as [It | Nt].
  - apply IH; [apply consistent_call, C | | exact It].
    destruct (call_calls f eventName data w) as (_ & O & _). rewrite O. exact B.
  - destruct I as [-> | I]; [| contradiction].
    destruct (deliver_engine (callbacks, eventName, data)
                (fst (call (OnceFn n cb) eventName data w))) as (ts & E & _).
    rewrite E. apply not_live_after_invoke_each.
    + apply (consistent_call (OnceFn n cb) eventName data w C).
    + right. apply call_once_removes; assumption.
Qed.

(** X16: in every reachable state [subscribeOnce] on a literal topic returns
    a live token; a synchronous publish of that topic then returns [true],
    invokes the callback with the topic and the data, and leaves the token
    no longer live. *)
Theorem subscribeOnce_synchronous_publish (w : world) sc (s : string) (f : fn)
    (data : value) :
  reachable w ->
  let wrapper := OnceFn (nextId w) f in
  let tok := createSubscriptionToken (S (nextId w)) sc (escapeRegexpCharacters s) wrapper in
  let r := subscribeOnce sc (VString s) (VFunction f) w in
  let p := publish s data true (fst r) in
  snd r = Return (VFunction (fn_of_token tok)) /\
  In tok (subscriptionTokens (eng (fst r))) /\
  snd p = true /\
  In (f, s, data) (calls (fst p)) /\
  ~ In tok (subscriptionTokens (eng (fst p))).
Proof.
  intros R wrapper tok r p.
  assert (Er : r = (bind_once (nextId w) (VFunction (fn_of_token tok))
                      (fst (subscribe sc (VString s) (VFunction wrapper) (fresh w))),
                    Return (VFunction (fn_of_token tok)))).
  { subst r. unfold subscribeOnce. cbn [isFunction negb]. fold wrapper.
    rewrite subscribe_literal. reflexivity. }
  assert (Rf : reachable (fresh w)) by (apply (reachable_step Isolate w R)).
  assert (Rr : reachable (fst r))
    by (apply (reachable_step (SubscribeOnce sc (VString s) (VFunction f)) w R)).
  pose proof (reachable_consistent _ Rr) as C.
  destruct (literal_subscription_entry (fresh w) sc wrapper s Rf)
    as (sub & G & Gt & M).
  assert (Ee : eng (fst r) = eng (fst (subscribe sc (VString s) (VFunction wrapper) (fresh w))))
    by (rewrite Er; reflexivity).
  rewrite <- Ee in G.
  assert (B : map_get Nat.eq_dec (nextId w) (onceTokens (fst r))
              = Some (VFunction (fn_of_token tok))).
  { rewrite Er. cbn [fst onceTokens bind_once]. apply map_get_set_same. }
  assert (IW : In wrapper (getCallbacksForEventName s (eng (fst r)))).
  { eapply (registered_resolved _ _ sub _ wrapper s G); [apply M; reflexivity | exact Gt]. }
  set (w1 := with_eng (matched s (eng (fst r))) (fst r)).
  assert (Ep : p = (deliver (getCallbacksForEventName s (eng (fst r)), s, data) w1, true)).
  { subst p. unfold publish. fold w1.
    destruct (getCallbacksForEventName s (eng (fst r))); [destruct IW | reflexivity]. }
  split; [rewrite Er; reflexivity |]. split; [| split; [| split]].
  - apply (registered_live _ C (escapeRegexpCharacters s) tok wrapper). exists sub. auto.
  - rewrite Ep. reflexivity.
  - rewrite Ep. cbn [fst].
    destruct (deliver_calls (getCallbacksForEventName s (eng (fst r))) s data w1)
      as (D & _).
    rewrite D. apply in_or_app. right. apply in_flat_map. exists wrapper.
    split; [exact IW |]. unfold wrapper. cbn [invocations].
    change (onceTokens w1) with (onceTokens (fst r)). rewrite B.
    right. destruct f; left; reflexivity.
  - rewrite Ep. cbn [fst]. apply (deliver_once_removes (nextId w) f).
    + apply consistent_matched, C.
    + exact B.
    + exact IW.
Qed.

Lemma subscribeOnce_synchronous_publish_witness :
  let w := run [Subscribe ScopeUndefined (VString "test") (VFunction (UserFn 1 false))]
             pubsubFactory in
  let r := subscribeOnce ScopeUndefined (VString "test") (VFunction (UserFn 0 false)) w in
  let p := publish "test" (VNumber 1) true (fst r) in
  snd p = true /\ In (UserFn 0 false, "test", VNumber 1) (calls (fst p)).
Proof.
  intros w. cbn zeta.
  assert (R : reachable w) by (apply reachable_step, reachable_init).
  pose proof (subscribeOnce_synchronous_publish w ScopeUndefined "test" (UserFn 0 false)
                (VNumber 1) R) as H.
  cbn zeta in H. destruct H as (_ & _ & A & B & _).
  split; [exact A | exact B].
Defined.

(* ================================================================== *)
(** ** What subscribe adds, and tokens that are no longer live *)

(** X17: in every reachable state an accepted [subscribe] adds its token to
    the registry, the all-tokens set, the callback index and the scope
    index, and neither removes nor changes any other subscription. *)
Theorem subscribe_adds_only (w : world) sc (eventName : value) (key : string) (f : fn) :
  reachable w ->
  isValidEventName eventName = true ->
  createSubscriptionKey eventName = Some key ->
  let e := eng w in
  let e' := eng (fst (subscribe sc eventName (VFunction f) w)) in
  let tok := createSubscriptionToken (nextId w) sc key f in
  (forall k tok' cb, registered e' k tok' cb <->
                     registered e k tok' cb \/ (k = key /\ tok' = tok /\ cb = f)) /\
  (forall tok', In tok' (subscriptionTokens e') <->
                In tok' (subscriptionTokens e) \/ tok' = tok) /\
  (forall cb k tok', indexed e' cb k tok' <->
                     indexed e cb k tok' \/ (cb = f /\ k = key /\ tok' = tok)) /\
  (forall sc' tok', scoped e' sc' tok' <->
                    scoped e sc' tok' \/ (sc' = sc /\ tok' = tok)).
Proof.
  intros R V K e e' tok.
  destruct (subscribe_valid sc eventName f w V) as (key' & pat & K' & _ & E).
  rewrite K in K'. injection K' as <-.
  assert (E1 : e' = fst (register (nextId w) sc key pat f e)).
  { subst e'. rewrite E. reflexivity. }
  assert (FR : forall k cb, ~ registered e k tok cb)
    by (apply (fresh_token_unregistered w tok R eq_refl)).
  rewrite E1. unfold registered, indexed, scoped.
  cbn [register fst subscriptions subscriptionTokens callbackSubscriptionTokens
       scopeSubscriptionTokens]. fold tok.
  split; [| split; [| split]].
  - intros k tok' cb. rewrite registered_in_add. split.
    + intros [H | [H _]]; auto.
    + intros [H | H]; [| auto]. right. split; [exact H |].
      intros [-> ->]. exact (FR _ _ H).
  - intros tok'. rewrite In_set_add. tauto.
  - intros cb k tok'. rewrite indexed_in_add. tauto.
  - intros sc' tok'. rewrite scoped_in_add. tauto.
Qed.

Lemma subscribe_adds_only_witness :
  let w := run [Subscribe ScopeUndefined (VString "a") (VFunction (UserFn 0 false))]
             pubsubFactory in
  let e' := eng (fst (subscribe (ScopeSymbol 4) (VString "a") (VFunction (UserFn 1 false)) w)) in
  let old := createSubscriptionToken 0 ScopeUndefined "a" (UserFn 0 false) in
  registered e' "a" old (UserFn 0 false).
Proof.
  intros w. cbn zeta.
  assert (R : reachable w) by (apply reachable_step, reachable_init).
  pose proof (subscribe_adds_only w (ScopeSymbol 4) (VString "a") "a" (UserFn 1 false)
                R eq_refl eq_refl) as H.
  cbn zeta in H. destruct H as (A & _).
  apply A. left. eexists. split; reflexivity.
Defined.

(** X18: in every reachable state, invoking a token that is not live changes
    none of the four stores, even when other subscriptions share its key;
    it returns whether the registry has an entry for that key. *)
Theorem dead_token_changes_nothing (w : world) (tok : token) :
  reachable w ->
  ~ In tok (subscriptionTokens (eng w)) ->
  invoke_token tok (eng w) =
  (eng w, map_has string_dec (tok_key tok) (subscriptions (eng w))).
Proof.
  intros R N. pose proof (reachable_consistent w R) as C.
  pose proof (reachable_scope_keys_ok w R) as SK.
  destruct (map_has string_dec (tok_key tok) (subscriptions (eng w))) eqn:H.
  2: { apply invoke_token_absent, H. }
  rewrite (invoke_token_present tok _ H). f_equal.
  assert (NR : forall k cb, ~ registered (eng w) k tok cb)
    by (intros k cb Rg; apply N, (registered_live _ C _ _ _ Rg)).
  destruct (eng w) as [subs toks idx scs] eqn:Ee.
  cbn [subscriptions subscriptionTokens callbackSubscriptionTokens scopeSubscriptionTokens]
    in *.
  unfold registered, indexed, scoped in *.
  cbn [subscriptions subscriptionTokens callbackSubscriptionTokens scopeSubscriptionTokens]
    in *.
  f_equal.
  - unfold subscriptions_delete.
    destruct (map_get string_dec (tok_key tok) subs) as [sub |] eqn:G; [| reflexivity].
    assert (A : map_get token_eq_dec tok (callbacks sub) = None).
    { destruct (map_get token_eq_dec tok (callbacks sub)) as [cb |] eqn:Gt; [| reflexivity].
      exfalso. apply (NR (tok_key tok) cb). exists sub. auto. }
    rewrite (map_delete_id token_eq_dec _ _ A).
    pose proof (entries_nonempty _ C (tok_key tok) sub) as NE. cbn in NE.
    specialize (NE (map_get_In string_dec _ _ _ G)).
    destruct (callbacks sub) as [| c cs] eqn:Ec; [congruence |].
    cbn [size List.length Nat.eqb]. apply map_set_id. rewrite G.
    destruct sub. cbn in *. congruence.
  - apply set_delete_absent, N.
  - unfold callbackTokens_delete.
    destruct (map_get fn_eq_dec (tok_callback tok) idx) as [inner |] eqn:G; [| reflexivity].
    destruct (index_nonempty _ C (tok_callback tok) inner G) as [NE NS].
    assert (I1 : match map_get string_dec (tok_key tok) inner with
                 | Some callbackTokens =>
                     if Nat.eqb (size (set_delete token_eq_dec tok callbackTokens)) 0
                     then map_delete string_dec (tok_key tok) inner
                     else map_set string_dec (tok_key tok)
                            (set_delete token_eq_dec tok callbackTokens) inner
                 | None => inner
                 end = inner).
    { destruct (map_get string_dec (tok_key tok) inner) as [ts |] eqn:Gk; [| reflexivity].
      assert (NI : ~ In tok ts).
      { intros I. apply (NR (tok_key tok) (tok_callback tok)).
        apply (indexed_registered _ C). exists inner, ts. auto. }
      rewrite (set_delete_absent tok ts NI).
      pose proof (NS _ _ (map_get_In string_dec _ _ _ Gk)) as NT.
      destruct ts; [congruence |]. cbn [size List.length Nat.eqb].
      apply map_set_id, Gk. }
    rewrite I1. destruct inner; [congruence |]. cbn [size List.length Nat.eqb].
    apply map_set_id, G.
  - unfold scopeTokens_delete.
    destruct (map_get storeKey_eq_dec (KScope (tok_scope tok)) scs) as [ts |] eqn:G;
      [| reflexivity].
    assert (NI : ~ In tok ts).
    { intros I. destruct (scoped_registered _ C (tok_scope tok) tok) as [_ Rg].
      - exists ts. auto.
      - exact (NR _ _ Rg). }
    rewrite (set_delete_absent tok ts NI), (map_set_id storeKey_eq_dec _ _ _ G).
    destruct (Nat.eqb (size ts) 0); [| reflexivity].
    apply map_delete_KTokens. exact SK.
Qed.

Lemma dead_token_changes_nothing_witness :
  let tok := createSubscriptionToken 0 ScopeUndefined "a" (UserFn 0 false) in
  let w := run [Subscribe ScopeUndefined (VString "a") (VFunction (UserFn 0 false));
                Subscribe ScopeUndefined (VString "a") (VFunction (UserFn 1 false));
                InvokeToken tok] pubsubFactory in
  invoke_token tok (eng w) = (eng w, true).
Proof.
  intros tok w.
  assert (R : reachable w) by (repeat apply reachable_step; apply reachable_init).
  rewrite (dead_token_changes_nothing w tok R); [reflexivity |].
  vm_compute. intros [H | []]. discriminate H.
Defined.
